(** * TPIE core: a shallow embedding of the progress indicator base class,
    the LRU cache manager, the device descriptor and the parallel sort,
    with the properties the specification states about them.

    Conventions shared by all components:
    - [TPIE_OS_OFFSET] is a signed 64-bit integer, modelled as a [Z] in
      [OFFSET_MIN, OFFSET_MAX]; signed overflow and division by zero are
      undefined behaviour in C++ and are reported as [Undefined];
    - unsigned integers ([TPIE_OS_SIZE_T], [unsigned int], [unsigned short])
      are [Z] with the wrap-around written out;
    - a function that mutates an object takes the object and returns the
      updated one; effects on the outside (the write-out functor of the
      cache) are recorded in a log. *)

From Stdlib Require Import ZArith Lia List Bool String Ascii.
From stdpp Require Import base tactics option list gmap strings.

Local Open Scope Z_scope.

(** ** Outcomes of C++ code: a value, or undefined behaviour *)

Inductive undefined : Type :=
  | division_by_zero
  | signed_overflow
  | out_of_bounds
  | assertion_failed
  | out_of_fuel.

Inductive outcome (A : Type) : Type :=
  | Ok (a : A)
  | Undefined (u : undefined).
Arguments Ok {A} a.
Arguments Undefined {A} u.

#[global] Instance outcome_ret : MRet outcome := fun A a => Ok a.
#[global] Instance outcome_bind : MBind outcome := fun A B f m =>
  match m with
  | Ok a => f a
  | Undefined u => Undefined u
  end.

Definition is_Ok {A} (m : outcome A) : Prop := ∃ a, m = Ok a.

(** ** Progress indicator (tpie/progress_indicator_base.h) *)

Module ProgressIndicator.

(** Modelled from the spec: [TPIE_OS_OFFSET] is declared in portability.h,
    which is not among the sources. The specification gives values of this
    type 64 bits; the type is signed ([estimated_remaining_time] tests
    [m_current < 0]). *)
Definition OFFSET_MIN : Z := - 2 ^ 63.
Definition OFFSET_MAX : Z := 2 ^ 63 - 1.

(** The result of a signed 64-bit operation whose mathematical value is [z]. *)
Definition offset (z : Z) : outcome Z :=
  if bool_decide (OFFSET_MIN ≤ z ≤ OFFSET_MAX) then Ok z
  else Undefined signed_overflow.

Definition offset_add (x y : Z) : outcome Z := offset (x + y).
Definition offset_sub (x y : Z) : outcome Z := offset (x - y).

(** C++ [/] and [%] truncate toward zero: [Z.quot] and [Z.rem]. *)
Definition offset_div (x y : Z) : outcome Z :=
  if bool_decide (y = 0) then Undefined division_by_zero
  else offset (Z.quot x y).

Definition offset_rem (x y : Z) : outcome Z :=
  if bool_decide (y = 0) then Undefined division_by_zero
  else if bool_decide (x = OFFSET_MIN ∧ y = -1) then Undefined signed_overflow
  else Ok (Z.rem x y).

(** Conversion to [unsigned short]. *)
Definition to_ushort (z : Z) : Z := z mod 2 ^ 16.

(** The data members of [progress_indicator_base]. [ticks] values are
    numbers; [m_predictor] is a pointer, [None] being the null pointer. *)
Record progress_indicator_base : Type := mk_progress {
  m_minRange : Z;
  m_maxRange : Z;
  m_stepValue : Z;
  m_current : Z;
  m_percentageChecker : Z;
  m_percentageValue : Z;
  m_percentageUnit : Z;
  m_lastUpdate : Z;
  m_predictor : option nat
}.

Definition with_minRange (v : Z) (s : progress_indicator_base) :=
  mk_progress v (m_maxRange s) (m_stepValue s) (m_current s)
    (m_percentageChecker s) (m_percentageValue s) (m_percentageUnit s)
    (m_lastUpdate s) (m_predictor s).
Definition with_maxRange (v : Z) (s : progress_indicator_base) :=
  mk_progress (m_minRange s) v (m_stepValue s) (m_current s)
    (m_percentageChecker s) (m_percentageValue s) (m_percentageUnit s)
    (m_lastUpdate s) (m_predictor s).
Definition with_stepValue (v : Z) (s : progress_indicator_base) :=
  mk_progress (m_minRange s) (m_maxRange s) v (m_current s)
    (m_percentageChecker s) (m_percentageValue s) (m_percentageUnit s)
    (m_lastUpdate s) (m_predictor s).
Definition with_current (v : Z) (s : progress_indicator_base) :=
  mk_progress (m_minRange s) (m_maxRange s) (m_stepValue s) v
    (m_percentageChecker s) (m_percentageValue s) (m_percentageUnit s)
    (m_lastUpdate s) (m_predictor s).
Definition with_percentageChecker (v : Z) (s : progress_indicator_base) :=
  mk_progress (m_minRange s) (m_maxRange s) (m_stepValue s) (m_current s)
    v (m_percentageValue s) (m_percentageUnit s)
    (m_lastUpdate s) (m_predictor s).
Definition with_percentageValue (v : Z) (s : progress_indicator_base) :=
  mk_progress (m_minRange s) (m_maxRange s) (m_stepValue s) (m_current s)
    (m_percentageChecker s) v (m_percentageUnit s)
    (m_lastUpdate s) (m_predictor s).
Definition with_percentageUnit (v : Z) (s : progress_indicator_base) :=
  mk_progress (m_minRange s) (m_maxRange s) (m_stepValue s) (m_current s)
    (m_percentageChecker s) (m_percentageValue s) v
    (m_lastUpdate s) (m_predictor s).
Definition with_lastUpdate (v : Z) (s : progress_indicator_base) :=
  mk_progress (m_minRange s) (m_maxRange s) (m_stepValue s) (m_current s)
    (m_percentageChecker s) (m_percentageValue s) (m_percentageUnit s)
    v (m_predictor s).
Definition with_predictor (v : option nat) (s : progress_indicator_base) :=
  mk_progress (m_minRange s) (m_maxRange s) (m_stepValue s) (m_current s)
    (m_percentageChecker s) (m_percentageValue s) (m_percentageUnit s)
    (m_lastUpdate s) v.

Section Operations.

(** The static refresh threshold, in ticks. [getticks()] (cycle.h) is an
    input: every operation that reads the clock takes the value read as
    [now]. *)
Variable m_threshold : Z.

(** [elapsed(t1, t0)]: the ticks between two clock readings. *)
Definition elapsed (t1 t0 : Z) : Z := t1 - t0.

(** [refresh()] is pure virtual: the base contract emits nothing and the
    renderers that implement it only display the state. *)
Definition refresh (s : progress_indicator_base) : progress_indicator_base := s.

(** The five-argument constructor; the title and the description are
    ignored by the base class. *)
Definition construct (title description : string)
    (minRange maxRange stepValue : Z) (now : Z)
    : outcome progress_indicator_base :=
  let mn := Z.min minRange maxRange in
  let mx := Z.max minRange maxRange in
  d ← offset_sub mx mn;
  Ok (mk_progress mn mx (Z.max (Z.min stepValue d) 1) 0 0 0 0 now None).

(** The copy constructor initialises every member from [other]. *)
Definition copy_construct (other : progress_indicator_base)
    : progress_indicator_base :=
  mk_progress (m_minRange other) (m_maxRange other) (m_stepValue other)
    (m_current other) (m_percentageChecker other) (m_percentageValue other)
    (m_percentageUnit other) (m_lastUpdate other) (m_predictor other).

(** [operator=]: [this] is the first argument. The eight assignments of the
    body, in their order; a self-assignment assigns nothing. *)
Definition assign (this other : progress_indicator_base)
    : progress_indicator_base :=
  let s := with_percentageChecker (m_percentageChecker other) this in
  let s := with_percentageValue (m_percentageValue other) s in
  let s := with_percentageUnit (m_percentageUnit other) s in
  let s := with_maxRange (m_maxRange other) s in
  let s := with_minRange (m_minRange other) s in
  let s := with_stepValue (m_stepValue other) s in
  let s := with_current (m_current other) s in
  with_lastUpdate (m_lastUpdate other) s.

Definition reset (s : progress_indicator_base) : progress_indicator_base :=
  with_current (m_minRange s) s.

Definition set_min_range (minRange : Z) (s : progress_indicator_base) :=
  reset (with_minRange minRange s).

Definition set_max_range (maxRange : Z) (s : progress_indicator_base) :=
  reset (with_maxRange maxRange s).

Definition set_step_value (stepValue : Z) (s : progress_indicator_base) :=
  with_stepValue stepValue s.

Definition set_range (minRange maxRange stepValue : Z)
    (s : progress_indicator_base) : outcome progress_indicator_base :=
  let s := set_min_range (Z.min minRange maxRange) s in
  let s := set_max_range (Z.max minRange maxRange) s in
  d ← offset_sub (m_maxRange s) (m_minRange s);
  let s := set_step_value (Z.max (Z.min stepValue d) 1) s in
  let s := with_percentageValue 0 s in
  let s := with_percentageChecker 0 s in
  let s := with_percentageUnit 0 s in
  Ok (reset s).

(** [percentageUnit] is an [unsigned short]; it is promoted to the offset
    type for the division. *)
Definition set_percentage_range (minRange maxRange : Z) (percentageUnit : Z)
    (s : progress_indicator_base) : outcome progress_indicator_base :=
  let localMin := Z.min minRange maxRange in
  let localMax := Z.max minRange maxRange in
  let s := set_step_value 1 s in
  let s := with_percentageUnit (Z.max (to_ushort percentageUnit) 1) s in
  d ← offset_sub localMax localMin;
  v ← offset_div d (m_percentageUnit s);
  let s := with_percentageValue v s in
  let s :=
    if bool_decide (m_percentageValue s > 0) then
      set_max_range (m_percentageUnit s) (set_min_range 0 s)
    else
      let s := set_max_range localMax (set_min_range localMin s) in
      let s := with_percentageValue 1 s in
      with_percentageUnit (to_ushort d) s in
  let s := with_percentageChecker 0 s in
  Ok (reset s).

(** [step(TPIE_OS_OFFSET step)]. *)
Definition step (n : Z) (now : Z) (s : progress_indicator_base)
    : outcome progress_indicator_base :=
  c ← offset_add (m_current s) n;
  let s := with_current c s in
  if bool_decide (elapsed now (m_lastUpdate s) > m_threshold)
  then Ok (refresh (with_lastUpdate now s))
  else Ok s.

(** [step()]. *)
Definition step_default (now : Z) (s : progress_indicator_base)
    : outcome progress_indicator_base :=
  step (m_stepValue s) now s.

Definition step_percentage (now : Z) (s : progress_indicator_base)
    : outcome progress_indicator_base :=
  c ← offset_add (m_percentageChecker s) 1;
  c ← offset_rem c (m_percentageValue s);
  let s := with_percentageChecker c s in
  if bool_decide (m_percentageChecker s = 0) && bool_decide (m_current s < m_maxRange s)
  then step_default now s
  else Ok s.

(** [init(TPIE_OS_OFFSET range, TPIE_OS_OFFSET step = 1)]. *)
Definition init (range stepValue : Z) (now : Z) (s : progress_indicator_base)
    : outcome progress_indicator_base :=
  s ← (if bool_decide (range ≠ 0) then set_range 0 range stepValue s else Ok s);
  let s := with_current (m_minRange s) s in
  let s := with_lastUpdate now s in
  Ok (refresh s).

Definition get_current (s : progress_indicator_base) : Z := m_current s.
Definition get_time_predictor (s : progress_indicator_base) := m_predictor s.
Definition set_time_predictor (p : option nat) (s : progress_indicator_base) :=
  with_predictor p s.

(** The update operations of a client, each with the clock value it reads. *)
Inductive update : Type :=
  | Step (n : Z)
  | StepDefault
  | StepPercentage.

Definition exec (u : update) (now : Z) (s : progress_indicator_base)
    : outcome progress_indicator_base :=
  match u with
  | Step n => step n now s
  | StepDefault => step_default now s
  | StepPercentage => step_percentage now s
  end.

(** Runs a sequence of updates and returns the state after each of them. *)
Fixpoint run (us : list (update * Z)) (s : progress_indicator_base)
    : outcome (list progress_indicator_base) :=
  match us with
  | [] => Ok []
  | (u, now) :: us' =>
      s' ← exec u now s;
      rest ← run us' s';
      Ok (s' :: rest)
  end.

(** The successive values of [get_current], the initial one first. *)
Definition positions (s : progress_indicator_base)
    (trace : list progress_indicator_base) : list Z :=
  get_current <$> (s :: trace).

Definition non_decreasing (l : list Z) : Prop :=
  ∀ i j a b, (i ≤ j)%nat → l !! i = Some a → l !! j = Some b → a ≤ b.

Definition advances (u : update) : Prop :=
  match u with
  | Step n => 0 ≤ n
  | _ => True
  end.

End Operations.


(** *** Properties of the progress indicator *)

Lemma offset_Ok z r : offset z = Ok r → r = z ∧ OFFSET_MIN ≤ z ≤ OFFSET_MAX.
Proof.
  unfold offset. case_bool_decide; intros [= <-]. done.
Qed.

Lemma offset_in_range z : OFFSET_MIN ≤ z ≤ OFFSET_MAX → offset z = Ok z.
Proof. intros H. unfold offset. by rewrite bool_decide_eq_true_2. Qed.

Lemma step_Ok th n now s s' :
  step th n now s = Ok s' →
  m_current s' = m_current s + n ∧ m_stepValue s' = m_stepValue s
  ∧ m_maxRange s' = m_maxRange s ∧ m_percentageValue s' = m_percentageValue s
  ∧ m_percentageChecker s' = m_percentageChecker s.
Proof.
  unfold step, offset_add. destruct (offset (m_current s + n)) as [c|u] eqn:E; [|discriminate].
  apply offset_Ok in E as [-> _]. simpl.
  case_bool_decide; intros [= <-]; done.
Qed.

Lemma step_not_division_by_zero th n now s :
  step th n now s ≠ Undefined division_by_zero.
Proof.
  unfold step, offset_add, offset.
  case_bool_decide; simpl; [case_bool_decide|]; discriminate.
Qed.

Lemma exec_Ok th u now s s' :
  0 ≤ m_stepValue s → advances u → exec th u now s = Ok s' →
  m_current s ≤ m_current s' ∧ m_stepValue s' = m_stepValue s.
Proof.
  intros Hstep Hu. destruct u as [n| |]; simpl in *.
  - intros H. apply step_Ok in H as (-> & -> & _). lia.
  - unfold step_default. intros H. apply step_Ok in H as (-> & -> & _). lia.
  - unfold step_percentage.
    destruct (offset_add (m_percentageChecker s) 1) as [c|?]; [|discriminate]. simpl.
    destruct (offset_rem c (m_percentageValue s)) as [c'|?]; [|discriminate]. simpl.
    destruct (_ && _).
    + unfold step_default. intros H. apply step_Ok in H as (-> & -> & _). simpl. lia.
    + intros H. injection H as <-. simpl. lia.
Qed.

Lemma non_decreasing_cons a b l :
  a ≤ b → non_decreasing (b :: l) → non_decreasing (a :: b :: l).
Proof.
  intros Hab Hl [|i] [|j] x y Hij Hi Hj; simpl in *.
  - assert (x = y) by congruence. lia.
  - injection Hi as <-. specialize (Hl 0%nat j b y). simpl in Hl.
    assert (b ≤ y) by (apply Hl; [lia|done|done]). lia.
  - lia.
  - apply (Hl i j); [lia|done|done].
Qed.

Lemma non_decreasing_singleton a : non_decreasing [a].
Proof.
  intros [|i] [|j] x y _ Hi Hj; simpl in *; try discriminate.
  assert (x = y) by congruence. lia.
Qed.

(** The bound under which a run meets no undefined behaviour. *)
Definition increment (s : progress_indicator_base) (u : update) : Z :=
  match u with
  | Step n => n
  | StepDefault | StepPercentage => m_stepValue s
  end.

Definition total_increment (s : progress_indicator_base) (us : list (update * Z)) : Z :=
  fold_right (fun u acc => increment s u.1 + acc) 0 us.

Lemma run_defined th us : ∀ s,
  0 ≤ m_stepValue s →
  Forall (fun u => advances u.1) us →
  OFFSET_MIN ≤ m_current s →
  m_current s + total_increment s us ≤ OFFSET_MAX →
  1 ≤ m_percentageValue s ≤ OFFSET_MAX →
  0 ≤ m_percentageChecker s < m_percentageValue s →
  is_Ok (run th us s).
Proof.
  induction us as [|[u now] us IH]; intros s Hsv Hall Hmin Hmax Hpv Hpc.
  { by eexists. }
  apply Forall_cons in Hall as [Hu Hall]. simpl in Hu.
  assert (Htot : 0 ≤ total_increment s us).
  { clear -Hsv Hall. induction Hall as [|[v ?] l Hv _ IHl]; simpl; [lia|].
    destruct v; simpl in *; lia. }
  simpl in Hmax.
  assert (Hnext : ∀ s', m_stepValue s' = m_stepValue s →
     m_current s ≤ m_current s' ≤ m_current s + increment s u →
     m_percentageValue s' = m_percentageValue s →
     0 ≤ m_percentageChecker s' < m_percentageValue s' →
     is_Ok (s'' ← Ok s'; rest ← run th us s''; Ok (s'' :: rest))).
  { intros s' E1 E2 E3 E4. simpl.
    destruct (IH s') as [tr ->]; try lia; try done.
    - assert (total_increment s' us = total_increment s us) as ->; [|lia].
      clear -E1. induction us as [|[v ?] l IHl]; simpl; [done|].
      rewrite IHl. destruct v; simpl; congruence.
    - by eexists. }
  assert (Hstep : ∀ n s0, m_stepValue s0 = m_stepValue s →
     m_current s0 = m_current s → m_percentageValue s0 = m_percentageValue s →
     0 ≤ m_percentageChecker s0 < m_percentageValue s0 →
     0 ≤ n ≤ increment s u →
     is_Ok (s'' ← step th n now s0; rest ← run th us s''; Ok (s'' :: rest))).
  { intros n s0 E1 E2 E3 E4 Hn.
    destruct (step th n now s0) as [s'|e] eqn:E.
    - apply step_Ok in E as (F1 & F2 & F3 & F4 & F5).
      apply Hnext; lia.
    - unfold step, offset_add in E. rewrite offset_in_range in E by lia.
      simpl in E. by case_bool_decide. }
  simpl. destruct u as [n| |]; simpl in *.
  - apply Hstep; (done || lia).
  - unfold step_default. apply Hstep; (done || lia).
  - unfold step_percentage, offset_add.
    rewrite offset_in_range by (unfold OFFSET_MIN in *; lia). simpl.
    unfold offset_rem.
    rewrite (bool_decide_eq_false_2 (m_percentageValue s = 0)) by lia.
    rewrite (bool_decide_eq_false_2 (_ ∧ _)) by (unfold OFFSET_MIN; lia). simpl.
    assert (0 ≤ Z.rem (m_percentageChecker s + 1) (m_percentageValue s) < m_percentageValue s).
    { apply Z.rem_bound_pos; lia. }
    destruct (_ && _).
    + unfold step_default. apply Hstep; simpl; (done || lia).
    + apply Hnext; simpl; (done || lia).
Qed.

(** C6 (amended): on every run that stays clear of undefined behaviour and
    whose [step(n)] calls have [n >= 0], started in a state whose step value
    is non-negative (the constructor, [set_range] and [set_percentage_range]
    all leave it at 1 or more), the successive values of [get_current] are
    non-decreasing. *)
Theorem current_non_decreasing th us : ∀ s trace,
  0 ≤ m_stepValue s →
  Forall (fun u => advances u.1) us →
  run th us s = Ok trace →
  non_decreasing (positions s trace).
Proof.
  induction us as [|[u now] us IH]; intros s trace Hsv Hall Hrun; simpl in Hrun.
  { injection Hrun as <-. apply non_decreasing_singleton. }
  apply Forall_cons in Hall as [Hu Hall]. simpl in Hu.
  destruct (exec th u now s) as [s'|?] eqn:E; [|discriminate]. simpl in Hrun.
  destruct (run th us s') as [rest|?] eqn:R; [|discriminate]. simpl in Hrun.
  injection Hrun as <-.
  apply exec_Ok in E as [Hle Hsv']; [|done|done].
  unfold positions. simpl. apply non_decreasing_cons; [done|].
  apply (IH s' rest); [lia|done|done].
Qed.

(** An indicator in percentage mode: range [0, 100], one percent is 10 units. *)
Definition percent_indicator : progress_indicator_base :=
  mk_progress 0 100 1 0 0 10 100 0 None.

Definition sample_updates : list (update * Z) :=
  [(Step 5, 1); (StepDefault, 2); (StepPercentage, 3); (Step 0, 4)].

Lemma current_non_decreasing_witness :
  ∃ trace, run 0 sample_updates percent_indicator = Ok trace
    ∧ non_decreasing (positions percent_indicator trace).
Proof.
  eexists. split; [vm_compute; reflexivity|].
  apply (current_non_decreasing 0 sample_updates percent_indicator).
  - simpl. lia.
  - repeat constructor; simpl; lia.
  - vm_compute. reflexivity.
Defined.

(** C6 as stated fails: [step(n)] takes a signed offset and adds it
    unchecked, so a negative [n] right after [init] moves the position
    back. *)
Lemma step_negative_moves_back :
  ∃ s0 s s',
    construct EmptyString EmptyString 0 100 1 0 = Ok s0
    ∧ init 100 1 0 s0 = Ok s
    ∧ run 0 [(Step (-1), 0)] s = Ok [s']
    ∧ get_current s = 0 ∧ get_current s' = -1
    ∧ ¬ non_decreasing (positions s [s']).
Proof.
  do 3 eexists. split; [vm_compute; reflexivity|].
  split; [vm_compute; reflexivity|].
  split; [vm_compute; reflexivity|].
  split; [reflexivity|]. split; [reflexivity|].
  intros H. specialize (H 0%nat 1%nat 0 (-1)). simpl in H.
  assert (0 ≤ -1) by (apply H; [lia|reflexivity|reflexivity]). lia.
Qed.

Lemma set_percentage_range_value mn mx unit s s' :
  set_percentage_range mn mx unit s = Ok s' → 1 ≤ m_percentageValue s'.
Proof.
  unfold set_percentage_range.
  destruct (offset_sub _ _) as [d|?]; [|discriminate]. simpl.
  destruct (offset_div _ _) as [v|?]; [|discriminate]. simpl.
  case_bool_decide; intros [= <-]; simpl; lia.
Qed.

(** C9: [step_percentage] reduces the checker modulo [m_percentageValue].
    In a freshly constructed indicator that value is 0 and the call is a
    modulo by zero; in any state whose checker can be incremented, the call
    is a modulo by zero exactly when the value is 0; [set_percentage_range]
    leaves the value at 1 or more. *)
Theorem step_percentage_needs_percentage_value th :
  (∀ title description mn mx sv now s now',
     construct title description mn mx sv now = Ok s →
     m_percentageValue s = 0
     ∧ step_percentage th now' s = Undefined division_by_zero)
  ∧ (∀ now s,
       OFFSET_MIN ≤ m_percentageChecker s + 1 ≤ OFFSET_MAX →
       step_percentage th now s = Undefined division_by_zero
       ↔ m_percentageValue s = 0)
  ∧ (∀ mn mx unit s s',
       set_percentage_range mn mx unit s = Ok s' → 1 ≤ m_percentageValue s').
Proof.
  split; [|split].
  - intros title description mn mx sv now s now'. unfold construct.
    destruct (offset_sub _ _) as [d|?]; [|discriminate]. simpl.
    intros [= <-]. split; reflexivity.
  - intros now s Hc. unfold step_percentage, offset_add.
    rewrite offset_in_range by done. simpl. unfold offset_rem.
    destruct (decide (m_percentageValue s = 0)) as [Hv|Hv].
    { rewrite (bool_decide_eq_true_2 (m_percentageValue s = 0)) by done.
      split; intros; done. }
    rewrite (bool_decide_eq_false_2 (m_percentageValue s = 0)) by done.
    split; [|intros; done]. intros H. exfalso.
    destruct (bool_decide (_ ∧ _)); simpl in H; [discriminate|].
    destruct (_ && _); [|discriminate].
    by apply step_not_division_by_zero in H.
  - apply set_percentage_range_value.
Qed.

Lemma step_percentage_needs_percentage_value_witness :
  step_percentage 0 7 (mk_progress 0 100 1 0 0 0 0 0 None)
  = Undefined division_by_zero.
Proof.
  apply (proj1 (step_percentage_needs_percentage_value 0)
           EmptyString EmptyString 0 100 1 0 _ 7).
  reflexivity.
Defined.

(** C10: [x = y] copies the range bounds, the step value, the current
    position, the three percentage fields and the last-update tick of [y]
    into [x] and leaves the time predictor of [x] as it was; the copy
    constructor takes the predictor of its source as well. *)
Theorem assign_leaves_predictor (x y : progress_indicator_base) :
  m_minRange (assign x y) = m_minRange y
  ∧ m_maxRange (assign x y) = m_maxRange y
  ∧ m_stepValue (assign x y) = m_stepValue y
  ∧ m_current (assign x y) = m_current y
  ∧ m_percentageChecker (assign x y) = m_percentageChecker y
  ∧ m_percentageValue (assign x y) = m_percentageValue y
  ∧ m_percentageUnit (assign x y) = m_percentageUnit y
  ∧ m_lastUpdate (assign x y) = m_lastUpdate y
  ∧ m_predictor (assign x y) = m_predictor x
  ∧ m_predictor (copy_construct y) = m_predictor y.
Proof. repeat split. Qed.

(** *** Ranges and percentage mode *)



(** [set_percentage_range] on bounds whose distance fits the offset type. *)
Lemma set_percentage_range_spec mn mx unit s :
  OFFSET_MIN ≤ mn ≤ OFFSET_MAX → OFFSET_MIN ≤ mx ≤ OFFSET_MAX →
  Z.abs (mx - mn) ≤ OFFSET_MAX →
  ∃ s0,
    set_percentage_range mn mx unit s = Ok s0
    ∧ m_stepValue s0 = 1 ∧ m_percentageChecker s0 = 0
    ∧ 1 ≤ m_percentageValue s0 ≤ OFFSET_MAX
    ∧ m_current s0 = m_minRange s0
    ∧ OFFSET_MIN ≤ m_minRange s0 ∧ m_minRange s0 ≤ m_maxRange s0
    ∧ m_maxRange s0 ≤ OFFSET_MAX.
Proof.
  intros Hmn Hmx Hd. unfold set_percentage_range, offset_sub.
  set (d := Z.max mn mx - Z.min mn mx).
  assert (0 ≤ d ≤ OFFSET_MAX) as Hd' by (unfold d; lia).
  rewrite offset_in_range by (unfold OFFSET_MIN, OFFSET_MAX in *; lia).
  cbn [mbind outcome_bind]. simpl.
  set (u := Z.max (to_ushort unit) 1).
  assert (1 ≤ u < 2 ^ 16) as Hu.
  { unfold u, to_ushort. pose proof (Z.mod_pos_bound unit (2 ^ 16)). lia. }
  unfold offset_div. rewrite bool_decide_eq_false_2 by lia.
  assert (0 ≤ d ÷ u ≤ d) as Hq.
  { rewrite Z.quot_div_nonneg by lia. split.
    - apply Z.div_pos; lia.
    - apply Z.div_le_upper_bound; nia. }
  rewrite offset_in_range by (unfold OFFSET_MIN, OFFSET_MAX in *; lia).
  cbn [mbind outcome_bind]. simpl.
  destruct (decide (d ÷ u > 0)) as [Hv|Hv].
  - rewrite bool_decide_eq_true_2 by done. eexists. split; [done|]. simpl.
    unfold OFFSET_MIN, OFFSET_MAX in *. repeat split; lia.
  - rewrite bool_decide_eq_false_2 by done. eexists. split; [done|]. simpl.
    unfold OFFSET_MIN, OFFSET_MAX in *. repeat split; lia.
Qed.

(** The state after [n] calls of [step_percentage], for a range [lo, hi]
    and a percentage value [v]. *)
Definition after_calls (lo hi v n : Z) (s : progress_indicator_base) : Prop :=
  m_stepValue s = 1 ∧ m_percentageValue s = v ∧ m_maxRange s = hi
  ∧ m_percentageChecker s = n mod v
  ∧ m_current s = Z.min hi (lo + n / v).

Lemma step_percentage_after_calls th lo hi v n now s :
  1 ≤ v ≤ OFFSET_MAX → OFFSET_MIN ≤ lo → lo ≤ hi → hi ≤ OFFSET_MAX → 0 ≤ n →
  after_calls lo hi v n s →
  ∃ s', step_percentage th now s = Ok s' ∧ after_calls lo hi v (n + 1) s'.
Proof.
  intros Hv Hlo Hlh Hhi Hn (Hstep & Hval & Hmax & Hchk & Hcur).
  pose proof (Z.mod_pos_bound n v ltac:(lia)) as Hmod.
  assert (0 ≤ n / v) as Hdiv by (apply Z.div_pos; lia).
  unfold step_percentage, offset_add.
  rewrite offset_in_range by (unfold OFFSET_MIN, OFFSET_MAX in *; lia).
  cbn [mbind outcome_bind]. unfold offset_rem. rewrite Hval.
  rewrite (bool_decide_eq_false_2 (v = 0)) by lia.
  rewrite (bool_decide_eq_false_2 (_ ∧ _)) by lia.
  cbn [mbind outcome_bind].
  assert (Z.rem (m_percentageChecker s + 1) v = (n + 1) mod v) as Hrem.
  { rewrite Z.rem_mod_nonneg by lia. rewrite Hchk.
    by rewrite Zplus_mod_idemp_l. }
  rewrite Hrem. simpl.
  assert (Hnext : n + 1 = v * ((n + 1) / v) + (n + 1) mod v)
    by (apply Z.div_mod; lia).
  assert (Hthis : n = v * (n / v) + n mod v) by (apply Z.div_mod; lia).
  pose proof (Z.mod_pos_bound (n + 1) v ltac:(lia)) as Hmod'.
  destruct (decide ((n + 1) mod v = 0)) as [Hz|Hz].
  - assert ((n + 1) / v = n / v + 1) as Hq by nia.
    rewrite (bool_decide_eq_true_2 (_ = 0)) by done. cbn [andb].
    destruct (decide (m_current s < m_maxRange s)) as [Hlt|Hge].
    + rewrite bool_decide_eq_true_2 by done.
      unfold step_default, step, offset_add. simpl. rewrite Hstep.
      rewrite offset_in_range by (unfold OFFSET_MIN, OFFSET_MAX in *; lia).
      cbn [mbind outcome_bind]. simpl.
      case_bool_decide; eexists; (split; [done|]);
        unfold after_calls, refresh; simpl; rewrite Hq;
        repeat split; try done; lia.
    + rewrite bool_decide_eq_false_2 by done. eexists. split; [done|].
      unfold after_calls. simpl. rewrite Hq. repeat split; try done; lia.
  - assert ((n + 1) / v = n / v) as Hq by nia.
    rewrite (bool_decide_eq_false_2 (_ = 0)) by done. cbn [andb].
    eexists. split; [done|].
    unfold after_calls. simpl. rewrite Hq. repeat split; try done; lia.
Qed.

Lemma run_step_percentage th lo hi v us : ∀ n s,
  1 ≤ v ≤ OFFSET_MAX → OFFSET_MIN ≤ lo → lo ≤ hi → hi ≤ OFFSET_MAX → 0 ≤ n →
  Forall (fun u => u.1 = StepPercentage) us →
  after_calls lo hi v n s →
  ∃ trace,
    run th us s = Ok trace
    ∧ ∀ i si, trace !! i = Some si →
        after_calls lo hi v (n + Z.of_nat i + 1) si.
Proof.
  induction us as [|[u now] us IH]; intros n s Hv Hlo Hlh Hhi Hn Hus Hs.
  { exists []. split; [done|]. intros i si Hi. done. }
  apply Forall_cons in Hus as [Hu Hus]. simpl in Hu. subst u.
  destruct (step_percentage_after_calls th lo hi v n now s)
    as (s' & Hstep & Hs'); try done.
  destruct (IH (n + 1) s') as (trace & Hrun & Htrace); try done; [lia|].
  exists (s' :: trace). split.
  { cbn [run exec]. rewrite Hstep. cbn [mbind outcome_bind].
    rewrite Hrun. done. }
  intros [|i] si Hi; simpl in Hi.
  - injection Hi as <-.
    by replace (n + Z.of_nat 0 + 1) with (n + 1) by lia.
  - replace (n + Z.of_nat (S i) + 1) with (n + 1 + Z.of_nat i + 1) by lia.
    by apply Htrace.
Qed.

(** X10: in percentage mode the indicator cannot run past the end of its
    range. After [set_percentage_range] on offsets whose distance fits the
    offset type, any number of [step_percentage] calls is defined, and
    after the [n]-th call the position is the lower bound plus
    [n / m_percentageValue], capped at the upper bound. *)
Theorem percentage_mode_position th mn mx unit s us :
  OFFSET_MIN ≤ mn ≤ OFFSET_MAX → OFFSET_MIN ≤ mx ≤ OFFSET_MAX →
  Z.abs (mx - mn) ≤ OFFSET_MAX →
  Forall (fun u => u.1 = StepPercentage) us →
  ∃ s0 trace,
    set_percentage_range mn mx unit s = Ok s0
    ∧ run th us s0 = Ok trace
    ∧ ∀ (i : nat) si, trace !! i = Some si →
        m_current si
        = Z.min (m_maxRange s0)
            (m_minRange s0 + (Z.of_nat i + 1) / m_percentageValue s0)
        ∧ m_minRange s0 ≤ m_current si ≤ m_maxRange s0.
Proof.
  intros Hmn Hmx Hd Hus.
  destruct (set_percentage_range_spec mn mx unit s Hmn Hmx Hd)
    as (s0 & Hset & Hstep & Hchk & Hval & Hcur & Hlo & Hlh & Hhi).
  destruct (run_step_percentage th (m_minRange s0) (m_maxRange s0)
              (m_percentageValue s0) us 0 s0) as (trace & Hrun & Htrace);
    try done.
  { unfold after_calls. rewrite Z.mod_0_l, Z.div_0_l by lia.
    repeat split; try done. lia. }
  exists s0, trace. split; [done|]. split; [done|].
  intros i si Hi. destruct (Htrace i si Hi) as (_ & _ & _ & _ & Hc).
  replace (0 + Z.of_nat i + 1) with (Z.of_nat i + 1) in Hc by lia.
  rewrite Hc.
  assert (0 ≤ (Z.of_nat i + 1) / m_percentageValue s0)
    by (apply Z.div_pos; lia).
  split; [done|lia].
Qed.


Lemma percentage_mode_position_witness :
  ∃ s0 trace,
    set_percentage_range 0 1000 100 percent_indicator = Ok s0
    ∧ run 0 [(StepPercentage, 1); (StepPercentage, 2); (StepPercentage, 3)]
        s0 = Ok trace.
Proof.
  destruct (percentage_mode_position 0 0 1000 100 percent_indicator
              [(StepPercentage, 1); (StepPercentage, 2); (StepPercentage, 3)])
    as (s0 & trace & Hset & Hrun & _).
  - unfold OFFSET_MIN, OFFSET_MAX. lia.
  - unfold OFFSET_MIN, OFFSET_MAX. lia.
  - unfold OFFSET_MAX. lia.
  - repeat constructor.
  - exists s0, trace. split; [exact Hset|exact Hrun].
Defined.

End ProgressIndicator.

(** ** LRU cache manager (ami_cache_lru.h) *)

Module CacheLRU.

Local Open Scope nat_scope.

(** Modelled from the spec: [TPIE_OS_OFFSET] and [TPIE_OS_SIZE_T] are
    declared in portability.h, which is not among the sources; keys are
    64-bit integers and sizes are [size_t]. In [k % sets_] the usual
    arithmetic conversions turn the signed key into a [TPIE_OS_SIZE_T]. *)
Definition to_size_t (k : Z) : Z := (k mod 2 ^ 64)%Z.

Section Cache.

(** The value type [T]; [T_default] is the value a default-constructed
    [T] holds, as [new item_type_[capacity_]] leaves it in every slot. *)
Context {T : Type}.
Variable T_default : T.

(** [pair<TPIE_OS_OFFSET, T>]. *)
Definition item_type_ : Type := Z * T.

(** Modelled from the spec: [b_vector] (b_vector.h) is not among the
    sources. It is a view of [capacity] consecutive items of an array it
    does not own, starting at item [p_]; [operator[]] indexes the array
    itself; [insert] puts an item at a position and slides the items from
    there on one position toward the end, the last one being lost; [erase]
    slides the items after a position one position toward the front and
    leaves the last slot as it was. *)
Record b_vector : Type := mk_b_vector { p_ : nat; capacity : nat }.

Definition items (store : list item_type_) (v : b_vector) : list item_type_ :=
  take (capacity v) (drop (p_ v) store).

Definition put_items (store : list item_type_) (v : b_vector)
    (new : list item_type_) : list item_type_ :=
  take (p_ v) store ++ new ++ drop (p_ v + capacity v) store.

Definition at_ (store : list item_type_) (v : b_vector) (pos : nat)
    : outcome item_type_ :=
  match store !! (p_ v + pos) with
  | Some x => Ok x
  | None => Undefined out_of_bounds
  end.

Definition assign_at (store : list item_type_) (v : b_vector) (pos : nat)
    (x : item_type_) : outcome (list item_type_) :=
  _ ← at_ store v pos;
  Ok (<[p_ v + pos := x]> store).

(** [set[pos].first = key]. *)
Definition assign_first (store : list item_type_) (v : b_vector) (pos : nat)
    (key : Z) : outcome (list item_type_) :=
  x ← at_ store v pos;
  Ok (<[p_ v + pos := (key, x.2)]> store).

(** Modelled from the spec: [b_vector::insert], which slides the items
    from [pos] on toward the end to make room for [t]. *)
Definition b_insert (store : list item_type_) (v : b_vector)
    (t : item_type_) (pos : nat) : list item_type_ :=
  if bool_decide (pos < capacity v) then
    let old := items store v in
    put_items store v
      (take pos old ++ t :: take (capacity v - pos - 1) (drop pos old))
  else store.

(** Modelled from the spec: [b_vector::erase], which slides the items
    after [pos] over the one erased. *)
Definition b_erase (store : list item_type_) (v : b_vector) (pos : nat)
    : list item_type_ :=
  if bool_decide (pos < capacity v) then
    let old := items store v in
    put_items store v
      (take pos old ++ drop (S pos) old ++ drop (capacity v - 1) old)
  else store.

(** Modelled from the spec: [cache_manager_base] is not among the sources;
    it holds the capacity and the associativity its constructor is given.
    [pdata_] is the array of items ([NULL], here the empty list, when the
    capacity is 0). *)
Record cache_manager_lru : Type := mk_cache {
  capacity_ : nat;
  assoc_ : nat;
  sets_ : nat;
  pdata_ : list item_type_
}.

Definition with_pdata (c : cache_manager_lru) (store : list item_type_) :=
  mk_cache (capacity_ c) (assoc_ c) (sets_ c) store.

(** The constructor [cache_manager_lru(capacity, assoc = 0)]. *)
Definition construct (capacity assoc : nat) : cache_manager_lru :=
  let capacity_ := capacity in
  let assoc_ := if bool_decide (assoc = 0) then capacity else assoc in
  if bool_decide (capacity_ ≠ 0) then
    let assoc_ := if bool_decide (capacity_ < assoc_) then capacity_ else assoc_ in
    let capacity_ :=
      if bool_decide (capacity_ mod assoc_ ≠ 0)
      then (capacity_ / assoc_) * assoc_ else capacity_ in
    let sets_ := capacity_ / assoc_ in
    mk_cache capacity_ assoc_ sets_ (replicate capacity_ (0%Z, T_default))
  else
    mk_cache capacity_ assoc_ 0 [].

(** [k % sets_], undefined when [sets_] is 0. *)
Definition set_index (k : Z) (c : cache_manager_lru) : outcome nat :=
  if bool_decide (sets_ c = 0) then Undefined division_by_zero
  else Ok (Z.to_nat (to_size_t k mod Z.of_nat (sets_ c))).

(** The cache line of key [k]:
    [b_vector<item_type_> set(&pdata_[(k % sets_) * assoc_], assoc_)]. *)
Definition cache_line (k : Z) (c : cache_manager_lru) : outcome b_vector :=
  s ← set_index k c;
  Ok (mk_b_vector (s * assoc_ c) (assoc_ c)).

(** [for (i = 0; i < n; i++) if (set[i].first == k) break;] started at [i]
    with [n - i] iterations left; returns the final [i]. *)
Fixpoint find_key (store : list item_type_) (set : b_vector) (k : Z)
    (i left : nat) : outcome nat :=
  match left with
  | 0 => Ok i
  | S left' =>
      x ← at_ store set i;
      if bool_decide (x.1 = k) then Ok i
      else find_key store set k (S i) left'
  end.

(** The operations return their C++ result, the cache afterwards and the
    values the write-out functor was called with, in order. [read] returns
    [Some item] for [true] with the item stored through the reference, and
    [None] for [false]. [assert(k != 0)] is checked. *)
Definition read (k : Z) (c : cache_manager_lru)
    : outcome (option T * cache_manager_lru * list T) :=
  if bool_decide (capacity_ c = 0) then Ok (None, c, [])
  else if bool_decide (k = 0%Z) then Undefined assertion_failed
  else
    set ← cache_line k c;
    i ← find_key (pdata_ c) set k 0 (assoc_ c);
    if bool_decide (i = assoc_ c) then Ok (None, c, [])
    else
      x ← at_ (pdata_ c) set i;
      let store := if bool_decide (1 < assoc_ c)
                   then b_erase (pdata_ c) set i else pdata_ c in
      store ← assign_first store set (assoc_ c - 1) 0%Z;
      Ok (Some x.2, with_pdata c store, []).

Definition write (k : Z) (item : T) (c : cache_manager_lru)
    : outcome (bool * cache_manager_lru * list T) :=
  if bool_decide (k = 0%Z) then Undefined assertion_failed
  else if bool_decide (capacity_ c = 0) then Ok (true, c, [item])
  else
    set ← cache_line k c;
    last ← at_ (pdata_ c) set (assoc_ c - 1);
    let out := if bool_decide (last.1 ≠ 0%Z) then [last.2] else [] in
    store ← (if bool_decide (1 < assoc_ c)
             then Ok (b_insert (pdata_ c) set (k, item) 0)
             else assign_at (pdata_ c) set 0 (k, item));
    Ok (true, with_pdata c store, out).

Definition erase (k : Z) (c : cache_manager_lru)
    : outcome (bool * cache_manager_lru * list T) :=
  if bool_decide (k = 0%Z) then Undefined assertion_failed
  else
    set ← cache_line k c;
    i ← find_key (pdata_ c) set k 0 (capacity set);
    if bool_decide (i = capacity set) then Ok (false, c, [])
    else
      x ← at_ (pdata_ c) set i;
      let store := b_erase (pdata_ c) set i in
      store ← assign_first store set (capacity set - 1) 0%Z;
      Ok (true, with_pdata c store, [x.2]).

(** [for (i = 0; i < capacity_; i++)] of [flush], started at [i] with
    [left] iterations to go; [out] collects the values written out. *)
Fixpoint flush_loop (store : list item_type_) (out : list T) (i left : nat)
    : outcome (list item_type_ * list T) :=
  match left with
  | 0 => Ok (store, out)
  | S left' =>
      match store !! i with
      | None => Undefined out_of_bounds
      | Some x =>
          if bool_decide (x.1 ≠ 0%Z)
          then flush_loop (<[i := (0%Z, x.2)]> store) (out ++ [x.2]) (S i) left'
          else flush_loop store out (S i) left'
      end
  end.

Definition flush (c : cache_manager_lru)
    : outcome (cache_manager_lru * list T) :=
  r ← flush_loop (pdata_ c) [] 0 (capacity_ c);
  Ok (with_pdata c r.1, r.2).

(** A client's operations and their sequential execution. *)
Inductive operation : Type :=
  | Read (k : Z)
  | Write (k : Z) (item : T)
  | Erase (k : Z)
  | Flush.

Definition exec (o : operation) (c : cache_manager_lru)
    : outcome (cache_manager_lru * list T) :=
  match o with
  | Read k => r ← read k c; Ok (r.1.2, r.2)
  | Write k item => r ← write k item c; Ok (r.1.2, r.2)
  | Erase k => r ← erase k c; Ok (r.1.2, r.2)
  | Flush => flush c
  end.

(** Runs the operations in order; the log is the sequence of all values
    handed to the write-out functor. *)
Fixpoint run (os : list operation) (c : cache_manager_lru)
    : outcome (cache_manager_lru * list T) :=
  match os with
  | [] => Ok (c, [])
  | o :: os' =>
      r ← exec o c;
      r' ← run os' r.1;
      Ok (r'.1, r.2 ++ r'.2)
  end.

End Cache.

(** *** Properties of the cache manager *)

Section CacheProperties.

Context {T : Type}.
Implicit Types (c : @cache_manager_lru T) (store pre old post : list (@item_type_ T)).
Implicit Types (k : Z) (set : b_vector).

(** What the constructor establishes and every operation keeps. *)
Definition wf c : Prop :=
  capacity_ c = sets_ c * assoc_ c
  ∧ length (pdata_ c) = capacity_ c
  ∧ (capacity_ c ≠ 0 → 0 < assoc_ c)
  ∧ (capacity_ c = 0 → sets_ c = 0).

(** The set a key belongs to, and the slots of that set, slot 0 first. *)
Definition set_of k c : nat := Z.to_nat (to_size_t k mod Z.of_nat (sets_ c)).

Definition line k c : list item_type_ :=
  take (assoc_ c) (drop (set_of k c * assoc_ c) (pdata_ c)).

Definition has_key k (x : @item_type_ T) : Prop := x.1 = k.
Definition occupied (x : @item_type_ T) : Prop := x.1 ≠ 0%Z.

#[local] Instance has_key_dec k x : Decision (has_key k x).
Proof. unfold has_key. apply _. Defined.
#[local] Instance occupied_dec x : Decision (occupied x).
Proof. unfold occupied. apply _. Defined.

(** The value held by the last slot of a set. *)
Definition last_value (d : T) old : T :=
  match last old with Some x => x.2 | None => d end.

Lemma construct_wf (d : T) capacity assoc : wf (construct d capacity assoc).
Proof.
  unfold construct, wf.
  destruct (decide (capacity = 0)) as [->|Hc].
  { rewrite bool_decide_eq_false_2 by lia. simpl. repeat split; lia. }
  rewrite (bool_decide_eq_true_2 (capacity ≠ 0)) by done.
  set (a := if bool_decide (assoc = 0) then capacity else assoc).
  set (a' := if bool_decide (capacity < a) then capacity else a).
  assert (0 < a' ≤ capacity) as Ha'.
  { unfold a', a. repeat case_bool_decide; lia. }
  assert (capacity `div` a' * a' ≤ capacity) as Hle.
  { rewrite Nat.mul_comm. apply Nat.Div0.mul_div_le. }
  assert (1 ≤ capacity `div` a') as Hq.
  { apply Nat.div_le_lower_bound; lia. }
  case_bool_decide as Hm; simpl; rewrite length_replicate.
  - rewrite Nat.div_mul by lia. repeat split; nia.
  - assert (capacity `mod` a' = 0) as Hm' by lia.
    apply Nat.Div0.div_exact in Hm'. repeat split; nia.
Qed.

Lemma set_of_lt k c : sets_ c ≠ 0 → set_of k c < sets_ c.
Proof.
  intros Hs. unfold set_of.
  pose proof (Z.mod_pos_bound (to_size_t k) (Z.of_nat (sets_ c))). lia.
Qed.

(** For a key that is not negative the set is [k mod S]. *)
Lemma set_of_nonneg k c :
  (0 ≤ k < 2 ^ 64)%Z → set_of k c = Z.to_nat (k mod Z.of_nat (sets_ c)).
Proof.
  intros Hk. unfold set_of, to_size_t. by rewrite (Z.mod_small k) by done.
Qed.

Lemma cache_line_Ok k c :
  sets_ c ≠ 0 → cache_line k c = Ok (mk_b_vector (set_of k c * assoc_ c) (assoc_ c)).
Proof.
  intros Hs. unfold cache_line, set_index.
  rewrite bool_decide_eq_false_2 by done. reflexivity.
Qed.

Lemma wf_sets c : wf c → capacity_ c ≠ 0 → sets_ c ≠ 0 ∧ 0 < assoc_ c.
Proof. intros (H1 & H2 & H3 & H4) Hc. split; [nia|auto]. Qed.

(** The array is the slots before the set, the set, and the slots after. *)
Lemma line_split k c :
  wf c → capacity_ c ≠ 0 →
  ∃ pre post,
    pdata_ c = pre ++ line k c ++ post
    ∧ length pre = set_of k c * assoc_ c
    ∧ length (line k c) = assoc_ c.
Proof.
  intros Hwf Hc. destruct (wf_sets c Hwf Hc) as [Hs Ha].
  destruct Hwf as (H1 & H2 & _).
  pose proof (set_of_lt k c Hs) as Hlt.
  exists (take (set_of k c * assoc_ c) (pdata_ c)),
         (drop (assoc_ c) (drop (set_of k c * assoc_ c) (pdata_ c))).
  unfold line. rewrite take_drop, take_drop.
  rewrite !length_take, length_drop. repeat split; nia.
Qed.

(** A set [old] inside the array [pre ++ old ++ post], seen through the
    view [set]. *)
Definition frames pre old set : Prop :=
  length pre = p_ set ∧ length old = capacity set.

Lemma items_line pre old post set :
  frames pre old set → items (pre ++ old ++ post) set = old.
Proof.
  intros [Hpre Hold]. unfold items. rewrite <- Hpre, drop_app_length.
  rewrite <- Hold. apply take_app_length.
Qed.

Lemma put_items_line pre old post set new :
  frames pre old set →
  put_items (pre ++ old ++ post) set new = pre ++ new ++ post.
Proof.
  intros [Hpre Hold]. unfold put_items. rewrite <- Hpre, take_app_length.
  rewrite <- Hold, <- drop_drop, drop_app_length, drop_app_length. done.
Qed.

Lemma at_line pre old post set i x :
  frames pre old set →
  old !! i = Some x → at_ (pre ++ old ++ post) set i = Ok x.
Proof.
  intros [Hpre Hold] Hi. unfold at_. rewrite <- Hpre.
  rewrite lookup_app_r by lia.
  replace (length pre + i - length pre) with i by lia.
  by rewrite (lookup_app_l_Some _ _ _ _ Hi).
Qed.

Lemma insert_line pre old post set i x :
  frames pre old set →
  i < length old →
  <[p_ set + i := x]> (pre ++ old ++ post) = pre ++ <[i := x]> old ++ post.
Proof.
  intros [Hpre Hold] Hi. rewrite <- Hpre, insert_app_r. by rewrite insert_app_l.
Qed.

Lemma assign_first_line pre old post set i x key :
  frames pre old set →
  old !! i = Some x →
  assign_first (pre ++ old ++ post) set i key
  = Ok (pre ++ <[i := (key, x.2)]> old ++ post).
Proof.
  intros Hfr Hi. unfold assign_first. rewrite (at_line _ _ _ _ i x Hfr Hi). simpl.
  rewrite insert_line; [done|done|]. by eapply lookup_lt_Some.
Qed.

Lemma find_key_line pre old post set k left : ∀ i,
  frames pre old set →
  i + left = length old →
  find_key (pre ++ old ++ post) set k i left
  = Ok (match list_find (has_key k) (drop i old) with
        | Some (j, _) => i + j
        | None => length old
        end).
Proof.
  induction left as [|left IH]; intros i Hfr Hi; simpl.
  { rewrite drop_ge by lia. simpl. f_equal. lia. }
  destruct (old !! i) as [x|] eqn:Hx.
  2:{ apply lookup_ge_None in Hx. lia. }
  rewrite (at_line _ _ _ _ i x Hfr Hx). simpl.
  rewrite (drop_S _ _ _ Hx). simpl.
  unfold has_key at 1. destruct (decide (x.1 = k)) as [Hk|Hk].
  - rewrite bool_decide_eq_true_2 by done. simpl. f_equal. lia.
  - rewrite bool_decide_eq_false_2 by done.
    rewrite IH by (done || lia).
    destruct (list_find (has_key k) (drop (S i) old)) as [[j y]|]; simpl; f_equal; lia.
Qed.

(** The cache with the slots of the set of [k] replaced by [new]. *)
Definition replace_line k c (new : list item_type_) : cache_manager_lru :=
  with_pdata c
    (put_items (pdata_ c) (mk_b_vector (set_of k c * assoc_ c) (assoc_ c)) new).

(** A set after the removal of slot [i]: the later slots move one position
    toward the front and the trailing slot is marked empty. *)
Definition remove_slot (i : nat) (d : T) old : list item_type_ :=
  delete i old ++ [(0%Z, last_value d old)].

(** A set after an insertion in front: the former slots move one position
    toward the end and the last one is dropped. *)
Definition push_front (x : @item_type_ T) old : list item_type_ :=
  x :: take (length old - 1) old.

(** What the write-out functor receives when a set takes a new item. *)
Definition displaced old : list T :=
  match last old with
  | Some y => if bool_decide (occupied y) then [y.2] else []
  | None => []
  end.

Lemma drop_last old y : last old = Some y → drop (length old - 1) old = [y].
Proof.
  intros [l' ->]%last_Some. rewrite length_app. simpl.
  replace (length l' + 1 - 1) with (length l') by lia.
  apply drop_app_length.
Qed.

Lemma last_exists old : 0 < length old → ∃ y, last old = Some y.
Proof.
  intros H. destruct (last old) eqn:E; [by eexists|].
  apply last_None in E. subst. simpl in H. lia.
Qed.

Lemma erase_then_mark old i x y (d : T) :
  old !! i = Some x → last old = Some y →
  <[length old - 1 := (0%Z, y.2)]>
    (take i old ++ drop (S i) old ++ drop (length old - 1) old)
  = remove_slot i d old.
Proof.
  intros Hi Hy. unfold remove_slot, last_value. rewrite Hy.
  rewrite (drop_last old y Hy), app_assoc, <- delete_take_drop.
  pose proof (lookup_lt_Some _ _ _ Hi) as Hlt.
  assert (length (delete i old) = length old - 1) as Hlen.
  { rewrite length_delete by eauto. lia. }
  rewrite <- Hlen. rewrite <- (Nat.add_0_r (length (delete i old))).
  by rewrite insert_app_r.
Qed.

Lemma read_line k c :
  wf c → capacity_ c ≠ 0 → k ≠ 0%Z →
  read k c = Ok
    match list_find (has_key k) (line k c) with
    | None => (None, c, [])
    | Some (i, x) =>
        (Some x.2, replace_line k c (remove_slot i x.2 (line k c)), [])
    end.
Proof.
  intros Hwf Hc Hk. destruct (wf_sets c Hwf Hc) as [Hs Ha].
  destruct (line_split k c Hwf Hc) as (pre & post & Hsplit & Hpre & Hold).
  assert (frames pre (line k c) (mk_b_vector (set_of k c * assoc_ c) (assoc_ c)))
    as Hfr by done.
  unfold read, replace_line.
  rewrite bool_decide_eq_false_2 by done.
  rewrite bool_decide_eq_false_2 by done.
  rewrite cache_line_Ok by done. simpl.
  set (set := mk_b_vector _ _). rewrite Hsplit.
  rewrite (find_key_line pre (line k c) post set k (assoc_ c) 0 Hfr) by (simpl; lia).
  simpl. rewrite drop_0.
  destruct (list_find (has_key k) (line k c)) as [[i x]|] eqn:Hfind; simpl.
  2:{ rewrite Hold. by rewrite bool_decide_eq_true_2. }
  apply list_find_Some in Hfind as (Hi & _ & _).
  pose proof (lookup_lt_Some _ _ _ Hi) as Hlt.
  rewrite bool_decide_eq_false_2 by lia.
  rewrite (at_line pre (line k c) post set i x Hfr Hi). simpl.
  destruct (last_exists (line k c)) as [y Hy]; [lia|].
  rewrite (put_items_line pre (line k c) post set _ Hfr).
  case_bool_decide as Hassoc.
  - unfold b_erase. rewrite bool_decide_eq_true_2 by (simpl; lia).
    rewrite (items_line pre (line k c) post set Hfr).
    rewrite (put_items_line pre (line k c) post set _ Hfr).
    simpl. rewrite <- Hold.
    set (new := take i _ ++ _).
    assert (length new = length (line k c)) as Hnew.
    { unfold new. rewrite !length_app, length_take, !length_drop. lia. }
    assert (new !! (length (line k c) - 1) = Some y) as Hlast.
    { unfold new. rewrite app_assoc, lookup_app_r;
        rewrite length_app, length_take, length_drop; [|lia].
      rewrite (drop_last _ y Hy).
      replace (_ - _) with 0 by lia. done. }
    rewrite (assign_first_line pre new post set _ y 0%Z) by (done || (split; [done|simpl; lia])).
    simpl.
    unfold new. by rewrite (erase_then_mark _ i x y x.2 Hi Hy).
  - assert (assoc_ c = 1) as Hone by lia.
    assert (i = 0) as -> by lia.
    destruct (line k c) as [|x' [|? ?]] eqn:Hline; simpl in Hold; try lia.
    simpl in Hi. injection Hi as ->. rewrite Hone. simpl.
    change (pre ++ x :: post) with (pre ++ [x] ++ post).
    rewrite (assign_first_line pre [x] post set 0 x 0%Z) by done. simpl.
    done.
Qed.

Lemma erase_line k c :
  wf c → capacity_ c ≠ 0 → k ≠ 0%Z →
  erase k c = Ok
    match list_find (has_key k) (line k c) with
    | None => (false, c, [])
    | Some (i, x) =>
        (true, replace_line k c (remove_slot i x.2 (line k c)), [x.2])
    end.
Proof.
  intros Hwf Hc Hk. destruct (wf_sets c Hwf Hc) as [Hs Ha].
  destruct (line_split k c Hwf Hc) as (pre & post & Hsplit & Hpre & Hold).
  assert (frames pre (line k c) (mk_b_vector (set_of k c * assoc_ c) (assoc_ c)))
    as Hfr by done.
  unfold erase, replace_line.
  rewrite bool_decide_eq_false_2 by done.
  rewrite cache_line_Ok by done. simpl.
  set (set := mk_b_vector _ _). rewrite Hsplit.
  rewrite (find_key_line pre (line k c) post set k (assoc_ c) 0 Hfr) by (simpl; lia).
  simpl. rewrite drop_0.
  destruct (list_find (has_key k) (line k c)) as [[i x]|] eqn:Hfind; simpl.
  2:{ rewrite Hold. by rewrite bool_decide_eq_true_2. }
  apply list_find_Some in Hfind as (Hi & _ & _).
  pose proof (lookup_lt_Some _ _ _ Hi) as Hlt.
  rewrite bool_decide_eq_false_2 by lia.
  rewrite (at_line pre (line k c) post set i x Hfr Hi). simpl.
  destruct (last_exists (line k c)) as [y Hy]; [lia|].
  rewrite (put_items_line pre (line k c) post set _ Hfr).
  unfold b_erase. rewrite bool_decide_eq_true_2 by (simpl; lia).
  rewrite (items_line pre (line k c) post set Hfr).
  rewrite (put_items_line pre (line k c) post set _ Hfr).
  simpl. rewrite <- Hold.
  set (new := take i _ ++ _).
  assert (length new = length (line k c)) as Hnew.
  { unfold new. rewrite !length_app, length_take, !length_drop. lia. }
  assert (new !! (length (line k c) - 1) = Some y) as Hlast.
  { unfold new. rewrite app_assoc, lookup_app_r;
      rewrite length_app, length_take, length_drop; [|lia].
    rewrite (drop_last _ y Hy).
    replace (_ - _) with 0 by lia. done. }
  rewrite (assign_first_line pre new post set _ y 0%Z) by (done || (split; [done|simpl; lia])).
  simpl.
  unfold new. by rewrite (erase_then_mark _ i x y x.2 Hi Hy).
Qed.

Lemma write_line k (v : T) c :
  wf c → capacity_ c ≠ 0 → k ≠ 0%Z →
  write k v c
  = Ok (true, replace_line k c (push_front (k, v) (line k c)), displaced (line k c)).
Proof.
  intros Hwf Hc Hk. destruct (wf_sets c Hwf Hc) as [Hs Ha].
  destruct (line_split k c Hwf Hc) as (pre & post & Hsplit & Hpre & Hold).
  assert (frames pre (line k c) (mk_b_vector (set_of k c * assoc_ c) (assoc_ c)))
    as Hfr by done.
  unfold write, replace_line, displaced, push_front.
  rewrite bool_decide_eq_false_2 by done.
  rewrite bool_decide_eq_false_2 by done.
  rewrite cache_line_Ok by done. simpl.
  set (set := mk_b_vector _ _).
  destruct (last_exists (line k c)) as [y Hy]; [lia|]. rewrite Hy.
  assert (line k c !! (assoc_ c - 1) = Some y) as Hlast.
  { rewrite last_lookup in Hy. rewrite <- Hold.
    by replace (length (line k c) - 1) with (pred (length (line k c))) by lia. }
  rewrite Hsplit at 1.
  rewrite (at_line pre (line k c) post set _ y Hfr Hlast). simpl.
  rewrite Hsplit at 3.
  rewrite (put_items_line pre (line k c) post set _ Hfr).
  destruct (decide (1 < assoc_ c)) as [Hassoc|Hassoc].
  - rewrite (bool_decide_eq_true_2 (1 < assoc_ c)) by done. simpl.
    unfold b_insert. rewrite bool_decide_eq_true_2 by (simpl; lia).
    rewrite Hsplit.
    rewrite (items_line pre (line k c) post set Hfr).
    rewrite (put_items_line pre (line k c) post set _ Hfr).
    simpl. rewrite drop_0, Hold.
    replace (assoc_ c - 0 - 1) with (assoc_ c - 1) by lia. done.
  - rewrite (bool_decide_eq_false_2 (1 < assoc_ c)) by done.
    assert (assoc_ c = 1) as Hone by lia.
    destruct (line k c) as [|x' [|? ?]] eqn:Hline; simpl in Hold; try lia.
    rewrite Hsplit. unfold assign_at.
    rewrite (at_line pre [x'] post set 0 x') by done. simpl.
    rewrite (insert_line pre [x'] post set 0) by (done || (simpl; lia)).
    done.
Qed.

Lemma replace_line_pdata k c new pre post :
  pdata_ c = pre ++ line k c ++ post →
  length pre = set_of k c * assoc_ c →
  length (line k c) = assoc_ c →
  pdata_ (replace_line k c new) = pre ++ new ++ post.
Proof.
  intros Hsplit Hpre Hold. unfold replace_line. simpl. rewrite Hsplit.
  by apply put_items_line.
Qed.

Lemma replace_line_line k c new :
  wf c → capacity_ c ≠ 0 → length new = assoc_ c →
  line k (replace_line k c new) = new.
Proof.
  intros Hwf Hc Hnew.
  destruct (line_split k c Hwf Hc) as (pre & post & Hsplit & Hpre & Hold).
  unfold line at 1.
  rewrite (replace_line_pdata k c new pre post Hsplit Hpre Hold).
  change (set_of k (replace_line k c new)) with (set_of k c).
  change (assoc_ (replace_line k c new)) with (assoc_ c).
  rewrite <- Hpre, drop_app_length, <- Hnew. apply take_app_length.
Qed.

Lemma replace_line_wf k c new :
  wf c → capacity_ c ≠ 0 → length new = assoc_ c → wf (replace_line k c new).
Proof.
  intros Hwf Hc Hnew.
  destruct (line_split k c Hwf Hc) as (pre & post & Hsplit & Hpre & Hold).
  pose proof Hwf as (H1 & H2 & H3 & H4).
  unfold wf. rewrite (replace_line_pdata k c new pre post Hsplit Hpre Hold).
  simpl. repeat split; try done.
  rewrite <- H2, Hsplit, !length_app. lia.
Qed.

Lemma remove_slot_length i (d : T) old :
  i < length old → length (remove_slot i d old) = length old.
Proof.
  intros Hi. unfold remove_slot. rewrite length_app, length_delete.
  - simpl. lia.
  - by apply lookup_lt_is_Some.
Qed.

Lemma push_front_length (x : @item_type_ T) old :
  0 < length old → length (push_front x old) = length old.
Proof. intros H. unfold push_front. simpl. rewrite length_take. lia. Qed.

(** [flush] visits the slots in order: the array is [done ++ todo] when
    the loop reaches slot [length done]. *)
Definition cleared (x : @item_type_ T) : item_type_ := (0%Z, x.2).

Lemma flush_loop_spec (todo : list (@item_type_ T)) : ∀ done out,
  flush_loop (done ++ todo) out (length done) (length todo)
  = Ok (done ++ (cleared <$> todo), out ++ (snd <$> filter occupied todo)).
Proof.
  induction todo as [|x todo IH]; intros done out; simpl.
  { by rewrite !app_nil_r. }
  rewrite list_lookup_middle by done.
  specialize (IH (done ++ [cleared x])).
  rewrite length_app in IH. simpl in IH.
  replace (length done + 1) with (S (length done)) in IH by lia.
  rewrite filter_cons. unfold occupied at 1.
  destruct (decide (x.1 ≠ 0%Z)) as [Hx|Hx].
  - rewrite bool_decide_eq_true_2 by done.
    rewrite <- (Nat.add_0_r (length done)) at 1.
    rewrite insert_app_r. simpl.
    change ((0%Z, x.2) :: todo) with ([cleared x] ++ todo).
    rewrite app_assoc, IH, <- !app_assoc. done.
  - rewrite bool_decide_eq_false_2 by done.
    assert (x = cleared x) as Hcl.
    { unfold cleared. destruct x as [key v]. simpl in *. f_equal. lia. }
    rewrite Hcl at 1.
    change (cleared x :: todo) with ([cleared x] ++ todo).
    rewrite app_assoc, IH, <- !app_assoc. done.
Qed.

Lemma flush_spec c :
  wf c →
  flush c = Ok (with_pdata c (cleared <$> pdata_ c),
                snd <$> filter occupied (pdata_ c)).
Proof.
  intros (H1 & H2 & _). unfold flush. rewrite <- H2.
  pose proof (flush_loop_spec (pdata_ c) [] []) as H. simpl in H.
  by rewrite H.
Qed.

Lemma flush_wf c : wf c → wf (with_pdata c (cleared <$> pdata_ c)).
Proof.
  intros (H1 & H2 & H3 & H4). unfold wf. simpl.
  rewrite length_fmap. done.
Qed.

Lemma displaced_lookup old :
  displaced old
  = match old !! (length old - 1) with
    | Some y => if bool_decide (occupied y) then [y.2] else []
    | None => []
    end.
Proof.
  unfold displaced. rewrite last_lookup.
  by replace (pred (length old)) with (length old - 1) by lia.
Qed.

Lemma list_find_take (P : @item_type_ T → Prop) `{!∀ x, Decision (P x)}
    old n i x :
  list_find P old = Some (i, x) → i < n →
  list_find P (take n old) = Some (i, x).
Proof.
  intros (Hi & HP & Hfirst)%list_find_Some Hn.
  apply list_find_Some. split; [by rewrite lookup_take_lt|].
  split; [done|]. intros j y Hj Hji.
  apply lookup_take_Some in Hj as [Hj _]. eauto.
Qed.

(** Operations on the other sets leave a set as it is. *)
Definition on_other_set k c (o : @operation T) : Prop :=
  match o with
  | Read k' | Write k' _ | Erase k' =>
      k' ≠ 0%Z ∧ set_of k' c ≠ set_of k c
  | Flush => False
  end.

Lemma lookup_outside_middle pre old new post j :
  length new = length old →
  j < length pre ∨ length pre + length old ≤ j →
  (pre ++ new ++ post) !! j = (pre ++ old ++ post) !! j.
Proof.
  intros Hlen [Hj|Hj].
  - by rewrite !lookup_app_l by done.
  - rewrite !(lookup_app_r pre) by lia.
    rewrite !lookup_app_r by lia. by rewrite Hlen.
Qed.

Lemma replace_line_other k k' c new :
  wf c → capacity_ c ≠ 0 → length new = assoc_ c →
  set_of k' c ≠ set_of k c →
  line k (replace_line k' c new) = line k c.
Proof.
  intros Hwf Hc Hnew Hne.
  destruct (line_split k' c Hwf Hc) as (pre & post & Hsplit & Hpre & Hold).
  unfold line.
  rewrite (replace_line_pdata k' c new pre post Hsplit Hpre Hold).
  change (set_of k (replace_line k' c new)) with (set_of k c).
  change (assoc_ (replace_line k' c new)) with (assoc_ c).
  rewrite Hsplit. apply list_eq. intros i.
  destruct (decide (i < assoc_ c)).
  - rewrite !lookup_take_lt, !lookup_drop by done.
    apply lookup_outside_middle; [lia|]. rewrite Hpre, Hold. nia.
  - by rewrite !lookup_take_ge by lia.
Qed.

Lemma exec_other_set k o c :
  wf c → capacity_ c ≠ 0 → on_other_set k c o →
  ∃ c' out,
    exec o c = Ok (c', out)
    ∧ wf c' ∧ capacity_ c' = capacity_ c ∧ assoc_ c' = assoc_ c
    ∧ sets_ c' = sets_ c ∧ line k c' = line k c.
Proof.
  intros Hwf Hc Ho. destruct (wf_sets c Hwf Hc) as [Hs Ha].
  destruct o as [k'|k' v|k'|]; simpl in Ho; [| | |done];
    destruct Ho as [Hk' Hne];
    destruct (line_split k' c Hwf Hc) as (_ & _ & _ & _ & Hold); simpl.
  - rewrite read_line by done.
    destruct (list_find _ _) as [[i x]|] eqn:Hfind; simpl.
    2:{ by exists c, []. }
    apply list_find_Some in Hfind as (Hi%lookup_lt_Some & _).
    assert (length (remove_slot i x.2 (line k' c)) = assoc_ c) as Hlen
      by (rewrite remove_slot_length; lia).
    do 2 eexists. split; [done|].
    split; [by apply replace_line_wf|].
    repeat split; try done. by apply replace_line_other.
  - rewrite write_line by done. simpl.
    assert (length (push_front (k', v) (line k' c)) = assoc_ c) as Hlen
      by (rewrite push_front_length; lia).
    do 2 eexists. split; [done|].
    split; [by apply replace_line_wf|].
    repeat split; try done. by apply replace_line_other.
  - rewrite erase_line by done.
    destruct (list_find _ _) as [[i x]|] eqn:Hfind; simpl.
    2:{ by exists c, []. }
    apply list_find_Some in Hfind as (Hi%lookup_lt_Some & _).
    assert (length (remove_slot i x.2 (line k' c)) = assoc_ c) as Hlen
      by (rewrite remove_slot_length; lia).
    do 2 eexists. split; [done|].
    split; [by apply replace_line_wf|].
    repeat split; try done. by apply replace_line_other.
Qed.

Lemma run_other_set k os : ∀ c,
  wf c → capacity_ c ≠ 0 → Forall (on_other_set k c) os →
  ∃ c' out,
    run os c = Ok (c', out)
    ∧ wf c' ∧ capacity_ c' = capacity_ c ∧ assoc_ c' = assoc_ c
    ∧ sets_ c' = sets_ c ∧ line k c' = line k c.
Proof.
  induction os as [|o os IH]; intros c Hwf Hc Hos; simpl.
  { by exists c, []. }
  apply Forall_cons in Hos as [Ho Hos].
  destruct (exec_other_set k o c Hwf Hc Ho)
    as (c1 & out1 & -> & Hwf1 & Hc1 & Ha1 & Hs1 & Hl1). simpl.
  destruct (IH c1) as (c' & out & -> & Hwf' & Hc' & Ha' & Hs' & Hl');
    [done|lia| |].
  { eapply Forall_impl; [exact Hos|]. intros o'. unfold on_other_set, set_of.
    by rewrite Hs1. }
  simpl. exists c', (out1 ++ out). split; [done|].
  split; [done|]. repeat split; congruence.
Qed.

(** C2: a write of a non-zero key returns [true]. With capacity 0 the
    value goes straight to the write-out functor and the cache is left as
    it is. Otherwise the value of slot A-1 of the set [k mod S] is written
    out when that slot is occupied, and nothing is written out when it is
    empty; afterwards slot 0 of the set holds [(k, v)] and slot [i + 1]
    holds what slot [i] held, for every [i < A - 1]. *)
Theorem write_inserts_at_front k (v : T) c :
  wf c → k ≠ 0%Z →
  (capacity_ c = 0 → write k v c = Ok (true, c, [v]))
  ∧ (capacity_ c ≠ 0 →
     ∃ c',
       write k v c
       = Ok (true, c',
             match line k c !! (assoc_ c - 1) with
             | Some y => if bool_decide (occupied y) then [y.2] else []
             | None => []
             end)
       ∧ line k c' !! 0 = Some (k, v)
       ∧ (∀ i, i < assoc_ c - 1 → line k c' !! (S i) = line k c !! i)
       ∧ length (line k c') = assoc_ c
       ∧ wf c').
Proof.
  intros Hwf Hk. split; intros Hc.
  { unfold write. rewrite bool_decide_eq_false_2 by done.
    by rewrite bool_decide_eq_true_2. }
  destruct (wf_sets c Hwf Hc) as [Hs Ha].
  destruct (line_split k c Hwf Hc) as (pre & post & Hsplit & Hpre & Hold).
  assert (length (push_front (k, v) (line k c)) = assoc_ c) as Hlen.
  { rewrite push_front_length; lia. }
  exists (replace_line k c (push_front (k, v) (line k c))).
  rewrite write_line, displaced_lookup, Hold by done.
  rewrite replace_line_line by done.
  split; [done|]. split; [done|]. split; [|split; [done|]].
  - intros i Hi. unfold push_front. simpl.
    apply lookup_take_lt. lia.
  - by apply replace_line_wf.
Qed.

(** C3 (amended): with capacity above 0, let [write(k, v)] be followed by
    operations on other sets only, then by a read of [k], then again by
    operations on other sets only, then by a second read of [k]. The first
    read returns [(v, true)], writes nothing out and leaves the trailing
    slot of the set empty. The second read misses, provided that [k] was not
    already held by one of the slots 0..A-2 of the set before the write. *)
Theorem read_after_write k (v : T) c os1 os2 :
  wf c → capacity_ c ≠ 0 → k ≠ 0%Z →
  Forall (on_other_set k c) os1 → Forall (on_other_set k c) os2 →
  ∃ c1 out c1' out1 c2 c2' out2,
    write k v c = Ok (true, c1, out)
    ∧ run os1 c1 = Ok (c1', out1)
    ∧ read k c1' = Ok (Some v, c2, [])
    ∧ (∃ y, line k c2 !! (assoc_ c - 1) = Some y ∧ ¬ occupied y)
    ∧ run os2 c2 = Ok (c2', out2)
    ∧ ((∀ x, x ∈ take (assoc_ c - 1) (line k c) → ¬ has_key k x) →
       read k c2' = Ok (None, c2', [])).
Proof.
  intros Hwf Hc Hk Hos1 Hos2.
  destruct (wf_sets c Hwf Hc) as [Hs Ha].
  destruct (line_split k c Hwf Hc) as (pre & post & Hsplit & Hpre & Hold).
  set (old := line k c) in *.
  set (c1 := replace_line k c (push_front (k, v) old)).
  assert (length (push_front (k, v) old) = assoc_ c) as Hlen1.
  { rewrite push_front_length; lia. }
  assert (wf c1) as Hwf1 by by apply replace_line_wf.
  assert (line k c1 = push_front (k, v) old) as Hline1
    by by apply replace_line_line.
  destruct (run_other_set k os1 c1)
    as (c1' & out1 & Hrun1 & Hwf1' & Hc1' & Ha1' & Hs1' & Hl1'); [done..|].
  assert (list_find (has_key k) (line k c1') = Some (0, (k, v))) as Hfind1.
  { rewrite Hl1', Hline1. unfold push_front. simpl. unfold has_key at 1. simpl.
    by rewrite decide_True. }
  set (new2 := remove_slot 0 v (line k c1')).
  set (c2 := replace_line k c1' new2).
  assert (new2 = take (assoc_ c - 1) old ++ [(0%Z, last_value v (line k c1'))])
    as Hnew2.
  { unfold new2, remove_slot. rewrite Hl1', Hline1 at 1.
    unfold push_front. simpl. by rewrite Hold. }
  assert (length new2 = assoc_ c1') as Hlen2.
  { rewrite Hnew2, length_app, length_take. simpl in *. lia. }
  assert (capacity_ c1' ≠ 0) as Hcap1' by (simpl in *; lia).
  assert (wf c2) as Hwf2 by by apply replace_line_wf.
  assert (line k c2 = new2) as Hline2 by by apply replace_line_line.
  destruct (run_other_set k os2 c2)
    as (c2' & out2 & Hrun2 & Hwf2' & Hc2' & Ha2' & Hs2' & Hl2'); [done|done| |].
  { eapply Forall_impl; [exact Hos2|]. intros o. unfold on_other_set, set_of.
    simpl. by rewrite Hs1'. }
  exists c1, (displaced old), c1', out1, c2, c2', out2.
  split; [by apply write_line|]. split; [done|].
  split; [rewrite read_line, Hfind1 by done; done|].
  split.
  { eexists. split.
    - rewrite Hline2, Hnew2. rewrite lookup_app_r; rewrite length_take; [|lia].
      replace (_ - _) with 0 by lia. done.
    - unfold occupied. simpl. lia. }
  split; [done|].
  intros Hfresh. rewrite read_line by (done || (simpl in *; lia)).
  assert (list_find (has_key k) (line k c2') = None) as ->; [|done].
  apply list_find_None. rewrite Hl2', Hline2, Hnew2.
  apply Forall_app. split.
  - apply Forall_forall. intros x Hx. by apply Hfresh.
  - apply Forall_singleton. unfold has_key. simpl. lia.
Qed.

(** C8 (amended): when the first slot of the set that holds key [k] is a
    slot [i < A - 1], holding [x], a write of [(k, v2)] keeps that entry:
    afterwards slot 0 holds [(k, v2)] and slot [i + 1] holds [x], the next
    read of [k] returns [v2], and the read after it returns the value of
    [x] and not a miss. *)
Theorem write_resident_key_duplicates k (v2 : T) c i x :
  wf c → capacity_ c ≠ 0 → k ≠ 0%Z →
  list_find (has_key k) (line k c) = Some (i, x) →
  i < assoc_ c - 1 →
  ∃ c1 out c2 c3,
    write k v2 c = Ok (true, c1, out)
    ∧ line k c1 !! 0 = Some (k, v2)
    ∧ line k c1 !! (S i) = Some x ∧ has_key k x
    ∧ read k c1 = Ok (Some v2, c2, [])
    ∧ read k c2 = Ok (Some x.2, c3, []).
Proof.
  intros Hwf Hc Hk Hfind Hi.
  destruct (wf_sets c Hwf Hc) as [Hs Ha].
  destruct (line_split k c Hwf Hc) as (pre & post & Hsplit & Hpre & Hold).
  set (old := line k c) in *.
  set (c1 := replace_line k c (push_front (k, v2) old)).
  assert (length (push_front (k, v2) old) = assoc_ c) as Hlen1.
  { rewrite push_front_length; lia. }
  assert (wf c1) as Hwf1 by by apply replace_line_wf.
  assert (line k c1 = push_front (k, v2) old) as Hline1
    by by apply replace_line_line.
  assert (list_find (has_key k) (line k c1) = Some (0, (k, v2))) as Hfind1.
  { rewrite Hline1. unfold push_front. simpl. unfold has_key at 1. simpl.
    by rewrite decide_True. }
  set (new2 := remove_slot 0 v2 (line k c1)).
  set (c2 := replace_line k c1 new2).
  assert (new2 = take (assoc_ c - 1) old ++ [(0%Z, last_value v2 (line k c1))])
    as Hnew2.
  { unfold new2, remove_slot. rewrite Hline1 at 1. unfold push_front. simpl.
    by rewrite Hold. }
  assert (length new2 = assoc_ c) as Hlen2.
  { rewrite Hnew2, length_app, length_take. simpl. lia. }
  assert (wf c2) as Hwf2 by by apply replace_line_wf.
  assert (line k c2 = new2) as Hline2 by by apply replace_line_line.
  pose proof Hfind as (Hx & Hkx & _)%list_find_Some.
  assert (list_find (has_key k) (line k c2) = Some (i, x)) as Hfind2.
  { rewrite Hline2, Hnew2. apply list_find_app_l.
    by apply list_find_take. }
  exists c1, (displaced old), c2,
    (replace_line k c2 (remove_slot i x.2 (line k c2))).
  split; [by apply write_line|].
  split; [by rewrite Hline1|].
  split.
  { rewrite Hline1. unfold push_front. simpl. rewrite lookup_take_lt by lia.
    done. }
  split; [done|].
  split; [rewrite read_line, Hfind1 by done; done|].
  rewrite read_line, Hfind2 by done. done.
Qed.

(** The points at which the specification lets the write-out functor be
    called, and the values it is to receive there: by a write, the value of
    the occupied LRU slot it displaces (with capacity 0, where there is no
    slot, the written value itself); by an erase, the value of the entry it
    matches; by a flush, the value of every occupied slot; by a read,
    nothing. *)
Definition expected_written (o : @operation T) c : list T :=
  match o with
  | Read _ => []
  | Write k v =>
      if bool_decide (capacity_ c = 0) then [v] else displaced (line k c)
  | Erase k =>
      match list_find (has_key k) (line k c) with
      | Some (_, x) => [x.2]
      | None => []
      end
  | Flush => snd <$> filter occupied (pdata_ c)
  end.

Fixpoint expected_log (os : list (@operation T)) c : list T :=
  match os with
  | [] => []
  | o :: os' =>
      expected_written o c ++
      match exec o c with
      | Ok r => expected_log os' r.1
      | Undefined _ => []
      end
  end.

(** Keys are non-zero; [erase], which computes [k % sets_] unguarded, is
    only considered on a cache that has slots. *)
Definition admissible c (o : @operation T) : Prop :=
  match o with
  | Read k | Write k _ => k ≠ 0%Z
  | Erase k => k ≠ 0%Z ∧ capacity_ c ≠ 0
  | Flush => True
  end.

Lemma exec_expected o c :
  wf c → admissible c o →
  ∃ c', exec o c = Ok (c', expected_written o c)
        ∧ wf c' ∧ capacity_ c' = capacity_ c.
Proof.
  intros Hwf Ho. destruct o as [k|k v|k|]; simpl in *.
  - destruct (decide (capacity_ c = 0)) as [Hc|Hc].
    { exists c. unfold read. by rewrite bool_decide_eq_true_2. }
    rewrite read_line by done.
    destruct (list_find _ _) as [[i x]|] eqn:Hfind; simpl; [|by exists c].
    eexists. split; [done|].
    apply list_find_Some in Hfind as (Hi%lookup_lt_Some & _).
    destruct (line_split k c Hwf Hc) as (_ & _ & _ & _ & Hold).
    split; [|done]. apply replace_line_wf; [done..|].
    rewrite remove_slot_length; done.
  - destruct (decide (capacity_ c = 0)) as [Hc|Hc].
    { exists c. unfold write. rewrite bool_decide_eq_false_2 by done.
      by rewrite !bool_decide_eq_true_2. }
    rewrite write_line by done. rewrite bool_decide_eq_false_2 by done.
    simpl. eexists. split; [done|].
    destruct (wf_sets c Hwf Hc) as [Hs Ha].
    destruct (line_split k c Hwf Hc) as (_ & _ & _ & _ & Hold).
    split; [|done]. apply replace_line_wf; [done..|].
    rewrite push_front_length; lia.
  - destruct Ho as [Hk Hc]. rewrite erase_line by done.
    destruct (list_find _ _) as [[i x]|] eqn:Hfind; simpl; [|by exists c].
    eexists. split; [done|].
    apply list_find_Some in Hfind as (Hi%lookup_lt_Some & _).
    destruct (line_split k c Hwf Hc) as (_ & _ & _ & _ & Hold).
    split; [|done]. apply replace_line_wf; [done..|].
    rewrite remove_slot_length; done.
  - rewrite flush_spec by done. eexists. split; [done|].
    split; [by apply flush_wf|done].
Qed.

(** C4 (amended): on a cache built by the constructor, every sequence of
    reads, writes, erases and flushes with non-zero keys (erases only when
    the capacity is above 0) runs to its end, and the write-out functor
    receives exactly the expected values in order: one value for a write
    that displaces an occupied LRU slot, the written value for a write to a
    cache of capacity 0, the value of the matched entry for an erase, the
    value of each occupied slot for a flush, and nothing for a read. A
    flush leaves every slot empty. *)
Theorem writeback_points (os : list (@operation T)) : ∀ c,
  wf c → Forall (admissible c) os →
  (∃ c', run os c = Ok (c', expected_log os c) ∧ wf c')
  ∧ (∀ c' out, flush c = Ok (c', out) → Forall (fun x => ¬ occupied x) (pdata_ c')).
Proof.
  intros c Hwf Hos. split.
  - revert c Hwf Hos. induction os as [|o os IH]; intros c Hwf Hos; simpl.
    { by exists c. }
    apply Forall_cons in Hos as [Ho Hos].
    destruct (exec_expected o c Hwf Ho) as (c1 & -> & Hwf1 & Hcap). simpl.
    destruct (IH c1 Hwf1) as (c' & -> & Hwf').
    { eapply Forall_impl; [exact Hos|]. intros [| | |]; simpl; try done.
      by rewrite Hcap. }
    simpl. by exists c'.
  - intros c' out. rewrite flush_spec by done. intros [= <- _]. simpl.
    apply Forall_fmap, Forall_forall. intros x _. unfold occupied, cleared.
    simpl. lia.
Qed.

End CacheProperties.

(** *** The cache manager on concrete caches of [nat] values *)

(** [erase] has no guard for capacity 0, unlike [read] and [write]. *)
Lemma erase_without_slots {T} (d : T) assoc k :
  k ≠ 0%Z → erase k (construct d 0 assoc) = Undefined division_by_zero.
Proof.
  intros Hk. unfold erase. rewrite bool_decide_eq_false_2 by done.
  reflexivity.
Qed.

(** Capacity 4 in two sets of two slots; set 1 is full. *)
Definition sample_cache : @cache_manager_lru nat :=
  mk_cache 4 2 2 [(0%Z, 0); (0%Z, 0); (3%Z, 20); (1%Z, 10)].

Lemma sample_cache_wf : wf sample_cache.
Proof. unfold wf. simpl. repeat split; lia. Qed.

Lemma write_inserts_at_front_witness :
  ∃ c', write 5%Z 30 sample_cache = Ok (true, c', [10])
        ∧ line 5%Z c' !! 0 = Some (5%Z, 30)
        ∧ line 5%Z c' !! 1 = Some (3%Z, 20).
Proof.
  destruct (proj2 (write_inserts_at_front 5%Z 30 sample_cache
                     sample_cache_wf ltac:(done)) ltac:(done))
    as (c' & Hw & H0 & Hshift & _).
  exists c'. split; [exact Hw|]. split; [exact H0|].
  etrans; [apply (Hshift 0); simpl; lia|reflexivity].
Defined.

Lemma read_after_write_witness :
  ∃ c1 out c1' out1 c2 c2' out2,
    write 5%Z 30 sample_cache = Ok (true, c1, out)
    ∧ run [Write 2%Z 7; Read 4%Z] c1 = Ok (c1', out1)
    ∧ read 5%Z c1' = Ok (Some 30, c2, [])
    ∧ run [Erase 2%Z] c2 = Ok (c2', out2)
    ∧ read 5%Z c2' = Ok (None, c2', []).
Proof.
  destruct (read_after_write 5%Z 30 sample_cache
              [Write 2%Z 7; Read 4%Z] [Erase 2%Z]
              sample_cache_wf ltac:(done) ltac:(done)
              ltac:(repeat constructor; done) ltac:(repeat constructor; done))
    as (c1 & out & c1' & out1 & c2 & c2' & out2
        & Hw & Hrun1 & Hr & _ & Hrun2 & Hmiss).
  exists c1, out, c1', out1, c2, c2', out2.
  split; [exact Hw|]. split; [exact Hrun1|]. split; [exact Hr|].
  split; [exact Hrun2|].
  apply Hmiss. intros x Hx.
  change (x ∈ [(3%Z, 20)]) in Hx. apply list_elem_of_singleton in Hx as ->.
  unfold has_key. simpl. lia.
Defined.

(** C3 as stated fails: [write] does not look for the key it inserts, so a
    key written twice occupies two slots, and the read after the read that
    took the newer value hits the older one. *)
Lemma second_read_hits_older_entry :
  ∃ c0 c1 c2 c3,
    write 1%Z 10 (construct 0 2 2) = Ok (true, c0, [])
    ∧ write 1%Z 20 c0 = Ok (true, c1, [])
    ∧ read 1%Z c1 = Ok (Some 20, c2, [])
    ∧ read 1%Z c2 = Ok (Some 10, c3, [])
    ∧ read 1%Z c2 ≠ Ok (None, c2, []).
Proof.
  do 4 eexists. split; [vm_compute; reflexivity|].
  split; [vm_compute; reflexivity|].
  split; [vm_compute; reflexivity|].
  split; [vm_compute; reflexivity|].
  vm_compute. discriminate.
Qed.

Lemma write_resident_key_duplicates_witness :
  ∃ c1 out c2 c3,
    write 3%Z 40 sample_cache = Ok (true, c1, out)
    ∧ read 3%Z c1 = Ok (Some 40, c2, [])
    ∧ read 3%Z c2 = Ok (Some 20, c3, []).
Proof.
  destruct (write_resident_key_duplicates 3%Z 40 sample_cache 0 (3%Z, 20)
              sample_cache_wf ltac:(done) ltac:(done) eq_refl ltac:(simpl; lia))
    as (c1 & out & c2 & c3 & Hw & _ & _ & _ & Hr1 & Hr2).
  exists c1, out, c2, c3. split; [exact Hw|]. split; [exact Hr1|exact Hr2].
Defined.

(** C8 as stated fails: when the resident entry sits in the LRU slot (with
    associativity 1, the only slot), the write displaces it: it is written
    out and gone from the set, and the second read misses. *)
Lemma write_displaces_resident_lru_entry :
  ∃ c0 c1 c2,
    write 1%Z 10 (construct 0 1 1) = Ok (true, c0, [])
    ∧ line 1%Z c0 = [(1%Z, 10)]
    ∧ write 1%Z 20 c0 = Ok (true, c1, [10])
    ∧ line 1%Z c1 = [(1%Z, 20)]
    ∧ read 1%Z c1 = Ok (Some 20, c2, [])
    ∧ read 1%Z c2 = Ok (None, c2, []).
Proof.
  do 3 eexists. split; [vm_compute; reflexivity|].
  split; [vm_compute; reflexivity|].
  split; [vm_compute; reflexivity|].
  split; [vm_compute; reflexivity|].
  split; vm_compute; reflexivity.
Qed.

Definition sample_operations : list (@operation nat) :=
  [Write 1%Z 10; Write 3%Z 20; Write 5%Z 30; Write 7%Z 40; Write 9%Z 50;
   Read 9%Z; Erase 7%Z; Read 2%Z; Flush].

Lemma writeback_points_witness :
  ∃ c', run sample_operations (construct 0 4 2) = Ok (c', [10; 20; 30; 40]).
Proof.
  destruct (proj1 (writeback_points sample_operations (construct 0 4 2)
                     (construct_wf 0 4 2)
                     ltac:(repeat constructor; simpl; done)))
    as (c' & Hrun & _).
  exists c'. exact Hrun.
Defined.

(** C4 as stated fails: a cache of capacity 0 has no slot to displace, and
    a write still calls the write-out functor, with the written value. *)
Lemma write_without_slots_writes_out :
  pdata_ (construct 0 0 0) = []
  ∧ run [Write 1%Z 7] (construct 0 0 0) = Ok (construct 0 0 0, [7]).
Proof. split; vm_compute; reflexivity. Qed.

(** *** Further properties of the cache manager *)

Section CacheInvariants.

Context {T : Type}.
Implicit Types (c : @cache_manager_lru T) (k : Z).
Implicit Types (old : list (@item_type_ T)).

#[local] Existing Instance has_key_dec.
#[local] Existing Instance occupied_dec.

Lemma construct_empty (d : T) (capacity assoc : nat) :
  Forall (fun x => ¬ occupied x) (pdata_ (construct d capacity assoc)).
Proof.
  unfold construct. case_bool_decide; simpl; [|done].
  apply Forall_replicate. unfold occupied. simpl. lia.
Qed.

(** X1: the constructor never makes the cache larger than asked for. With
    a capacity above 0 the associativity is the one given, cut down to the
    capacity, or the capacity itself when 0 was given (one set); the
    capacity is rounded down to a multiple of the associativity, by less
    than one set; every slot starts empty. With capacity 0 there is no
    slot and no set. *)
Theorem construct_normalises (d : T) (capacity assoc : nat) :
  wf (construct d capacity assoc)
  ∧ capacity_ (construct d capacity assoc) ≤ capacity
  ∧ Forall (fun x => ¬ occupied x) (pdata_ (construct d capacity assoc))
  ∧ (capacity = 0 →
     capacity_ (construct d capacity assoc) = 0
     ∧ sets_ (construct d capacity assoc) = 0
     ∧ pdata_ (construct d capacity assoc) = [])
  ∧ (capacity ≠ 0 →
     assoc_ (construct d capacity assoc)
     = (if bool_decide (assoc = 0) then capacity else assoc `min` capacity)
     ∧ sets_ (construct d capacity assoc)
       = capacity / assoc_ (construct d capacity assoc)
     ∧ capacity_ (construct d capacity assoc)
       = sets_ (construct d capacity assoc) * assoc_ (construct d capacity assoc)
     ∧ capacity < capacity_ (construct d capacity assoc)
                  + assoc_ (construct d capacity assoc)
     ∧ (assoc = 0 → sets_ (construct d capacity assoc) = 1)).
Proof.
  split; [apply construct_wf|].
  unfold construct.
  destruct (decide (capacity = 0)) as [->|Hc].
  { rewrite bool_decide_eq_false_2 by lia. simpl. repeat split; done. }
  rewrite (bool_decide_eq_true_2 (capacity ≠ 0)) by done.
  set (a := if bool_decide (assoc = 0) then capacity else assoc).
  set (a' := if bool_decide (capacity < a) then capacity else a).
  assert (a' = if bool_decide (assoc = 0) then capacity else assoc `min` capacity)
    as Ha'.
  { unfold a', a. repeat case_bool_decide; lia. }
  assert (0 < a' ≤ capacity) as Hpos.
  { rewrite Ha'. case_bool_decide; lia. }
  pose proof (Nat.Div0.mul_div_le capacity a') as Hle.
  pose proof (Nat.mul_succ_div_gt capacity a' ltac:(lia)) as Hgt.
  assert ((if bool_decide (capacity `mod` a' ≠ 0)
           then capacity `div` a' * a' else capacity)
          = capacity `div` a' * a') as Hcap.
  { destruct (decide (capacity `mod` a' = 0)) as [Hm|Hm].
    - rewrite bool_decide_eq_false_2 by lia.
      apply Nat.Div0.div_exact in Hm. lia.
    - by rewrite bool_decide_eq_true_2. }
  rewrite Hcap. simpl. rewrite Nat.div_mul by lia.
  split; [lia|]. split.
  { apply Forall_replicate. unfold occupied. simpl. lia. }
  split; [done|]. intros _.
  split; [done|]. split; [done|]. split; [done|]. split; [lia|].
  intros ->. rewrite Ha'. rewrite bool_decide_eq_true_2 by done.
  apply Nat.div_same. lia.
Qed.

(** The occupied slots of a set come first. *)
Definition dense old : Prop :=
  ∀ i j x y, i ≤ j → old !! i = Some x → old !! j = Some y →
    occupied y → occupied x.

Definition dense_sets c : Prop := ∀ k, dense (line k c).

Lemma dense_push_front (x : @item_type_ T) old :
  occupied x → dense old → dense (push_front x old).
Proof.
  intros Hx Hold [|i] [|j] y z Hij Hy Hz Hocc; unfold push_front in *;
    simpl in *; try lia.
  - by injection Hy as <-.
  - by injection Hy as <-.
  - apply lookup_take_Some in Hy as [Hy _].
    apply lookup_take_Some in Hz as [Hz _].
    apply (Hold i j y z); (done || lia).
Qed.

Lemma dense_remove_slot i (d : T) old :
  dense old → i < length old → dense (remove_slot i d old).
Proof.
  intros Hold Hi i0 j0 x y Hij Hx Hy Hocc. unfold remove_slot in *.
  assert (length (delete i old) = length old - 1) as Hlen.
  { rewrite length_delete by (by apply lookup_lt_is_Some). lia. }
  destruct (decide (j0 < length (delete i old))) as [Hj|Hj].
  2:{ rewrite lookup_app_r in Hy by lia.
      destruct (j0 - length (delete i old)); simpl in Hy; [|done].
      injection Hy as <-. unfold occupied in Hocc. simpl in Hocc. lia. }
  rewrite lookup_app_l in Hx, Hy by lia.
  rewrite list_lookup_delete in Hx, Hy.
  repeat case_decide;
    match goal with
    | H1 : old !! ?a = Some x, H2 : old !! ?b = Some y |- _ =>
        apply (Hold a b x y); [lia|done|done|done]
    end.
Qed.

Lemma dense_cleared old : dense (cleared <$> old).
Proof.
  intros i j x y _ _ Hy Hocc. apply list_lookup_fmap_Some in Hy as (y' & -> & _).
  unfold occupied, cleared in Hocc. simpl in Hocc. lia.
Qed.

Lemma line_same_set k k' c : set_of k c = set_of k' c → line k c = line k' c.
Proof. intros H. unfold line. by rewrite H. Qed.

(** The slots of any set after the slots of the set of [k0] were replaced. *)
Lemma line_replace_line k k0 c new :
  wf c → capacity_ c ≠ 0 → length new = assoc_ c →
  line k (replace_line k0 c new)
  = if decide (set_of k c = set_of k0 c) then new else line k c.
Proof.
  intros Hwf Hc Hnew. case_decide as Hs.
  - rewrite (line_same_set k k0); [by apply replace_line_line|].
    unfold set_of in *. done.
  - by apply replace_line_other.
Qed.

Lemma line_flushed k c :
  line k (with_pdata c (cleared <$> pdata_ c)) = cleared <$> line k c.
Proof. unfold line. simpl. by rewrite fmap_take, fmap_drop. Qed.

Lemma line_length k c :
  wf c → capacity_ c ≠ 0 → length (line k c) = assoc_ c.
Proof.
  intros Hwf Hc. by destruct (line_split k c Hwf Hc) as (_ & _ & _ & _ & H).
Qed.

Lemma exec_dense o c c' out :
  wf c → admissible c o → dense_sets c →
  exec o c = Ok (c', out) → dense_sets c'.
Proof.
  intros Hwf Ho Hdense Hexec.
  destruct (decide (capacity_ c = 0)) as [Hc|Hc].
  { assert (pdata_ c = []) as Hnil.
    { destruct Hwf as (_ & Hlen & _). rewrite Hc in Hlen.
      by apply length_zero_iff_nil. }
    assert (pdata_ c' = []) as Hnil'.
    { destruct o as [k|k v|k|]; simpl in *.
      - unfold read in Hexec. rewrite bool_decide_eq_true_2 in Hexec by done.
        simpl in Hexec. by injection Hexec as <- _.
      - unfold write in Hexec.
        rewrite bool_decide_eq_false_2 in Hexec by done.
        rewrite bool_decide_eq_true_2 in Hexec by done.
        simpl in Hexec. by injection Hexec as <- _.
      - by destruct Ho.
      - rewrite flush_spec in Hexec by done. injection Hexec as <- _.
        simpl. by rewrite Hnil. }
    intros k. unfold line. rewrite Hnil', drop_nil, take_nil.
    intros i j x y _ Hx. done. }
  destruct o as [k0|k0 v|k0|]; simpl in *.
  - rewrite read_line in Hexec by done. simpl in Hexec.
    destruct (list_find _ _) as [[i x]|] eqn:Hfind; simpl in Hexec;
      injection Hexec as <- _; [|done].
    apply list_find_Some in Hfind as (Hi%lookup_lt_Some & _).
    intros k. rewrite line_replace_line; [|done|done|].
    + case_decide; [|done]. by apply dense_remove_slot.
    + rewrite remove_slot_length by done. by apply line_length.
  - rewrite write_line in Hexec by done. simpl in Hexec.
    injection Hexec as <- _.
    pose proof (line_length k0 c Hwf Hc) as Hlen.
    destruct (wf_sets c Hwf Hc) as [_ Ha].
    intros k. rewrite line_replace_line; [|done|done|].
    + case_decide; [|done]. apply dense_push_front; [|done].
      unfold occupied. simpl. done.
    + rewrite push_front_length; lia.
  - destruct Ho as [Hk0 _]. rewrite erase_line in Hexec by done.
    simpl in Hexec.
    destruct (list_find _ _) as [[i x]|] eqn:Hfind; simpl in Hexec;
      injection Hexec as <- _; [|done].
    apply list_find_Some in Hfind as (Hi%lookup_lt_Some & _).
    intros k. rewrite line_replace_line; [|done|done|].
    + case_decide; [|done]. by apply dense_remove_slot.
    + rewrite remove_slot_length by done. by apply line_length.
  - rewrite flush_spec in Hexec by done. injection Hexec as <- _.
    intros k. rewrite line_flushed. apply dense_cleared.
Qed.

(** X2: in every set of a cache built by the constructor the occupied
    slots stay a prefix of the set, whatever reads, writes, erases and
    flushes with non-zero keys are run (erases with capacity above 0). *)
Theorem occupied_slots_form_prefix (d : T) (capacity assoc : nat)
    (os : list (@operation T)) c' out :
  Forall (admissible (construct d capacity assoc)) os →
  run os (construct d capacity assoc) = Ok (c', out) →
  dense_sets c'.
Proof.
  assert (Hgen : ∀ os c c' out,
    wf c → dense_sets c → Forall (admissible c) os →
    run os c = Ok (c', out) → dense_sets c').
  { clear. intros os. induction os as [|o os IH]; intros c c' out Hwf Hd Hos Hrun.
    { simpl in Hrun. by injection Hrun as <- _. }
    apply Forall_cons in Hos as [Ho Hos]. simpl in Hrun.
    destruct (exec_expected o c Hwf Ho) as (c1 & Hexec & Hwf1 & Hcap).
    rewrite Hexec in Hrun. simpl in Hrun.
    destruct (run os c1) as [[c2 out2]|] eqn:Hrun1; [|done].
    simpl in Hrun. injection Hrun as <- _.
    apply (IH c1 c2 out2); try done.
    - by apply (exec_dense o c c1 (expected_written o c)).
    - eapply Forall_impl; [exact Hos|]. intros [| | |]; simpl; try done.
      by rewrite Hcap. }
  intros Hos Hrun. apply (Hgen os (construct d capacity assoc) c' out);
    try done; [apply construct_wf|].
  intros k i j x y _ _ Hy Hocc. exfalso.
  assert (Forall (fun x => ¬ occupied x) (line k (construct d capacity assoc)))
    as Hall.
  { unfold line. apply Forall_take, Forall_drop, construct_empty. }
  rewrite Forall_lookup in Hall. by apply (Hall j y).
Qed.

Lemma miss_read k c :
  wf c → k ≠ 0%Z → Forall (fun x => ¬ has_key k x) (line k c) →
  read k c = Ok (None, c, []).
Proof.
  intros Hwf Hk Hmiss.
  destruct (decide (capacity_ c = 0)) as [Hc|Hc].
  - unfold read. by rewrite bool_decide_eq_true_2.
  - rewrite read_line by done.
    by rewrite (proj2 (list_find_None (has_key k) (line k c)) Hmiss).
Qed.

Lemma miss_erase k c :
  wf c → k ≠ 0%Z → capacity_ c ≠ 0 →
  Forall (fun x => ¬ has_key k x) (line k c) →
  erase k c = Ok (false, c, []).
Proof.
  intros Hwf Hk Hc Hmiss. rewrite erase_line by done.
  by rewrite (proj2 (list_find_None (has_key k) (line k c)) Hmiss).
Qed.

(** X3: in a set whose occupied slots come first, a write hands a value to
    the write-out functor exactly when every slot of the set is occupied:
    an entry is only pushed out of a full set. *)
Theorem write_out_only_when_full k (v : T) c :
  wf c → capacity_ c ≠ 0 → k ≠ 0%Z → dense (line k c) →
  ∃ c' out,
    write k v c = Ok (true, c', out)
    ∧ (out ≠ [] ↔ Forall occupied (line k c)).
Proof.
  intros Hwf Hc Hk Hdense. rewrite write_line by done.
  do 2 eexists. split; [done|].
  pose proof (line_length k c Hwf Hc) as Hlen.
  destruct (wf_sets c Hwf Hc) as [_ Ha].
  destruct (last_exists (line k c)) as [y Hy]; [lia|].
  unfold displaced. rewrite Hy.
  pose proof Hy as Hy'. rewrite last_lookup in Hy'.
  destruct (decide (occupied y)) as [Hocc|Hocc].
  - rewrite bool_decide_eq_true_2 by done. split; [|done]. intros _.
    apply Forall_lookup. intros i x Hx.
    apply (Hdense i (pred (length (line k c))) x y); try done.
    apply lookup_lt_Some in Hx. lia.
  - rewrite bool_decide_eq_false_2 by done. split; [done|].
    intros Hall. rewrite Forall_lookup in Hall. exfalso.
    by apply Hocc, (Hall _ _ Hy').
Qed.

(** X4: a read and an erase of a key that no slot of its set holds return
    [false], leave the cache as it is and call the write-out functor not
    at all. *)
Theorem miss_changes_nothing k c :
  wf c → k ≠ 0%Z →
  Forall (fun x => ¬ has_key k x) (line k c) →
  read k c = Ok (None, c, [])
  ∧ (capacity_ c ≠ 0 → erase k c = Ok (false, c, [])).
Proof.
  intros Hwf Hk Hmiss. split; [by apply miss_read|].
  intros Hc. by apply miss_erase.
Qed.

(** X5: an erase of [k] right after [write(k, v)] finds the new entry:
    it returns [true] and writes out [v], not an older entry with the same
    key. Afterwards the slots 0..A-2 of the set hold what they held before
    the write and the trailing slot is empty. *)
Theorem erase_after_write k (v : T) c :
  wf c → capacity_ c ≠ 0 → k ≠ 0%Z →
  ∃ c1 out1 c2,
    write k v c = Ok (true, c1, out1)
    ∧ erase k c1 = Ok (true, c2, [v])
    ∧ (∀ i, i < assoc_ c - 1 → line k c2 !! i = line k c !! i)
    ∧ (∃ y, line k c2 !! (assoc_ c - 1) = Some y ∧ ¬ occupied y).
Proof.
  intros Hwf Hc Hk.
  destruct (wf_sets c Hwf Hc) as [Hs Ha].
  pose proof (line_length k c Hwf Hc) as Hold.
  set (old := line k c) in *.
  set (c1 := replace_line k c (push_front (k, v) old)).
  assert (length (push_front (k, v) old) = assoc_ c) as Hlen1.
  { rewrite push_front_length; lia. }
  assert (wf c1) as Hwf1 by by apply replace_line_wf.
  assert (line k c1 = push_front (k, v) old) as Hline1
    by by apply replace_line_line.
  assert (list_find (has_key k) (line k c1) = Some (0, (k, v))) as Hfind1.
  { rewrite Hline1. unfold push_front. simpl. unfold has_key at 1. simpl.
    by rewrite decide_True. }
  set (new2 := remove_slot 0 v (line k c1)).
  assert (new2 = take (assoc_ c - 1) old ++ [(0%Z, last_value v (line k c1))])
    as Hnew2.
  { unfold new2, remove_slot. rewrite Hline1 at 1. unfold push_front. simpl.
    by rewrite Hold. }
  assert (length new2 = assoc_ c) as Hlen2.
  { rewrite Hnew2, length_app, length_take. simpl. lia. }
  exists c1, (displaced old), (replace_line k c1 new2).
  split; [by apply write_line|].
  split; [rewrite erase_line, Hfind1 by done; done|].
  rewrite replace_line_line by done. rewrite Hnew2. split.
  - intros i Hi. rewrite lookup_app_l by (rewrite length_take; lia).
    by apply lookup_take_lt.
  - eexists. split.
    + rewrite lookup_app_r; rewrite length_take; [|lia].
      replace (_ - _) with 0 by lia. done.
    + unfold occupied. simpl. lia.
Qed.

Lemma filter_occupied_cleared old : filter occupied (cleared <$> old) = [].
Proof.
  induction old as [|x old IH]; [done|]. simpl.
  rewrite filter_cons_False; [done|]. unfold occupied, cleared. simpl. lia.
Qed.

Lemma cleared_cleared old : cleared <$> (cleared <$> old) = cleared <$> old.
Proof. rewrite <- list_fmap_compose. by apply list_fmap_ext. Qed.

(** X6: after a flush the cache is empty for its users: every read
    misses, and a second flush writes nothing out and changes nothing. *)
Theorem flush_empties c :
  wf c →
  ∃ c1 out,
    flush c = Ok (c1, out)
    ∧ flush c1 = Ok (c1, [])
    ∧ (∀ k, k ≠ 0%Z → read k c1 = Ok (None, c1, []))
    ∧ (∀ k, k ≠ 0%Z → capacity_ c ≠ 0 → erase k c1 = Ok (false, c1, [])).
Proof.
  intros Hwf. rewrite flush_spec by done.
  set (c1 := with_pdata c (cleared <$> pdata_ c)).
  assert (wf c1) as Hwf1 by by apply flush_wf.
  assert (Hmiss : ∀ k, k ≠ 0%Z → Forall (fun x => ¬ has_key k x) (line k c1)).
  { intros k Hk. unfold c1. rewrite line_flushed.
    apply Forall_fmap, Forall_forall. intros x _. unfold has_key, cleared.
    simpl. lia. }
  exists c1, (snd <$> filter occupied (pdata_ c)). split; [done|]. split.
  - rewrite flush_spec by done. unfold c1. simpl.
    by rewrite filter_occupied_cleared, cleared_cleared.
  - split.
    + intros k Hk. apply miss_read; auto.
    + intros k Hk Hc. apply miss_erase; auto.
Qed.

(** The values the cache holds: those of its occupied slots. *)
Definition held (store : list (@item_type_ T)) : list T :=
  snd <$> filter occupied store.

Definition resident c : list T := held (pdata_ c).

(** An operation together with what it hands back to its caller: the
    value a successful read copies into [item]. *)
Definition exec_served (o : @operation T) c
    : outcome (cache_manager_lru * list T * list T) :=
  match o with
  | Read k =>
      r ← read k c;
      Ok (r.1.2, r.2, match r.1.1 with Some v => [v] | None => [] end)
  | Write k item => r ← write k item c; Ok (r.1.2, r.2, [])
  | Erase k => r ← erase k c; Ok (r.1.2, r.2, [])
  | Flush => r ← flush c; Ok (r.1, r.2, [])
  end.

Fixpoint run_served (os : list (@operation T)) c
    : outcome (cache_manager_lru * list T * list T) :=
  match os with
  | [] => Ok (c, [], [])
  | o :: os' =>
      r ← exec_served o c;
      r' ← run_served os' r.1.1;
      Ok (r'.1.1, r.1.2 ++ r'.1.2, r.2 ++ r'.2)
  end.

(** The values the operations put into the cache. *)
Definition inserted (os : list (@operation T)) : list T :=
  os ≫= fun o => match o with Write _ v => [v] | _ => [] end.

Lemma held_app l1 l2 : held (l1 ++ l2) = held l1 ++ held l2.
Proof. unfold held. by rewrite filter_app, fmap_app. Qed.

Lemma held_delete old i x :
  old !! i = Some x → occupied x → held old ≡ₚ x.2 :: held (delete i old).
Proof.
  intros Hi Hx. rewrite <- (take_drop_middle old i x Hi) at 1.
  rewrite delete_take_drop, !held_app.
  change (x :: drop (S i) old) with ([x] ++ drop (S i) old).
  rewrite held_app. unfold held at 2. rewrite filter_cons_True by done.
  simpl. by rewrite Permutation_middle.
Qed.

Lemma held_remove_slot old i x (d : T) :
  old !! i = Some x → occupied x →
  held old ≡ₚ x.2 :: held (remove_slot i d old).
Proof.
  intros Hi Hx. unfold remove_slot. rewrite held_app.
  unfold held at 3. rewrite filter_cons_False by (unfold occupied; simpl; lia).
  simpl. rewrite app_nil_r. by apply held_delete.
Qed.

Lemma displaced_held old : 0 < length old →
  displaced old = held (drop (length old - 1) old).
Proof.
  intros Hlen. destruct (last_exists old Hlen) as [y Hy].
  rewrite (drop_last old y Hy). unfold displaced, held. rewrite Hy.
  destruct (decide (occupied y)).
  - rewrite bool_decide_eq_true_2, filter_cons_True by done. done.
  - rewrite bool_decide_eq_false_2, filter_cons_False by done. done.
Qed.

Lemma held_push_front k (v : T) old :
  k ≠ 0%Z → 0 < length old →
  v :: held old ≡ₚ held (push_front (k, v) old) ++ displaced old.
Proof.
  intros Hk Hlen. rewrite displaced_held by done. unfold push_front.
  change ((k, v) :: take (length old - 1) old)
    with ([(k, v)] ++ take (length old - 1) old).
  rewrite held_app. unfold held at 2.
  rewrite filter_cons_True by done. simpl.
  rewrite <- held_app. by rewrite take_drop.
Qed.

Ltac perm_front :=
  simpl; rewrite <- ?(assoc (++)); rewrite <- ?Permutation_middle;
  rewrite ?app_nil_r; simpl.

Lemma held_cleared old : held (cleared <$> old) = [].
Proof. unfold held. by rewrite filter_occupied_cleared. Qed.

(** What an operation does to the values in the cache. *)
Lemma exec_served_spec o c :
  wf c → admissible c o →
  ∃ c' out got,
    exec_served o c = Ok (c', out, got)
    ∧ exec o c = Ok (c', out)
    ∧ resident c ++ inserted [o] ≡ₚ resident c' ++ out ++ got.
Proof.
  intros Hwf Ho. unfold inserted, resident.
  destruct (decide (capacity_ c = 0)) as [Hc|Hc].
  { destruct o as [k|k v|k|]; simpl in *.
    - unfold read. rewrite bool_decide_eq_true_2 by done. simpl.
      by exists c, [], [].
    - unfold write. rewrite bool_decide_eq_false_2 by done.
      rewrite !bool_decide_eq_true_2 by done. simpl.
      exists c, [v], []. by rewrite !app_nil_r.
    - by destruct Ho.
    - rewrite flush_spec by done. simpl. do 3 eexists.
      split; [done|]. split; [done|]. simpl.
      by rewrite held_cleared, !app_nil_r. }
  destruct o as [k|k v|k|]; simpl in *.
  - destruct (line_split k c Hwf Hc) as (pre & post & Hsplit & Hpre & Hold).
    rewrite read_line by done.
    destruct (list_find _ _) as [[i x]|] eqn:Hfind; simpl.
    + do 3 eexists. split; [done|]. split; [done|].
      apply list_find_Some in Hfind as (Hi & Hx & _).
      rewrite (replace_line_pdata k c _ pre post Hsplit Hpre Hold).
      rewrite Hsplit, !held_app, !app_nil_r.
      rewrite (held_remove_slot (line k c) i x x.2 Hi)
        by (unfold occupied, has_key in *; congruence).
      by perm_front.
    + exists c, [], []. by rewrite !app_nil_r.
  - destruct (line_split k c Hwf Hc) as (pre & post & Hsplit & Hpre & Hold).
    destruct (wf_sets c Hwf Hc) as [_ Ha].
    rewrite write_line by done. simpl. do 3 eexists.
    split; [done|]. split; [done|].
    rewrite (replace_line_pdata k c _ pre post Hsplit Hpre Hold).
    rewrite Hsplit at 1. rewrite !held_app, !app_nil_r.
    rewrite <- !(assoc (++)).
    rewrite (Permutation_app_comm (held post) (displaced _)).
    rewrite (assoc (++) (held (push_front _ _))).
    rewrite <- (held_push_front k v (line k c) Ho) by lia.
    by perm_front.
  - destruct Ho as [Hk _].
    destruct (line_split k c Hwf Hc) as (pre & post & Hsplit & Hpre & Hold).
    rewrite erase_line by done.
    destruct (list_find _ _) as [[i x]|] eqn:Hfind; simpl.
    + do 3 eexists. split; [done|]. split; [done|].
      apply list_find_Some in Hfind as (Hi & Hx & _).
      rewrite (replace_line_pdata k c _ pre post Hsplit Hpre Hold).
      rewrite Hsplit, !held_app, !app_nil_r.
      rewrite (held_remove_slot (line k c) i x x.2 Hi)
        by (unfold occupied, has_key in *; congruence).
      by perm_front.
    + exists c, [], []. by rewrite !app_nil_r.
  - rewrite flush_spec by done. simpl. do 3 eexists.
    split; [done|]. split; [done|]. simpl.
    by rewrite held_cleared, !app_nil_r.
Qed.

(** X7: the cache neither loses nor invents a value. After any sequence
    of reads, writes, erases and flushes, the values resident at the start
    together with the values written are, as a multiset, the values still
    resident together with those handed to the write-out functor and
    those handed to readers. *)
Theorem values_are_conserved (os : list (@operation T)) : ∀ c,
  wf c → Forall (admissible c) os →
  ∃ c' out got,
    run_served os c = Ok (c', out, got)
    ∧ run os c = Ok (c', out)
    ∧ resident c ++ inserted os ≡ₚ resident c' ++ out ++ got.
Proof.
  induction os as [|o os IH]; intros c Hwf Hos.
  { exists c, [], []. simpl. by rewrite !app_nil_r. }
  apply Forall_cons in Hos as [Ho Hos].
  destruct (exec_served_spec o c Hwf Ho) as (c1 & out1 & got1 & H1 & H1' & HP1).
  destruct (exec_expected o c Hwf Ho) as (c1' & Hexec & Hwf1 & Hcap).
  rewrite H1' in Hexec. injection Hexec as <- _.
  destruct (IH c1 Hwf1) as (c' & out2 & got2 & H2 & H2' & HP2).
  { eapply Forall_impl; [exact Hos|]. intros [| | |]; simpl; try done.
    by rewrite Hcap. }
  exists c', (out1 ++ out2), (got1 ++ got2).
  split; [simpl; rewrite H1; simpl; by rewrite H2|].
  split; [simpl; rewrite H1'; simpl; by rewrite H2'|].
  replace (inserted (o :: os)) with (inserted [o] ++ inserted os)
    by (unfold inserted; simpl; by rewrite app_nil_r).
  rewrite (assoc (++) (resident c)), HP1.
  rewrite <- !(assoc (++)).
  rewrite (Permutation_app_comm got1 (inserted os)).
  rewrite (assoc (++) out1), (Permutation_app_comm out1 (inserted os)).
  rewrite <- !(assoc (++)), (assoc (++) (resident c1)), HP2.
  rewrite <- !(assoc (++)).
  do 1 f_equiv.
  rewrite (assoc (++) got2), (Permutation_app_comm got2 out1).
  rewrite <- !(assoc (++)).
  rewrite (assoc (++) out2), (Permutation_app_comm out2 out1).
  rewrite <- !(assoc (++)). do 2 f_equiv.
  apply Permutation_app_comm.
Qed.

Lemma take_push_front (l old : list (@item_type_ T)) x :
  0 < length old →
  take (length old) (l ++ push_front x old) = take (length old) (l ++ x :: old).
Proof.
  intros Hlen. rewrite !take_app. f_equal. unfold push_front.
  destruct (length old - length l) as [|m] eqn:Hm; [done|]. simpl.
  rewrite take_take. do 2 f_equal. lia.
Qed.

Lemma drop_push_front (l old : list (@item_type_ T)) x y :
  last old = Some y →
  drop (length old) (l ++ x :: old)
  = drop (length old) (l ++ push_front x old) ++ [y].
Proof.
  intros Hy. assert (0 < length old) as Hlen.
  { destruct old; [done|simpl; lia]. }
  rewrite <- (drop_last old y Hy). unfold push_front.
  rewrite <- (take_drop (length old - 1) old) at 2.
  rewrite app_comm_cons, (assoc (++) l).
  rewrite (drop_app_le (l ++ _)); [done|].
  rewrite length_app. simpl. rewrite length_take. lia.
Qed.

(** Writes that all go to the set of [k]. *)
Definition to_set k c (w : @item_type_ T) : Prop :=
  w.1 ≠ 0%Z ∧ set_of w.1 c = set_of k c.

Lemma writes_to_one_set k (ws : list (@item_type_ T)) : ∀ c,
  wf c → capacity_ c ≠ 0 → Forall (to_set k c) ws →
  ∃ c',
    run ((fun w => Write w.1 w.2) <$> ws) c
    = Ok (c', held (reverse (drop (assoc_ c) (reverse ws ++ line k c))))
    ∧ wf c' ∧ assoc_ c' = assoc_ c
    ∧ line k c' = take (assoc_ c) (reverse ws ++ line k c)
    ∧ (∀ k', set_of k' c ≠ set_of k c → line k' c' = line k' c).
Proof.
  induction ws as [|[k1 v1] ws IH]; intros c Hwf Hc Hws.
  { pose proof (line_length k c Hwf Hc) as Hlen.
    exists c. simpl. rewrite <- Hlen at 1. rewrite drop_all.
    rewrite <- Hlen, firstn_all. done. }
  apply Forall_cons in Hws as [[Hk1 Hset] Hws]. simpl in Hk1, Hset.
  destruct (wf_sets c Hwf Hc) as [_ Ha].
  pose proof (line_length k c Hwf Hc) as Hlen.
  set (old := line k c) in *.
  set (c1 := replace_line k1 c (push_front (k1, v1) old)).
  assert (length (push_front (k1, v1) old) = assoc_ c) as Hlen1
    by (rewrite push_front_length; lia).
  assert (wf c1) as Hwf1 by by apply replace_line_wf.
  assert (line k c1 = push_front (k1, v1) old) as Hline1.
  { unfold c1. rewrite line_replace_line by done. by rewrite decide_True. }
  destruct (IH c1 Hwf1 Hc) as (c' & Hrun & Hwf' & Hassoc & Hline & Hother).
  { eapply Forall_impl; [exact Hws|]. intros w [? ?]. by split. }
  destruct (last_exists old) as [y Hy]; [lia|].
  exists c'. split; [|split; [done|split; [done|split]]].
  - rewrite fmap_cons. cbn [run exec fst snd]. rewrite write_line by done.
    rewrite (line_same_set k1 k c Hset). fold old. fold c1.
    cbn [mbind outcome_bind fst snd].
    rewrite Hrun. cbn [mbind outcome_bind fst snd]. do 2 f_equal.
    rewrite Hline1. change (assoc_ c1) with (assoc_ c). rewrite <- Hlen.
    rewrite reverse_cons, <- (assoc (++)). simpl.
    rewrite (drop_push_front _ old (k1, v1) y Hy).
    rewrite reverse_app, held_app. f_equal.
    rewrite displaced_held by lia. by rewrite (drop_last old y Hy).
  - rewrite Hline, Hline1. change (assoc_ c1) with (assoc_ c).
    rewrite <- Hlen, reverse_cons, <- (assoc (++)). simpl.
    by apply take_push_front; lia.
  - intros k' Hk'. rewrite Hother by done. unfold c1.
    rewrite line_replace_line by done. rewrite decide_False; [done|].
    by rewrite Hset.
Qed.

(** X8: writes that all fall into one set leave it in least-recently-
    written order. After the writes [ws] the set holds the first A
    entries of the writes, newest first, followed by the former slots;
    the entries beyond A were handed to the write-out functor, oldest
    first (former slots from the last one backward, then the earliest
    writes), the empty ones skipped. The other sets are untouched. *)
Theorem writes_evict_oldest_first k (ws : list (@item_type_ T)) c :
  wf c → capacity_ c ≠ 0 → Forall (to_set k c) ws →
  ∃ c',
    run ((fun w => Write w.1 w.2) <$> ws) c
    = Ok (c', held (reverse (drop (assoc_ c) (reverse ws ++ line k c))))
    ∧ line k c' = take (assoc_ c) (reverse ws ++ line k c)
    ∧ (∀ k', set_of k' c ≠ set_of k c → line k' c' = line k' c).
Proof.
  intros Hwf Hc Hws.
  destruct (writes_to_one_set k ws c Hwf Hc Hws) as (c' & ? & _ & _ & ? & ?).
  by exists c'.
Qed.

End CacheInvariants.

(** *** The invariants on the sample cache *)

Lemma sample_line_dense : dense (line 5%Z sample_cache).
Proof.
  change (line 5%Z sample_cache) with [(3%Z, 20); (1%Z, 10)].
  intros [|[|i]] [|[|j]] x y _ Hx Hy _; simpl in Hx, Hy; try done;
    injection Hx as <-; unfold occupied; simpl; lia.
Qed.

Lemma occupied_slots_form_prefix_witness :
  ∃ c' out,
    run [Write 1%Z 10; Write 3%Z 20; Write 5%Z 30; Read 3%Z; Erase 2%Z]
        (construct 0 4 2) = Ok (c', out)
    ∧ dense_sets c'.
Proof.
  eexists _, _. split; [vm_compute; reflexivity|].
  eapply (occupied_slots_form_prefix 0 4 2
            [Write 1%Z 10; Write 3%Z 20; Write 5%Z 30; Read 3%Z; Erase 2%Z]).
  - repeat constructor; simpl; done.
  - vm_compute. reflexivity.
Defined.

Lemma write_out_only_when_full_witness :
  ∃ c' out,
    write 5%Z 30 sample_cache = Ok (true, c', out)
    ∧ (out ≠ [] ↔ Forall occupied (line 5%Z sample_cache)).
Proof.
  apply (write_out_only_when_full 5%Z 30 sample_cache sample_cache_wf);
    [done|done|exact sample_line_dense].
Defined.

Lemma miss_changes_nothing_witness :
  read 2%Z sample_cache = Ok (None, sample_cache, [])
  ∧ (capacity_ sample_cache ≠ 0 →
     erase 2%Z sample_cache = Ok (false, sample_cache, [])).
Proof.
  apply (miss_changes_nothing 2%Z sample_cache sample_cache_wf); [done|].
  change (line 2%Z sample_cache) with [(0%Z, 0); (0%Z, 0)].
  repeat constructor; unfold has_key; simpl; lia.
Defined.

Lemma erase_after_write_witness :
  ∃ c1 out1 c2,
    write 5%Z 30 sample_cache = Ok (true, c1, out1)
    ∧ erase 5%Z c1 = Ok (true, c2, [30]).
Proof.
  destruct (erase_after_write 5%Z 30 sample_cache sample_cache_wf
              ltac:(done) ltac:(done))
    as (c1 & out1 & c2 & Hw & He & _).
  exists c1, out1, c2. split; [exact Hw|exact He].
Defined.

Lemma flush_empties_witness :
  ∃ c1 out,
    flush sample_cache = Ok (c1, out)
    ∧ flush c1 = Ok (c1, [])
    ∧ read 3%Z c1 = Ok (None, c1, []).
Proof.
  destruct (flush_empties sample_cache sample_cache_wf)
    as (c1 & out & Hf & Hf' & Hr & _).
  exists c1, out. split; [exact Hf|]. split; [exact Hf'|].
  apply Hr. done.
Defined.

Lemma values_are_conserved_witness :
  ∃ c' out got,
    run_served sample_operations (construct 0 4 2) = Ok (c', out, got)
    ∧ resident (construct 0 4 2) ++ inserted sample_operations
      ≡ₚ resident c' ++ out ++ got.
Proof.
  destruct (values_are_conserved sample_operations (construct 0 4 2)
              (construct_wf 0 4 2) ltac:(repeat constructor; simpl; done))
    as (c' & out & got & Hrun & _ & Hperm).
  exists c', out, got. split; [exact Hrun|exact Hperm].
Defined.

Lemma writes_evict_oldest_first_witness :
  ∃ c',
    run [Write 5%Z 30; Write 7%Z 40; Write 9%Z 50] sample_cache
    = Ok (c', [10; 20; 30])
    ∧ line 1%Z c' = [(9%Z, 50); (7%Z, 40)].
Proof.
  destruct (writes_evict_oldest_first 1%Z [(5%Z, 30); (7%Z, 40); (9%Z, 50)]
              sample_cache sample_cache_wf ltac:(done)
              ltac:(repeat constructor; done))
    as (c' & Hrun & Hline & _).
  exists c'. split; [exact Hrun|exact Hline].
Defined.

End CacheLRU.

(** ** Device descriptor (ami_device.cpp) *)

Module AmiDevice.

Local Open Scope Z_scope.

(** Modelled from the spec: [AMI_err] is declared in ami_base.h, which is
    not among the sources; of the error kinds, the two that
    [ami_device.cpp] returns: no-error and env-undefined. *)
Inductive AMI_err : Type :=
  | AMI_ERROR_NO_ERROR
  | AMI_ERROR_ENV_UNDEFINED.

(** A C string is the list of its characters up to the terminating NUL. A
    [const char *] into a string is what is left of the string from the
    pointer on ([Some []] points at the terminator) or [None] once it has
    been moved past the terminator, where it may not be dereferenced. *)
Abbreviation cstring := (list ascii) (only parsing).
Abbreviation char_ptr := (option (list ascii)) (only parsing).

Definition colon : ascii := ":"%char.

(** Arithmetic of [unsigned int]. *)
Definition UINT_MOD : Z := 2 ^ 32.
Definition uint (z : Z) : Z := z mod UINT_MOD.

(** [argc] and [argv]; the strings [argv] points to are kept by value, and
    a null or freed [argv] is the empty list. *)
Record AMI_device : Type := mk_device {
  argc : Z;
  argv : list cstring
}.

(** [AMI_device(unsigned int count, char **strings)]. *)
Definition construct (count : Z) (strings : list cstring) : outcome AMI_device :=
  let argc := uint count in
  if bool_decide (argc ≠ 0) then
    if bool_decide (argc ≤ Z.of_nat (length strings))
    then Ok (mk_device argc (take (Z.to_nat argc) strings))
    else Undefined out_of_bounds
  else Ok (mk_device argc []).

(** [operator[]] does not check its index. *)
Definition index (dev : AMI_device) (i : nat) : outcome cstring :=
  match argv dev !! i with
  | Some s => Ok s
  | None => Undefined out_of_bounds
  end.

Definition arity (dev : AMI_device) : Z := argc dev.

(** [while (argc--) { delete argv[argc]; }]: a deleted string is dropped
    from the list. *)
Fixpoint delete_strings (fuel : nat) (argc : Z) (argv : list cstring)
    : outcome (Z * list cstring) :=
  match fuel with
  | O => Undefined out_of_fuel
  | S fuel' =>
      let test := argc in
      let argc := uint (argc - 1) in
      if bool_decide (test = 0) then Ok (argc, argv)
      else
        match argv !! Z.to_nat argc with
        | None => Undefined out_of_bounds
        | Some _ => delete_strings fuel' argc (take (Z.to_nat argc) argv)
        end
  end.

Definition dispose_contents (dev : AMI_device) : outcome AMI_device :=
  if bool_decide (argc dev ≠ 0) then
    r ← delete_strings (S (Z.to_nat (argc dev))) (argc dev) (argv dev);
    Ok (mk_device r.1 [])
  else Ok dev.

(** The loop that counts the components, [argc = 1] at its start: for each
    character [c] from [s] to the terminator, [if (c == ':') argc++]. *)
Fixpoint count_components (s : cstring) (argc : Z) : Z :=
  match s with
  | [] => argc
  | c :: s' =>
      count_components s' (if bool_decide (c = colon) then uint (argc + 1) else argc)
  end.

(** The loop that moves [s] on to the next colon or to the terminator. *)
Fixpoint skip_component (s : cstring) : cstring :=
  match s with
  | [] => []
  | c :: s' => if bool_decide (c ≠ colon) then skip_component s' else s
  end.

(** [++s] *)
Definition next (s : cstring) : char_ptr :=
  match s with
  | [] => None
  | _ :: s' => Some s'
  end.

(** The loop that copies the components; [s] and [t] are equal at the head
    of every iteration, and [s - t] is the number of characters skipped. *)
Fixpoint copy_components (fuel : nat) (ii argc : Z) (t : char_ptr)
    (argv : list cstring) : outcome (list cstring) :=
  match fuel with
  | O => Undefined out_of_fuel
  | S fuel' =>
      if bool_decide (ii < argc) then
        match t with
        | None => Undefined out_of_bounds
        | Some t =>
            let s := skip_component t in
            if bool_decide (head s = Some colon) || bool_decide (ii = uint (argc - 1))
            then
              let component := take (length t - length s) t in
              copy_components fuel' (uint (ii + 1)) argc (next s)
                (argv ++ [component])
            else Undefined assertion_failed
        end
      else Ok argv
  end.

Definition set_to_path (path : cstring) (dev : AMI_device)
    : outcome (AMI_err * AMI_device) :=
  dev ← dispose_contents dev;
  let argc := count_components path 1 in
  argv ← copy_components (S (Z.to_nat argc)) 0 argc (Some path) [];
  Ok (AMI_ERROR_NO_ERROR, mk_device argc argv).

(** The environment maps the names that are defined to their values. *)
Definition read_environment (env : gmap cstring cstring) (name : cstring)
    (dev : AMI_device) : outcome (AMI_err * AMI_device) :=
  match env !! name with
  | None => Ok (AMI_ERROR_ENV_UNDEFINED, dev)
  | Some env_value => set_to_path env_value dev
  end.

(** *** Properties of the device descriptor *)

(** A colon-separated list of paths: the paths, none of which holds a
    colon, with one colon between neighbours. *)
Fixpoint join (comps : list cstring) : cstring :=
  match comps with
  | [] => []
  | p :: ps =>
      match ps with
      | [] => p
      | _ :: _ => p ++ colon :: join ps
      end
  end.

Definition colon_free (p : cstring) : Prop := Forall (fun c => c ≠ colon) p.

Definition colons (s : cstring) : nat :=
  length (filter (fun c => c = colon) s).

(** The paths a colon-separated list is made of. *)
Fixpoint components (path : cstring) : list cstring :=
  match path with
  | [] => [[]]
  | c :: rest =>
      if bool_decide (c = colon) then [] :: components rest
      else
        match components rest with
        | p :: ps => (c :: p) :: ps
        | [] => [[c]]
        end
  end.

(** A device whose [argc] strings are allocated, as the two-argument
    constructor and [set_to_path] leave it. *)
Definition valid (dev : AMI_device) : Prop :=
  argc dev = Z.of_nat (length (argv dev)) ∧ argc dev < UINT_MOD.

Lemma uint_small z : 0 ≤ z < UINT_MOD → uint z = z.
Proof. intros H. unfold uint. by apply Z.mod_small. Qed.

Lemma components_not_nil path : components path ≠ [].
Proof.
  destruct path as [|c rest]; simpl; [done|].
  case_bool_decide; [done|]. by destruct (components rest).
Qed.

Lemma join_cons p ps : ps ≠ [] → join (p :: ps) = p ++ colon :: join ps.
Proof. by destruct ps. Qed.

Lemma join_components path : join (components path) = path.
Proof.
  induction path as [|c rest IH]; simpl; [done|].
  pose proof (components_not_nil rest) as Hne.
  case_bool_decide as Hc.
  - destruct (components rest) as [|q qs] eqn:E; [done|].
    rewrite join_cons by done. rewrite IH. by subst c.
  - destruct (components rest) as [|q qs] eqn:E; [done|].
    destruct qs as [|q' qs'].
    + simpl in *. by rewrite IH.
    + rewrite join_cons by done. rewrite join_cons in IH by done.
      by rewrite <- IH.
Qed.

Lemma components_colon_free path : Forall colon_free (components path).
Proof.
  induction path as [|c rest IH]; simpl.
  { repeat constructor. }
  case_bool_decide as Hc.
  - constructor; [constructor|done].
  - destruct (components rest) as [|q qs]; [repeat constructor; done|].
    apply Forall_cons in IH as [Hq Hqs].
    constructor; [by constructor|done].
Qed.

Lemma components_length path : length (components path) = S (colons path).
Proof.
  unfold colons. induction path as [|c rest IH]; [done|].
  cbn [components]. rewrite filter_cons.
  pose proof (components_not_nil rest) as Hne.
  destruct (decide (c = colon)) as [Hc|Hc].
  - rewrite bool_decide_eq_true_2 by done. simpl. by rewrite IH.
  - rewrite bool_decide_eq_false_2 by done.
    destruct (components rest) as [|q qs]; [done|]. simpl in *. done.
Qed.

Lemma delete_strings_all fuel : ∀ strings,
  Z.of_nat (length strings) < UINT_MOD →
  (length strings < fuel)%nat →
  delete_strings fuel (Z.of_nat (length strings)) strings = Ok (uint (-1), []).
Proof.
  induction fuel as [|fuel IH]; intros strings Hlen Hfuel; [lia|]. simpl.
  destruct (decide (Z.of_nat (length strings) = 0)) as [Hz|Hz].
  { rewrite bool_decide_eq_true_2 by done. rewrite Hz.
    destruct strings; [done|simpl in Hz; lia]. }
  rewrite bool_decide_eq_false_2 by done.
  rewrite uint_small by lia.
  replace (Z.to_nat (Z.of_nat (length strings) - 1))
    with (length strings - 1)%nat by lia.
  destruct (strings !! (length strings - 1)%nat) eqn:E.
  2:{ apply lookup_ge_None in E. lia. }
  assert (length (take (length strings - 1) strings) = (length strings - 1)%nat) as Htake.
  { rewrite length_take. lia. }
  replace (Z.of_nat (length strings) - 1)
    with (Z.of_nat (length (take (length strings - 1) strings))) by lia.
  apply IH; lia.
Qed.

Lemma dispose_contents_Ok dev :
  valid dev → ∃ dev', dispose_contents dev = Ok dev'.
Proof.
  intros [Hargc Hlt]. unfold dispose_contents.
  case_bool_decide; [|by eexists].
  rewrite Hargc, delete_strings_all; [by eexists|lia|lia].
Qed.

Lemma count_components_colons s : ∀ n,
  0 ≤ n → n + Z.of_nat (colons s) < UINT_MOD →
  count_components s n = n + Z.of_nat (colons s).
Proof.
  unfold colons. induction s as [|c s IH]; intros n Hn Hlt; [simpl; lia|].
  cbn [count_components]. rewrite filter_cons in *.
  destruct (decide (c = colon)) as [Hc|Hc]; simpl in Hlt |- *.
  - rewrite bool_decide_eq_true_2 by done.
    rewrite uint_small by lia. rewrite IH; lia.
  - rewrite bool_decide_eq_false_2 by done. by apply IH.
Qed.

Lemma skip_component_app p rest :
  colon_free p → (rest = [] ∨ head rest = Some colon) →
  skip_component (p ++ rest) = rest.
Proof.
  intros Hp Hrest. induction Hp as [|c p Hc _ IH]; simpl.
  - destruct Hrest as [->|Hhead]; [done|].
    destruct rest as [|c rest]; [done|]. simpl in *.
    injection Hhead as ->.
    by rewrite bool_decide_eq_false_2 by (intros H; by apply H).
  - by rewrite bool_decide_eq_true_2.
Qed.

Lemma copy_components_join comps : ∀ fuel ii n acc,
  comps ≠ [] → Forall colon_free comps →
  0 ≤ ii → ii + Z.of_nat (length comps) = n → n < UINT_MOD →
  (length comps < fuel)%nat →
  copy_components fuel ii n (Some (join comps)) acc = Ok (acc ++ comps).
Proof.
  induction comps as [|p ps IH]; intros fuel ii n acc Hne Hfree Hii Hn Hlt Hfuel;
    [done|].
  apply Forall_cons in Hfree as [Hp Hps].
  destruct fuel as [|fuel]; [simpl in Hfuel; lia|]. simpl in Hfuel, Hn.
  cbn [copy_components]. rewrite bool_decide_eq_true_2 by lia.
  destruct ps as [|q qs].
  - cbn [join].
    pose proof (skip_component_app p [] Hp (or_introl eq_refl)) as Hskip.
    rewrite app_nil_r in Hskip. rewrite Hskip. cbn [head length].
    simpl in Hn, Hfuel.
    rewrite (bool_decide_eq_true_2 (ii = _)) by (rewrite uint_small; lia).
    rewrite orb_true_r, Nat.sub_0_r, firstn_all. cbn [next].
    destruct fuel as [|fuel]; [lia|]. cbn [copy_components].
    rewrite bool_decide_eq_false_2; [done|]. rewrite uint_small; lia.
  - rewrite join_cons by done.
    rewrite skip_component_app by auto. cbn [head next].
    rewrite (bool_decide_eq_true_2 (Some colon = _)) by done. cbn [orb].
    rewrite length_app. cbn [length].
    replace (length p + S (length (join (q :: qs))) - S (length (join (q :: qs))))%nat
      with (length p) by lia.
    rewrite take_app_length. rewrite uint_small by (simpl in *; lia).
    rewrite (IH fuel (ii + 1) n (acc ++ [p])); try done; try (simpl in *; lia).
    by rewrite <- app_assoc.
Qed.

Lemma set_to_path_components path dev :
  valid dev → Z.of_nat (colons path) + 1 < UINT_MOD →
  set_to_path path dev
  = Ok (AMI_ERROR_NO_ERROR,
        mk_device (Z.of_nat (colons path) + 1) (components path)).
Proof.
  intros Hvalid Hlt. unfold set_to_path.
  destruct (dispose_contents_Ok dev Hvalid) as [dev' ->].
  cbn [mbind outcome_bind].
  rewrite count_components_colons by lia.
  pose proof (copy_components_join (components path)
                (S (Z.to_nat (1 + Z.of_nat (colons path)))) 0
                (1 + Z.of_nat (colons path)) []) as Hcopy.
  rewrite join_components in Hcopy. rewrite Hcopy.
  - simpl. do 3 f_equal. lia.
  - apply components_not_nil.
  - apply components_colon_free.
  - lia.
  - rewrite components_length. lia.
  - lia.
  - rewrite components_length. lia.
Qed.

Lemma components_app_colon p rest :
  colon_free p → components (p ++ colon :: rest) = p :: components rest.
Proof.
  intros Hp. induction Hp as [|c p Hc _ IH]; simpl.
  - done.
  - rewrite bool_decide_eq_false_2 by done. by rewrite IH.
Qed.

Lemma components_colon_free_path p : colon_free p → components p = [p].
Proof.
  intros Hp. induction Hp as [|c p Hc _ IH]; simpl; [done|].
  rewrite bool_decide_eq_false_2 by done. by rewrite IH.
Qed.

Lemma components_join comps :
  comps ≠ [] → Forall colon_free comps → components (join comps) = comps.
Proof.
  induction comps as [|p ps IH]; intros Hne Hfree; [done|].
  apply Forall_cons in Hfree as [Hp Hps].
  destruct ps as [|q qs].
  - simpl. by apply components_colon_free_path.
  - rewrite join_cons by done. rewrite components_app_colon by done.
    by rewrite IH.
Qed.

Lemma set_to_path_no_error path dev err dev' :
  set_to_path path dev = Ok (err, dev') → err = AMI_ERROR_NO_ERROR.
Proof.
  unfold set_to_path. destruct (dispose_contents dev); [|discriminate].
  cbn [mbind outcome_bind].
  destruct (copy_components _ _ _ _ _); [|discriminate].
  cbn [mbind outcome_bind]. by intros [= <- _].
Qed.

(** C7: on a device whose strings are allocated, [read_environment]
    returns the env-undefined kind, and leaves the device alone, when the
    name is not defined; when it is defined it does what [set_to_path] does
    on the value, and the kind it returns is env-undefined exactly when the
    name is not defined. [set_to_path] on the colon-separated list of the
    paths [comps] (at least one, none with a colon, fewer than 2^32)
    returns no-error and leaves a device whose arity is the number of
    paths, which is the number of colons plus one, and whose [i]-th string
    is the [i]-th path. *)
Theorem read_environment_loads_path (env : gmap (list ascii) (list ascii))
    (name : list ascii) (dev : AMI_device) :
  valid dev →
  (env !! name = None →
   read_environment env name dev = Ok (AMI_ERROR_ENV_UNDEFINED, dev))
  ∧ (∀ v, env !! name = Some v →
       read_environment env name dev = set_to_path v dev)
  ∧ (∀ err dev', read_environment env name dev = Ok (err, dev') →
       err = AMI_ERROR_ENV_UNDEFINED ↔ env !! name = None)
  ∧ (∀ comps,
       comps ≠ [] → Forall colon_free comps →
       Z.of_nat (length comps) < UINT_MOD →
       ∃ dev',
         set_to_path (join comps) dev = Ok (AMI_ERROR_NO_ERROR, dev')
         ∧ arity dev' = Z.of_nat (length comps)
         ∧ arity dev' = Z.of_nat (colons (join comps)) + 1
         ∧ (∀ i p, comps !! i = Some p → index dev' i = Ok p)
         ∧ valid dev').
Proof.
  intros Hvalid. unfold read_environment.
  split; [by intros ->|]. split; [by intros v ->|]. split.
  - intros err dev'. destruct (env !! name) as [v|] eqn:E.
    + intros ->%set_to_path_no_error. split; intros; done.
    + intros [= <- _]. split; intros; done.
  - intros comps Hne Hfree Hlen.
    pose proof (components_length (join comps)) as Hcount.
    rewrite components_join in Hcount by done.
    eexists. rewrite set_to_path_components; [|done|lia].
    rewrite components_join by done.
    split; [done|]. unfold arity, index, valid. simpl.
    split; [lia|]. split; [lia|]. split; [|lia].
    by intros i p ->.
Qed.

(** A device with no strings; the variable DEV set to two paths. *)
Definition empty_device : AMI_device := mk_device 0 [].

Definition sample_name : list ascii := list_ascii_of_string "DEV".
Definition sample_paths : list (list ascii) :=
  [list_ascii_of_string "/tmp"; list_ascii_of_string "/var/tmp"].
Definition sample_env : gmap (list ascii) (list ascii) :=
  {[ sample_name := list_ascii_of_string "/tmp:/var/tmp" ]}.

Lemma read_environment_loads_path_witness :
  ∃ dev',
    read_environment sample_env sample_name empty_device
    = Ok (AMI_ERROR_NO_ERROR, dev')
    ∧ arity dev' = 2
    ∧ index dev' 1 = Ok (list_ascii_of_string "/var/tmp").
Proof.
  destruct (read_environment_loads_path sample_env sample_name empty_device)
    as (_ & Hdefined & _ & Hpaths).
  { split; simpl; [reflexivity|unfold UINT_MOD; lia]. }
  destruct (Hpaths sample_paths) as (dev' & Hset & Harity & _ & Hindex & _).
  { discriminate. }
  { repeat constructor; discriminate. }
  { simpl. unfold UINT_MOD. lia. }
  exists dev'.
  rewrite (Hdefined (list_ascii_of_string "/tmp:/var/tmp")).
  - split; [exact Hset|]. split; [exact Harity|].
    apply (Hindex 1%nat). reflexivity.
  - apply lookup_singleton_eq.
Defined.

(** *** Printing and disposal *)

(** The loop of [operator<<]; [os] is what the stream has received. *)
Fixpoint print_loop (fuel : nat) (ii : Z) (dev : AMI_device) (os : cstring)
    : outcome cstring :=
  match fuel with
  | O => Undefined out_of_fuel
  | S fuel' =>
      if bool_decide (ii < argc dev) then
        match argv dev !! Z.to_nat ii with
        | None => Undefined out_of_bounds
        | Some s =>
            let os := os ++ s in
            let os :=
              if bool_decide (ii < uint (argc dev - 1)) then os ++ [colon]
              else os in
            print_loop fuel' (uint (ii + 1)) dev os
        end
      else Ok os
  end.

(** [operator<<] on an empty stream. *)
Definition print (dev : AMI_device) : outcome cstring :=
  print_loop (S (Z.to_nat (argc dev))) 0 dev [].

Lemma print_loop_join n : ∀ (rest printed : list cstring) fuel os,
  Z.of_nat (length (printed ++ rest)) = n → n < UINT_MOD →
  (length rest < fuel)%nat →
  print_loop fuel (Z.of_nat (length printed)) (mk_device n (printed ++ rest)) os
  = Ok (os ++ join rest).
Proof.
  induction rest as [|p ps IH]; intros printed fuel os Hn Hlt Hfuel;
    (destruct fuel as [|fuel]; [simpl in Hfuel; lia|]);
    rewrite length_app in Hn; simpl in Hn, Hfuel;
    cbn [print_loop argc argv].
  { rewrite bool_decide_eq_false_2 by lia. by rewrite app_nil_r. }
  rewrite bool_decide_eq_true_2 by lia.
  rewrite Nat2Z.id, list_lookup_middle by done.
  rewrite (uint_small (n - 1)) by lia.
  rewrite (uint_small (_ + 1)) by lia.
  replace (Z.of_nat (length printed) + 1)
    with (Z.of_nat (length (printed ++ [p])))
    by (rewrite length_app; simpl; lia).
  rewrite (cons_middle p printed ps), (assoc (++) printed).
  destruct ps as [|q qs].
  - rewrite bool_decide_eq_false_2 by (simpl in *; lia).
    rewrite (IH (printed ++ [p]) fuel (os ++ p)).
    + simpl. by rewrite app_nil_r.
    + rewrite !length_app. simpl in *. lia.
    + done.
    + simpl in *. lia.
  - rewrite bool_decide_eq_true_2 by (simpl in *; lia).
    rewrite (IH (printed ++ [p]) fuel ((os ++ p) ++ [colon])).
    + rewrite (join_cons p (q :: qs)) by done. by rewrite <- !(assoc (++)).
    + rewrite !length_app. simpl in *. lia.
    + done.
    + simpl in *. lia.
Qed.

Lemma print_valid dev : valid dev → print dev = Ok (join (argv dev)).
Proof.
  intros [Hargc Hlt]. destruct dev as [n strings]. simpl in *.
  unfold print. simpl.
  apply (print_loop_join n strings [] (S (Z.to_nat n)) []); simpl; lia.
Qed.

(** X11: printing a device writes its strings with one colon between
    neighbours, so printing after [set_to_path] gives the path back, with
    its empty components and all; a device built by the two-argument
    constructor prints the first [count] strings it was given. *)
Theorem print_gives_path_back path dev :
  valid dev → Z.of_nat (colons path) + 1 < UINT_MOD →
  (∃ dev', set_to_path path dev = Ok (AMI_ERROR_NO_ERROR, dev')
           ∧ print dev' = Ok path)
  ∧ print dev = Ok (join (argv dev))
  ∧ (∀ count strings,
       0 ≤ count ≤ Z.of_nat (length strings) → count < UINT_MOD →
       ∃ dev', construct count strings = Ok dev'
               ∧ arity dev' = count
               ∧ print dev' = Ok (join (take (Z.to_nat count) strings))).
Proof.
  intros Hvalid Hlt. split; [|split].
  - eexists. split; [by apply set_to_path_components|].
    rewrite print_valid.
    + simpl. by rewrite join_components.
    + split; simpl; [|lia]. rewrite components_length. lia.
  - by apply print_valid.
  - intros count strings Hcount Hlt'. unfold construct.
    rewrite uint_small by lia.
    destruct (decide (count = 0)) as [->|Hz].
    + rewrite bool_decide_eq_false_2 by lia. eexists. split; [done|].
      split; [done|]. reflexivity.
    + rewrite bool_decide_eq_true_2 by done.
      rewrite bool_decide_eq_true_2 by lia. eexists. split; [done|].
      split; [done|]. rewrite print_valid; [done|].
      split; simpl; [|done]. rewrite length_take. lia.
Qed.

(** X12: [dispose_contents] is not safe to call twice. On a device that
    holds strings it frees them and leaves [argc] at 2^32 - 1, the value
    the post-decrement of the loop wraps to; a second call, such as the
    one of the destructor, then indexes the freed array. On a device
    without strings it does nothing. *)
Theorem dispose_contents_twice dev :
  valid dev →
  (argc dev = 0 → dispose_contents dev = Ok dev)
  ∧ (argc dev ≠ 0 →
     ∃ dev', dispose_contents dev = Ok dev'
             ∧ argc dev' = UINT_MOD - 1 ∧ argv dev' = []
             ∧ dispose_contents dev' = Undefined out_of_bounds).
Proof.
  intros [Hargc Hlt]. split.
  - intros Hz. unfold dispose_contents. by rewrite bool_decide_eq_false_2 by lia.
  - intros Hnz. unfold dispose_contents at 1.
    rewrite bool_decide_eq_true_2 by done.
    rewrite Hargc, delete_strings_all by lia.
    cbn [mbind outcome_bind fst snd]. eexists. split; [done|].
    split; [reflexivity|]. split; [reflexivity|].
    unfold dispose_contents. cbn [argc argv].
    assert (uint (-1) = 4294967295) as -> by reflexivity.
    rewrite bool_decide_eq_true_2 by lia.
    cbn [delete_strings].
    rewrite bool_decide_eq_false_2 by lia.
    by rewrite lookup_nil.
Qed.

Lemma print_gives_path_back_witness :
  ∃ dev',
    set_to_path (list_ascii_of_string "/tmp::/var/tmp:") empty_device
    = Ok (AMI_ERROR_NO_ERROR, dev')
    ∧ print dev' = Ok (list_ascii_of_string "/tmp::/var/tmp:").
Proof.
  apply (print_gives_path_back (list_ascii_of_string "/tmp::/var/tmp:")
           empty_device).
  - split; simpl; [reflexivity|unfold UINT_MOD; lia].
  - vm_compute. reflexivity.
Defined.

Lemma dispose_contents_twice_witness :
  ∃ dev',
    dispose_contents (mk_device 2 sample_paths) = Ok dev'
    ∧ argc dev' = UINT_MOD - 1
    ∧ dispose_contents dev' = Undefined out_of_bounds.
Proof.
  destruct (dispose_contents_twice (mk_device 2 sample_paths)) as [_ H].
  { split; simpl; [reflexivity|unfold UINT_MOD; lia]. }
  destruct H as (dev' & H1 & H2 & _ & H3); [simpl; lia|].
  exists dev'. split; [exact H1|]. split; [exact H2|exact H3].
Defined.

End AmiDevice.

(** ** Parallel sort (parallel_sort.h) *)

Module ParallelSort.

Local Open Scope nat_scope.

Section Sort.

(** The value type, the comparator, the template parameter [min_size], and
    [std::sort] as it acts on the contents of a range under [comp]. An
    iterator is a position in the array [arr] that holds the records. *)
Context {T : Type}.
Variable comp : T → T → bool.
Variable min_size : nat.
Variable std_sort : list T → list T.

Definition deref (arr : list T) (i : nat) : outcome T :=
  match arr !! i with
  | Some x => Ok x
  | None => Undefined out_of_bounds
  end.

Definition iter_swap (arr : list T) (i j : nat) : outcome (list T) :=
  x ← deref arr i;
  y ← deref arr j;
  Ok (<[i := y]> (<[j := x]> arr)).

(** [do --last; while (comp( *pivot, *last ));] *)
Fixpoint scan_down (arr : list T) (pivot last : nat) : outcome nat :=
  match last with
  | O => Undefined out_of_bounds
  | S last =>
      vp ← deref arr pivot;
      vl ← deref arr last;
      if comp vp vl then scan_down arr pivot last else Ok last
  end.

(** [do { if (first == last) break; ++first; } while (comp( *first, *pivot ));] *)
Fixpoint scan_up (fuel : nat) (arr : list T) (pivot first last : nat)
    : outcome nat :=
  match fuel with
  | O => Undefined out_of_fuel
  | S fuel =>
      if bool_decide (first = last) then Ok first
      else
        let first := S first in
        vf ← deref arr first;
        vp ← deref arr pivot;
        if comp vf vp then scan_up fuel arr pivot first last else Ok first
  end.

(** The [while (true)] loop of [unguarded_partition]; it returns the array
    and [last]. *)
Fixpoint partition_loop (fuel : nat) (arr : list T) (pivot first last : nat)
    : outcome (list T * nat) :=
  match fuel with
  | O => Undefined out_of_fuel
  | S fuel =>
      last ← scan_down arr pivot last;
      first ← scan_up (S (length arr)) arr pivot first last;
      if bool_decide (first = last) then Ok (arr, last)
      else
        arr ← iter_swap arr first last;
        partition_loop fuel arr pivot first last
  end.

Definition unguarded_partition (arr : list T) (first last : nat)
    : outcome (list T * nat) :=
  let pivot := first in
  r ← partition_loop (S (length arr)) arr pivot first last;
  arr ← iter_swap r.1 r.2 pivot;
  Ok (arr, r.2).

Definition median (arr : list T) (a b c : nat) : outcome nat :=
  va ← deref arr a;
  vb ← deref arr b;
  vc ← deref arr c;
  if comp va vb then
    if comp vb vc then Ok b
    else if comp va vc then Ok c
    else Ok a
  else
    if comp va vc then Ok a
    else if comp vb vc then Ok c
    else Ok b.

Definition pick_pivot (arr : list T) (a b : nat) : outcome nat :=
  if bool_decide (a = b) then Ok a
  else if bool_decide (a < b) then
    let step := (b - a) / 8 in
    m1 ← median arr (a + 0) (a + step) (a + step * 2);
    m2 ← median arr (a + step * 3) (a + step * 4) (a + step * 5);
    m3 ← median arr (a + step * 6) (a + step * 7) (b - 1);
    median arr m1 m2 m3
  else Undefined assertion_failed.

Definition partition (arr : list T) (a b : nat) : outcome (list T * nat) :=
  pivot ← pick_pivot arr a b;
  arr ← iter_swap arr pivot a;
  unguarded_partition arr a b.

(** The contents of the range [a, b), and [std::sort(a, b, comp)]. *)
Definition range (arr : list T) (a b : nat) : list T :=
  take (b - a) (drop a arr).

Definition sort_range (arr : list T) (a b : nat) : list T :=
  take a arr ++ std_sort (range arr a b) ++ drop b arr.

(** A [qsort_job]: the range [job_a, job_b) it still has to sort (the
    members [a] and [b]; the comparator is the one of the section, the
    parent pointer and the progress record do not touch the array). *)
Record qsort_job : Type := mk_job { job_a : nat; job_b : nat }.

(** One turn of the loop of [qsort_job::operator()]: while the range is
    at least [min_size] long it is partitioned, a child job is enqueued
    for [a, pivot) and the job goes on with [a = pivot + 1]; once the
    range is shorter the job sorts it sequentially and is done. The turn
    returns the array and the jobs that are left of this one: the child
    and the job itself, or none. The progress accounting, which only feeds
    the progress indicator, is left out. *)
Definition turn (arr : list T) (j : qsort_job)
    : outcome (list T * list qsort_job) :=
  if bool_decide (job_a j ≤ job_b j) then
    if bool_decide (min_size ≤ job_b j - job_a j) then
      r ← partition arr (job_a j) (job_b j);
      let pivot := r.2 in
      Ok (r.1, [mk_job (job_a j) pivot; mk_job (pivot + 1) (job_b j)])
    else Ok (sort_range arr (job_a j) (job_b j), [])
  else Undefined assertion_failed.

(** Modelled from the spec: the worker pool (job.h) is not among the
    sources. Enqueued jobs may start at any time and run side by side;
    only completion is ordered, and [join] on the master job returns once
    it and all its descendants are done. The pool is the list of the jobs
    that are not done; each step gives one turn to the job the schedule
    picks, and the run ends when no job is left. *)
Fixpoint run_jobs (fuel : nat) (schedule : list nat) (arr : list T)
    (jobs : list qsort_job) : outcome (list T) :=
  match jobs with
  | [] => Ok arr
  | _ :: _ =>
      match fuel with
      | O => Undefined out_of_fuel
      | S fuel =>
          let n := hd 0 schedule mod length jobs in
          match jobs !! n with
          | None => Undefined out_of_bounds
          | Some j =>
              r ← turn arr j;
              run_jobs fuel (tl schedule) r.1 (r.2 ++ delete n jobs)
          end
      end
  end.

(** [parallel_sort_impl::operator()]: a short range is sorted on the
    spot; otherwise the master job is enqueued and joined. *)
Definition parallel_sort (schedule : list nat) (arr : list T) (a b : nat)
    : outcome (list T) :=
  if bool_decide (b - a < min_size) then Ok (sort_range arr a b)
  else run_jobs (2 * (b - a) + 1) schedule arr [mk_job a b].

End Sort.

(** A sequential sort to run the model with: insertion from the right. *)
Fixpoint insert_sorted {T} (comp : T → T → bool) (x : T) (l : list T) : list T :=
  match l with
  | [] => [x]
  | y :: l' => if comp y x then y :: insert_sorted comp x l' else x :: l
  end.

Definition insertion_sort {T} (comp : T → T → bool) (l : list T) : list T :=
  foldr (insert_sorted comp) [] l.

(** *** Properties of the parallel sort *)

(** What C++ asks of a comparator: a strict weak ordering. *)
Record strict_weak_order {T} (comp : T → T → bool) : Prop := {
  swo_irrefl : ∀ x, comp x x = false;
  swo_trans : ∀ x y z, comp x y = true → comp y z = true → comp x z = true;
  swo_incomparable : ∀ x y z,
    comp x y = false → comp y x = false →
    comp y z = false → comp z y = false →
    comp x z = false ∧ comp z x = false
}.

(** [l] is sorted: for all [i < j], not [comp(l[j], l[i])]. *)
Definition sorted {T} (comp : T → T → bool) (l : list T) : Prop :=
  ∀ i j x y, i < j → l !! i = Some x → l !! j = Some y → comp y x = false.

Section SortProperties.

Context {T : Type}.
Variable comp : T → T → bool.
Implicit Types (arr : list T) (x y pv : T) (a b i j : nat).

Lemma deref_Ok arr i x : arr !! i = Some x → deref arr i = Ok x.
Proof. intros H. unfold deref. by rewrite H. Qed.

Lemma iter_swap_Ok arr i j x y :
  arr !! i = Some x → arr !! j = Some y →
  iter_swap arr i j = Ok (<[i := y]> (<[j := x]> arr)).
Proof.
  intros Hi Hj. unfold iter_swap.
  rewrite (deref_Ok _ _ _ Hi), (deref_Ok _ _ _ Hj). done.
Qed.

Lemma insert_head_Permutation arr j x y :
  arr !! j = Some y → y :: <[j := x]> arr ≡ₚ x :: arr.
Proof.
  revert j. induction arr as [|z arr IH]; intros [|j] Hj; simpl in *; try done.
  - injection Hj as ->. apply perm_swap.
  - rewrite perm_swap. rewrite (IH j Hj). apply perm_swap.
Qed.

Lemma swap_Permutation arr : ∀ i j x y,
  arr !! i = Some x → arr !! j = Some y →
  <[i := y]> (<[j := x]> arr) ≡ₚ arr.
Proof.
  induction arr as [|z arr IH]; intros [|i] [|j] x y Hi Hj; simpl in *; try done.
  - by injection Hj as ->.
  - injection Hi as ->. by apply insert_head_Permutation.
  - injection Hj as ->. by apply insert_head_Permutation.
  - by rewrite (IH i j x y).
Qed.

Lemma swap_lookup_other arr i j k x y :
  k ≠ i → k ≠ j → <[i := y]> (<[j := x]> arr) !! k = arr !! k.
Proof. intros Hi Hj. by rewrite !list_lookup_insert_ne. Qed.

Lemma swap_length arr i j x y : length (<[i := y]> (<[j := x]> arr)) = length arr.
Proof. by rewrite !length_insert. Qed.

(** The element at position [i] is not after the element at position [j]. *)
Definition le_at arr i j : Prop :=
  ∃ x y, arr !! i = Some x ∧ arr !! j = Some y ∧ comp y x = false.

(** Position [m] holds a median of the elements at [i], [j] and [k]: it is
    one of the three, and of the other two one is not after it and one is
    not before it. *)
Definition is_median arr m i j k : Prop :=
  ∃ lo hi, [lo; m; hi] ≡ₚ [i; j; k] ∧ le_at arr lo m ∧ le_at arr m hi.

Ltac perm3 :=
  solve
    [ reflexivity
    | apply perm_swap
    | apply perm_skip, perm_swap
    | etrans; [apply perm_swap|]; apply perm_skip, perm_swap
    | etrans; [apply perm_skip, perm_swap|]; apply perm_swap
    | etrans; [apply perm_skip, perm_swap|]; etrans; [apply perm_swap|];
      apply perm_skip, perm_swap ].

Lemma median_index arr a b c va vb vc :
  arr !! a = Some va → arr !! b = Some vb → arr !! c = Some vc →
  ∃ m, median comp arr a b c = Ok m ∧ (m = a ∨ m = b ∨ m = c).
Proof.
  intros Ha Hb Hc. unfold median.
  rewrite (deref_Ok _ _ _ Ha), (deref_Ok _ _ _ Hb), (deref_Ok _ _ _ Hc).
  cbn [mbind outcome_bind].
  destruct (comp va vb), (comp vb vc), (comp va vc); eauto.
Qed.

Lemma median_spec arr a b c va vb vc :
  (∀ x y, comp x y = true → comp y x = false) →
  arr !! a = Some va → arr !! b = Some vb → arr !! c = Some vc →
  ∃ m, median comp arr a b c = Ok m ∧ is_median arr m a b c.
Proof.
  intros Hasym Ha Hb Hc. unfold median.
  rewrite (deref_Ok _ _ _ Ha), (deref_Ok _ _ _ Hb), (deref_Ok _ _ _ Hc).
  cbn [mbind outcome_bind]. unfold is_median, le_at.
  destruct (comp va vb) eqn:Hab; [destruct (comp vb vc) eqn:Hbc|];
    [ |destruct (comp va vc) eqn:Hac|destruct (comp va vc) eqn:Hac];
    [ | | | |destruct (comp vb vc) eqn:Hbc].
  - exists b. split; [done|]. exists a, c. split; [perm3|].
    split; [exists va, vb|exists vb, vc]; auto.
  - exists c. split; [done|]. exists a, b. split; [perm3|].
    split; [exists va, vc|exists vc, vb]; auto.
  - exists a. split; [done|]. exists c, b. split; [perm3|].
    split; [exists vc, va|exists va, vb]; auto.
  - exists a. split; [done|]. exists b, c. split; [perm3|].
    split; [exists vb, va|exists va, vc]; auto.
  - exists c. split; [done|]. exists b, a. split; [perm3|].
    split; [exists vb, vc|exists vc, va]; auto.
  - exists b. split; [done|]. exists c, a. split; [perm3|].
    split; [exists vc, vb|exists vb, va]; auto.
Qed.

Lemma sample_positions a b :
  a < b → a + (b - a) / 8 * 7 < b.
Proof.
  intros Hab. pose proof (Nat.Div0.mul_div_le (b - a) 8). lia.
Qed.

Lemma pick_pivot_range arr a b :
  a < b → b ≤ length arr →
  ∃ m, pick_pivot comp arr a b = Ok m ∧ a ≤ m < b.
Proof.
  intros Hab Hlen. unfold pick_pivot.
  rewrite bool_decide_eq_false_2 by lia. rewrite bool_decide_eq_true_2 by done.
  pose proof (sample_positions a b Hab) as Hs.
  set (s := (b - a) / 8) in *.
  assert (Hget : ∀ i, i < b → ∃ x, arr !! i = Some x).
  { intros i Hi. apply lookup_lt_is_Some_2. lia. }
  destruct (Hget (a + 0)) as [x0 H0]; [lia|].
  destruct (Hget (a + s)) as [x1 H1]; [lia|].
  destruct (Hget (a + s * 2)) as [x2 H2]; [lia|].
  destruct (Hget (a + s * 3)) as [x3 H3]; [lia|].
  destruct (Hget (a + s * 4)) as [x4 H4]; [lia|].
  destruct (Hget (a + s * 5)) as [x5 H5]; [lia|].
  destruct (Hget (a + s * 6)) as [x6 H6]; [lia|].
  destruct (Hget (a + s * 7)) as [x7 H7]; [lia|].
  destruct (Hget (b - 1)) as [x8 H8]; [lia|].
  destruct (median_index arr _ _ _ _ _ _ H0 H1 H2) as (m1 & -> & Hm1).
  destruct (median_index arr _ _ _ _ _ _ H3 H4 H5) as (m2 & -> & Hm2).
  destruct (median_index arr _ _ _ _ _ _ H6 H7 H8) as (m3 & -> & Hm3).
  cbn [mbind outcome_bind].
  destruct (Hget m1) as [y1 Hy1]; [lia|].
  destruct (Hget m2) as [y2 Hy2]; [lia|].
  destruct (Hget m3) as [y3 Hy3]; [lia|].
  destruct (median_index arr _ _ _ _ _ _ Hy1 Hy2 Hy3) as (m & -> & Hm).
  exists m. split; [done|]. lia.
Qed.

(** C5: on an empty range [pick_pivot] returns [a]. On a range of length
    [n > 0], with [s = n / 8] and a comparator that never orders two
    elements both ways, it returns a median of [m1], [m2] and [m3], where
    [m1] is a median of the positions [a + 0], [a + s], [a + 2 s], [m2] one
    of [a + 3 s], [a + 4 s], [a + 5 s], and [m3] one of [a + 6 s],
    [a + 7 s], [b - 1]. *)
Theorem pick_pivot_ninther arr a b :
  (∀ x y, comp x y = true → comp y x = false) →
  a ≤ b → b ≤ length arr →
  (a = b → pick_pivot comp arr a b = Ok a)
  ∧ (a < b →
     ∃ m1 m2 m3 p,
       pick_pivot comp arr a b = Ok p
       ∧ is_median arr m1 (a + 0) (a + (b - a) / 8) (a + (b - a) / 8 * 2)
       ∧ is_median arr m2 (a + (b - a) / 8 * 3) (a + (b - a) / 8 * 4)
           (a + (b - a) / 8 * 5)
       ∧ is_median arr m3 (a + (b - a) / 8 * 6) (a + (b - a) / 8 * 7) (b - 1)
       ∧ is_median arr p m1 m2 m3).
Proof.
  intros Hasym Hle Hlen. split.
  { intros ->. unfold pick_pivot. by rewrite bool_decide_eq_true_2. }
  intros Hab. unfold pick_pivot.
  rewrite bool_decide_eq_false_2 by lia. rewrite bool_decide_eq_true_2 by done.
  pose proof (sample_positions a b Hab) as Hs.
  set (s := (b - a) / 8) in *.
  assert (Hget : ∀ i, i < b → ∃ x, arr !! i = Some x).
  { intros i Hi. apply lookup_lt_is_Some_2. lia. }
  destruct (Hget (a + 0)) as [x0 H0]; [lia|].
  destruct (Hget (a + s)) as [x1 H1]; [lia|].
  destruct (Hget (a + s * 2)) as [x2 H2]; [lia|].
  destruct (Hget (a + s * 3)) as [x3 H3]; [lia|].
  destruct (Hget (a + s * 4)) as [x4 H4]; [lia|].
  destruct (Hget (a + s * 5)) as [x5 H5]; [lia|].
  destruct (Hget (a + s * 6)) as [x6 H6]; [lia|].
  destruct (Hget (a + s * 7)) as [x7 H7]; [lia|].
  destruct (Hget (b - 1)) as [x8 H8]; [lia|].
  destruct (median_spec arr _ _ _ _ _ _ Hasym H0 H1 H2) as (m1 & E1 & Hm1).
  destruct (median_spec arr _ _ _ _ _ _ Hasym H3 H4 H5) as (m2 & E2 & Hm2).
  destruct (median_spec arr _ _ _ _ _ _ Hasym H6 H7 H8) as (m3 & E3 & Hm3).
  rewrite E1, E2, E3. cbn [mbind outcome_bind].
  assert (Hin : ∀ m i j k, is_median arr m i j k → ∃ y, arr !! m = Some y).
  { intros m i j k (lo & hi & _ & _ & (y & _ & Hy & _)). eauto. }
  destruct (Hin _ _ _ _ Hm1) as [y1 Hy1].
  destruct (Hin _ _ _ _ Hm2) as [y2 Hy2].
  destruct (Hin _ _ _ _ Hm3) as [y3 Hy3].
  destruct (median_spec arr _ _ _ _ _ _ Hasym Hy1 Hy2 Hy3) as (p & E & Hp).
  exists m1, m2, m3, p. done.
Qed.

Section Order.

Hypothesis comp_swo : strict_weak_order comp.

Lemma comp_asym x y : comp x y = true → comp y x = false.
Proof.
  intros Hxy. destruct (comp y x) eqn:Hyx; [|done].
  pose proof (swo_trans comp comp_swo x y x Hxy Hyx) as H.
  by rewrite (swo_irrefl comp comp_swo) in H.
Qed.

(** Negative transitivity: the elements not after [y] are not after the
    elements not before it. *)
Lemma comp_between x y z :
  comp y x = false → comp z y = false → comp z x = false.
Proof.
  intros Hyx Hzy. destruct (comp z x) eqn:Hzx; [|done]. exfalso.
  destruct (comp x y) eqn:Hxy.
  { pose proof (swo_trans comp comp_swo z x y Hzx Hxy). congruence. }
  destruct (comp y z) eqn:Hyz.
  { pose proof (swo_trans comp comp_swo y z x Hyz Hzx). congruence. }
  destruct (swo_incomparable comp comp_swo z y x Hzy Hyz Hyx Hxy). congruence.
Qed.

(** [scan_down] stops at the first position below [last] whose element is
    not after the pivot; [lo] is a position known to hold such an element. *)
Lemma scan_down_spec arr pivot pv lo : ∀ hi,
  arr !! pivot = Some pv →
  lo < hi → hi ≤ length arr →
  (∃ x, arr !! lo = Some x ∧ comp pv x = false) →
  ∃ hi',
    scan_down comp arr pivot hi = Ok hi'
    ∧ lo ≤ hi' < hi
    ∧ (∃ x, arr !! hi' = Some x ∧ comp pv x = false)
    ∧ (∀ i x, hi' < i < hi → arr !! i = Some x → comp pv x = true).
Proof.
  induction hi as [|hi IH]; intros Hpv Hlo Hlen (xlo & Hxlo & Hclo); [lia|].
  simpl. rewrite (deref_Ok _ _ _ Hpv). simpl.
  destruct (lookup_lt_is_Some_2 arr hi) as [vl Hvl]; [lia|].
  rewrite (deref_Ok _ _ _ Hvl). simpl.
  destruct (comp pv vl) eqn:Hc.
  - assert (lo ≠ hi) by (intros ->; congruence).
    destruct IH as (hi' & -> & Hrange & Hstop & Hskip); [done|lia|lia|eauto|].
    exists hi'. split; [done|]. split; [lia|]. split; [done|].
    intros i x Hi Hx. destruct (decide (i = hi)) as [->|]; [congruence|].
    apply (Hskip i); [lia|done].
  - exists hi. split; [done|]. split; [lia|]. split; [eauto|].
    intros i x Hi. lia.
Qed.

(** [scan_up] stops at [last] or at the first position above [first] whose
    element is not before the pivot. *)
Lemma scan_up_spec arr pivot pv last : ∀ fuel first,
  arr !! pivot = Some pv →
  first ≤ last → last < length arr → last - first < fuel →
  ∃ first',
    scan_up comp fuel arr pivot first last = Ok first'
    ∧ first ≤ first' ≤ last
    ∧ (∀ i x, first < i < first' → arr !! i = Some x → comp x pv = true)
    ∧ (first' = last
       ∨ first < first' ∧ ∃ x, arr !! first' = Some x ∧ comp x pv = false).
Proof.
  induction fuel as [|fuel IH]; intros first Hpv Hle Hlen Hfuel; [lia|].
  simpl. destruct (decide (first = last)) as [->|Hne].
  { rewrite bool_decide_eq_true_2 by done. exists last.
    split; [done|]. split; [lia|]. split; [intros; lia|by left]. }
  rewrite bool_decide_eq_false_2 by done.
  destruct (lookup_lt_is_Some_2 arr (S first)) as [vf Hvf]; [lia|].
  rewrite (deref_Ok _ _ _ Hvf). simpl.
  rewrite (deref_Ok _ _ _ Hpv). simpl.
  destruct (comp vf pv) eqn:Hc.
  - destruct (IH (S first)) as (first' & -> & Hrange & Hskip & Hstop);
      [done|lia|lia|lia|].
    exists first'. split; [done|]. split; [lia|]. split.
    + intros i x Hi Hx. destruct (decide (i = S first)) as [->|]; [congruence|].
      apply (Hskip i); [lia|done].
    + destruct Hstop as [?|[? ?]]; [by left|right; split; [lia|done]].
  - exists (S first). split; [done|]. split; [lia|]. split; [intros; lia|].
    right. split; [lia|eauto].
Qed.

(** No element of [a, b) is after [pv]; no element of [a, b) is before it. *)
Definition not_after pv arr a b : Prop :=
  ∀ i x, a ≤ i < b → arr !! i = Some x → comp pv x = false.
Definition not_before pv arr a b : Prop :=
  ∀ i x, a ≤ i < b → arr !! i = Some x → comp x pv = false.

(** The loop of [unguarded_partition] with the pivot at [a]: the elements
    up to [first] are not after the pivot, those from [lst] on are not
    before it. *)
Lemma partition_loop_spec pv a b : ∀ fuel arr first lst,
  arr !! a = Some pv →
  a ≤ first → first < lst → lst ≤ b → b ≤ length arr →
  not_after pv arr a (S first) → not_before pv arr lst b →
  lst - first ≤ fuel →
  ∃ arr' p,
    partition_loop comp fuel arr a first lst = Ok (arr', p)
    ∧ first ≤ p < lst
    ∧ arr' ≡ₚ arr ∧ length arr' = length arr
    ∧ (∀ i, i ≤ a ∨ b ≤ i → arr' !! i = arr !! i)
    ∧ not_after pv arr' a (S p) ∧ not_before pv arr' (S p) b.
Proof.
  induction fuel as [|fuel IH];
    intros arr first lst Hpv Ha Hlt Hb Hlen Hlow Hhigh Hfuel; [lia|].
  cbn [partition_loop].
  destruct (lookup_lt_is_Some_2 arr first) as [x0 Hx0]; [lia|].
  destruct (scan_down_spec arr a pv first lst)
    as (l1 & -> & Hr1 & (y1 & Hy1 & Hcy1) & Hskip1); [done|lia|lia| |].
  { exists x0. split; [done|]. apply (Hlow first); [lia|done]. }
  cbn [mbind outcome_bind].
  destruct (scan_up_spec arr a pv l1 (S (length arr)) first)
    as (f1 & -> & Hr2 & Hskip2 & Hstop2); [done|lia|lia|lia|].
  cbn [mbind outcome_bind].
  assert (Hleft : ∀ i x, a ≤ i < f1 → arr !! i = Some x → comp pv x = false).
  { intros i x Hi Hx. destruct (decide (i ≤ first)).
    - apply (Hlow i); [lia|done].
    - apply comp_asym. apply (Hskip2 i); [lia|done]. }
  assert (Hright : ∀ i x, l1 < i < b → arr !! i = Some x → comp x pv = false).
  { intros i x Hi Hx. destruct (decide (i < lst)).
    - apply comp_asym. apply (Hskip1 i); [lia|done].
    - apply (Hhigh i); [lia|done]. }
  destruct (decide (f1 = l1)) as [->|Hne].
  - rewrite bool_decide_eq_true_2 by done. exists arr, l1.
    split; [done|]. split; [lia|]. split; [done|]. split; [done|].
    split; [done|]. split.
    + intros i x Hi Hx. destruct (decide (i = l1)) as [->|].
      * congruence.
      * apply (Hleft i); [lia|done].
    + intros i x Hi Hx. apply (Hright i); [lia|done].
  - rewrite bool_decide_eq_false_2 by done.
    destruct Hstop2 as [?|[Hf1 (x1 & Hx1 & Hcx1)]]; [done|].
    rewrite (iter_swap_Ok arr f1 l1 x1 y1 Hx1 Hy1).
    cbn [mbind outcome_bind].
    set (arr1 := <[f1 := y1]> (<[l1 := x1]> arr)).
    assert (Hother : ∀ i, i ≠ f1 → i ≠ l1 → arr1 !! i = arr !! i).
    { intros i ? ?. by apply swap_lookup_other. }
    assert (Hf : arr1 !! f1 = Some y1).
    { apply list_lookup_insert_eq. rewrite length_insert. lia. }
    assert (Hl : arr1 !! l1 = Some x1).
    { unfold arr1. rewrite list_lookup_insert_ne by done.
      apply list_lookup_insert_eq. lia. }
    destruct (IH arr1 f1 l1)
      as (arr' & p & -> & Hp & Hperm & Hlen' & Hframe & Hlow' & Hhigh').
    + rewrite Hother by lia. done.
    + lia.
    + lia.
    + lia.
    + subst arr1. rewrite !length_insert. done.
    + intros i x Hi Hx. destruct (decide (i = f1)) as [->|].
      * congruence.
      * rewrite Hother in Hx by lia. apply (Hleft i); [lia|done].
    + intros i x Hi Hx. destruct (decide (i = l1)) as [->|].
      * congruence.
      * rewrite Hother in Hx by lia. apply (Hright i); [lia|done].
    + lia.
    + exists arr', p. split; [done|]. split; [lia|]. split.
      { rewrite Hperm. by apply swap_Permutation. }
      split; [rewrite Hlen'; unfold arr1; by rewrite !length_insert|].
      split; [|done].
      intros i Hi. rewrite Hframe by done. apply Hother; lia.
Qed.

(** [unguarded_partition] on a non-empty range whose first element is the
    pivot: the pivot ends at the returned position, after the elements that
    are not after it and before the elements that are not before it. *)
Lemma unguarded_partition_spec arr a b pv :
  arr !! a = Some pv → a < b → b ≤ length arr →
  ∃ arr' p,
    unguarded_partition comp arr a b = Ok (arr', p)
    ∧ a ≤ p < b
    ∧ arr' ≡ₚ arr ∧ length arr' = length arr
    ∧ (∀ i, i < a ∨ b ≤ i → arr' !! i = arr !! i)
    ∧ arr' !! p = Some pv
    ∧ not_after pv arr' a p ∧ not_before pv arr' (S p) b.
Proof.
  intros Hpv Hab Hlen. unfold unguarded_partition.
  destruct (partition_loop_spec pv a b (S (length arr)) arr a b)
    as (arr1 & p & -> & Hp & Hperm & Hlen1 & Hframe & Hlow & Hhigh);
    [done|lia|lia|lia|lia| | |lia|].
  { intros i x Hi Hx. assert (i = a) as -> by lia.
    assert (x = pv) as -> by congruence. apply (swo_irrefl comp comp_swo). }
  { intros i x Hi. lia. }
  cbn [mbind outcome_bind fst snd].
  destruct (lookup_lt_is_Some_2 arr1 p) as [y Hy]; [lia|].
  assert (Hpv1 : arr1 !! a = Some pv) by (rewrite Hframe by lia; done).
  rewrite (iter_swap_Ok arr1 p a y pv Hy Hpv1).
  cbn [mbind outcome_bind].
  set (arr' := <[p := pv]> (<[a := y]> arr1)).
  assert (Hother : ∀ i, i ≠ p → i ≠ a → arr' !! i = arr1 !! i).
  { intros i ? ?. by apply swap_lookup_other. }
  exists arr', p. split; [done|]. split; [lia|]. split.
  { unfold arr'. rewrite swap_Permutation; done. }
  split; [unfold arr'; by rewrite swap_length|].
  split.
  { intros i Hi. rewrite Hother by lia. apply Hframe. lia. }
  split.
  { apply list_lookup_insert_eq. rewrite length_insert. lia. }
  split.
  - intros i x Hi Hx. destruct (decide (i = a)) as [->|].
    + assert (arr' !! a = Some y) as Ha'.
      { unfold arr'. rewrite list_lookup_insert_ne by lia.
        apply list_lookup_insert_eq. lia. }
      assert (x = y) as -> by congruence.
      apply (Hlow p); [lia|done].
    + rewrite Hother in Hx by lia. apply (Hlow i); [lia|done].
  - intros i x Hi Hx. rewrite Hother in Hx by lia.
    apply (Hhigh i); [lia|done].
Qed.

Lemma partition_spec arr a b :
  a < b → b ≤ length arr →
  ∃ arr' p pv,
    partition comp arr a b = Ok (arr', p)
    ∧ a ≤ p < b
    ∧ arr' ≡ₚ arr ∧ length arr' = length arr
    ∧ (∀ i, i < a ∨ b ≤ i → arr' !! i = arr !! i)
    ∧ arr' !! p = Some pv
    ∧ not_after pv arr' a p ∧ not_before pv arr' (S p) b.
Proof.
  intros Hab Hlen. unfold partition.
  destruct (pick_pivot_range arr a b Hab Hlen) as (m & -> & Hm).
  cbn [mbind outcome_bind].
  destruct (lookup_lt_is_Some_2 arr m) as [pv Hpv]; [lia|].
  destruct (lookup_lt_is_Some_2 arr a) as [xa Hxa]; [lia|].
  rewrite (iter_swap_Ok arr m a pv xa Hpv Hxa).
  cbn [mbind outcome_bind].
  set (arr0 := <[m := xa]> (<[a := pv]> arr)).
  assert (Hlen0 : length arr0 = length arr).
  { unfold arr0. by rewrite !length_insert. }
  assert (Hpv0 : arr0 !! a = Some pv).
  { unfold arr0. destruct (decide (m = a)) as [->|].
    - rewrite list_lookup_insert_eq by (rewrite length_insert; lia). congruence.
    - rewrite list_lookup_insert_ne by done. apply list_lookup_insert_eq. lia. }
  destruct (unguarded_partition_spec arr0 a b pv Hpv0 Hab)
    as (arr' & p & -> & Hp & Hperm & Hlen' & Hframe & Hpiv & Hlow & Hhigh);
    [lia|].
  exists arr', p, pv. split; [done|]. split; [done|]. split.
  { rewrite Hperm. by apply swap_Permutation. }
  split; [lia|]. split; [|done].
  intros i Hi. rewrite Hframe by done. apply swap_lookup_other; lia.
Qed.

(** Ranges of an array. *)
Definition sorted_range arr a b : Prop :=
  ∀ i j x y, a ≤ i → i < j → j < b →
    arr !! i = Some x → arr !! j = Some y → comp y x = false.

Definition same_outside arr arr' a b : Prop :=
  ∀ i, i < a ∨ b ≤ i → arr' !! i = arr !! i.

Lemma range_length arr a b : b ≤ length arr → length (range arr a b) = b - a.
Proof. intros H. unfold range. rewrite length_take, length_drop. lia. Qed.

Lemma range_lookup arr a b i :
  i < b - a → range arr a b !! i = arr !! (a + i).
Proof. intros H. unfold range. by rewrite lookup_take_lt, lookup_drop. Qed.

Lemma array_split arr a b :
  a ≤ b → arr = take a arr ++ range arr a b ++ drop b arr.
Proof.
  intros H. unfold range.
  rewrite <- (take_drop a arr) at 1. f_equal.
  rewrite <- (take_drop (b - a) (drop a arr)) at 1. f_equal.
  rewrite drop_drop. f_equal. lia.
Qed.

Lemma same_outside_take arr arr' a b :
  length arr' = length arr → same_outside arr arr' a b →
  take a arr' = take a arr.
Proof.
  intros Hlen H. apply list_eq. intros i.
  destruct (decide (i < a)).
  - rewrite !lookup_take_lt by done. apply H. lia.
  - by rewrite !lookup_take_ge by lia.
Qed.

Lemma same_outside_drop arr arr' a b :
  same_outside arr arr' a b → drop b arr' = drop b arr.
Proof.
  intros H. apply list_eq. intros i. rewrite !lookup_drop. apply H. lia.
Qed.

Lemma range_Permutation arr arr' a b :
  a ≤ b → length arr' = length arr →
  arr' ≡ₚ arr → same_outside arr arr' a b →
  range arr' a b ≡ₚ range arr a b.
Proof.
  intros Hab Hlen Hperm Hout.
  rewrite (array_split arr a b Hab) in Hperm at 1.
  rewrite (array_split arr' a b Hab) in Hperm at 1.
  rewrite (same_outside_take arr arr' a b Hlen Hout) in Hperm.
  rewrite (same_outside_drop arr arr' a b Hout) in Hperm.
  apply Permutation_app_inv_l in Hperm.
  by apply Permutation_app_inv_r in Hperm.
Qed.

Lemma range_unchanged arr arr' a b :
  (∀ i, a ≤ i < b → arr' !! i = arr !! i) →
  range arr' a b = range arr a b.
Proof.
  intros H. apply list_eq. intros i. unfold range.
  destruct (decide (i < b - a)).
  - rewrite !lookup_take_lt, !lookup_drop by done. apply H. lia.
  - by rewrite !lookup_take_ge by lia.
Qed.

Lemma range_Forall (P : T → Prop) arr a b :
  b ≤ length arr →
  Forall P (range arr a b) ↔ ∀ i x, a ≤ i < b → arr !! i = Some x → P x.
Proof.
  intros Hlen. rewrite Forall_lookup. split.
  - intros H i x Hi Hx. apply (H (i - a)).
    rewrite range_lookup by lia. by replace (a + (i - a)) with i by lia.
  - intros H i x Hx.
    assert (i < b - a) as Hi.
    { apply lookup_lt_Some in Hx. rewrite range_length in Hx; done. }
    rewrite range_lookup in Hx by done. apply (H (a + i)); [lia|done].
Qed.

Lemma sorted_range_sorted arr a b :
  b ≤ length arr → sorted_range arr a b → sorted comp (range arr a b).
Proof.
  intros Hlen H i j x y Hij Hx Hy.
  assert (j < b - a) as Hj.
  { apply lookup_lt_Some in Hy. rewrite range_length in Hy; done. }
  rewrite range_lookup in Hx, Hy by lia.
  apply (H (a + i) (a + j)); (lia || done).
Qed.

Section Jobs.

(** [min_size] is at least 1 (it is 8 MiB divided by the size of a
    record), and [std::sort] meets its contract for [comp]. *)
Variable min_size : nat.
Variable std_sort : list T → list T.
Hypothesis min_size_pos : 0 < min_size.
Hypothesis std_sort_Permutation : ∀ l, std_sort l ≡ₚ l.
Hypothesis std_sort_sorted : ∀ l, sorted comp (std_sort l).

Lemma sort_range_lookup_inside arr a b i :
  a ≤ b → b ≤ length arr → a ≤ i < b →
  sort_range std_sort arr a b !! i = std_sort (range arr a b) !! (i - a).
Proof.
  intros Hab Hlen Hi. unfold sort_range.
  rewrite lookup_app_r; rewrite length_take; [|lia].
  replace (i - a `min` length arr) with (i - a) by lia.
  apply lookup_app_l.
  rewrite (Permutation_length (std_sort_Permutation _)), range_length; lia.
Qed.

Lemma sort_range_spec arr a b :
  a ≤ b → b ≤ length arr →
  sort_range std_sort arr a b ≡ₚ arr
  ∧ length (sort_range std_sort arr a b) = length arr
  ∧ same_outside arr (sort_range std_sort arr a b) a b
  ∧ sorted_range (sort_range std_sort arr a b) a b.
Proof.
  intros Hab Hlen.
  assert (Hperm : sort_range std_sort arr a b ≡ₚ arr).
  { rewrite (array_split arr a b Hab) at 2. unfold sort_range.
    by rewrite std_sort_Permutation. }
  assert (Hmid : length (std_sort (range arr a b)) = b - a).
  { rewrite (Permutation_length (std_sort_Permutation _)), range_length; lia. }
  split; [done|]. split; [by apply Permutation_length|]. split.
  - intros i [Hi|Hi]; unfold sort_range.
    + rewrite lookup_app_l by (rewrite length_take; lia).
      by apply lookup_take_lt.
    + rewrite lookup_app_r; rewrite length_take; [|lia].
      rewrite lookup_app_r; rewrite Hmid; [|lia].
      rewrite lookup_drop. f_equal. lia.
  - intros i j x y Hi Hij Hj.
    rewrite !sort_range_lookup_inside by lia.
    apply std_sort_sorted. lia.
Qed.

Section Pool.

(** The state of the pool while [lo, hi) of [arr0] is being sorted: the
    array is a permutation of [arr0] that differs from it inside the range
    only, the jobs lie in the range, no position belongs to two jobs, and
    two positions of the range that do not belong to one and the same job
    hold elements in order. *)
Variables (arr0 : list T) (lo hi : nat).
Hypothesis range_ok : lo ≤ hi ∧ hi ≤ length arr0.

Definition in_job (q : qsort_job) (i : nat) : Prop := job_a q ≤ i < job_b q.

Definition covering (jobs : list qsort_job) (i : nat) : nat :=
  length (filter (fun q => in_job q i) jobs).

Definition job_size (q : qsort_job) : nat := 2 * (job_b q - job_a q) + 1.

Record pool_ok (arr : list T) (jobs : list qsort_job) : Prop := {
  pool_Permutation : arr ≡ₚ arr0;
  pool_length : length arr = length arr0;
  pool_outside : same_outside arr0 arr lo hi;
  pool_within :
    Forall (fun q => lo ≤ job_a q ∧ job_a q ≤ job_b q ∧ job_b q ≤ hi) jobs;
  pool_disjoint : ∀ i, covering jobs i ≤ 1;
  pool_ordered : ∀ i k x y,
    lo ≤ i → i < k → k < hi → arr !! i = Some x → arr !! k = Some y →
    (∀ q, q ∈ jobs → ¬ (in_job q i ∧ in_job q k)) →
    comp y x = false
}.

Lemma pool_ok_Permutation arr jobs jobs' :
  jobs ≡ₚ jobs' → pool_ok arr jobs → pool_ok arr jobs'.
Proof.
  intros Hp [H1 H2 H3 H4 H5 H6]. split; try done.
  - by rewrite <- Hp.
  - intros i. unfold covering. rewrite <- Hp. apply H5.
  - intros i k x y ? ? ? Hx Hy Hj. apply (H6 i k); try done.
    intros q Hin. apply Hj. by rewrite <- Hp.
Qed.

Lemma covering_outside jobs l r i :
  Forall (fun q => l ≤ job_a q ∧ job_a q ≤ job_b q ∧ job_b q ≤ r) jobs →
  ¬ (l ≤ i < r) → covering jobs i = 0.
Proof.
  intros Hall Hi. unfold covering.
  induction Hall as [|q jobs Hj _ IH]; [done|].
  rewrite filter_cons_False; [done|]. unfold in_job. lia.
Qed.

Lemma covering_zero jobs i q :
  covering jobs i = 0 → q ∈ jobs → ¬ in_job q i.
Proof.
  unfold covering. intros H Hin Hj.
  apply length_zero_iff_nil in H.
  by apply (filter_nil_not_elem_of _ _ q H Hj).
Qed.

Lemma range_elem arr l r i x :
  r ≤ length arr → l ≤ i < r → arr !! i = Some x → x ∈ range arr l r.
Proof.
  intros Hlen Hi Hx. apply list_elem_of_lookup. exists (i - l).
  rewrite range_lookup by lia. by replace (l + (i - l)) with i by lia.
Qed.

Lemma elem_range arr l r x :
  r ≤ length arr → x ∈ range arr l r → ∃ i, l ≤ i < r ∧ arr !! i = Some x.
Proof.
  intros Hlen [i Hi]%list_elem_of_lookup.
  assert (i < r - l) as Hlt.
  { apply lookup_lt_Some in Hi. rewrite range_length in Hi; done. }
  rewrite range_lookup in Hi by done. exists (l + i). split; [lia|done].
Qed.

(** A turn that rearranges the range of the job [q] and leaves the jobs
    [new] of it, with the elements of the range in order wherever they do
    not share a job of [new], keeps the state of the pool. *)
Lemma pool_ok_turn arr arr' q new rest :
  pool_ok arr (q :: rest) →
  arr' ≡ₚ arr → length arr' = length arr →
  same_outside arr arr' (job_a q) (job_b q) →
  Forall (fun q' => job_a q ≤ job_a q' ∧ job_a q' ≤ job_b q'
                    ∧ job_b q' ≤ job_b q) new →
  (∀ i, covering new i ≤ 1) →
  (∀ i k x y, job_a q ≤ i → i < k → k < job_b q →
     arr' !! i = Some x → arr' !! k = Some y →
     (∀ q', q' ∈ new → ¬ (in_job q' i ∧ in_job q' k)) → comp y x = false) →
  pool_ok arr' (new ++ rest).
Proof.
  intros [H1 H2 H3 H4 H5 H6] Hperm Hlen Hout Hnew Hcover Hinner.
  apply Forall_cons in H4 as [(Hl & Hlr & Hr) H4].
  destruct range_ok as [Hlohi Hhi].
  assert (Hrange : range arr' (job_a q) (job_b q)
                   ≡ₚ range arr (job_a q) (job_b q)).
  { by apply range_Permutation. }
  assert (Hrest : ∀ i, in_job q i → covering rest i = 0).
  { intros i Hi. specialize (H5 i). unfold covering in *.
    rewrite filter_cons_True in H5 by done. simpl in H5. lia. }
  assert (Hmove : ∀ i x, in_job q i → arr' !! i = Some x →
            ∃ i', in_job q i' ∧ arr !! i' = Some x).
  { intros i x Hi Hx. apply (elem_range arr); [lia|].
    rewrite <- Hrange. apply (range_elem arr' _ _ i); [lia|done|done]. }
  split.
  - by rewrite Hperm.
  - lia.
  - intros i Hi. rewrite Hout by lia. by apply H3.
  - apply Forall_app. split; [|done].
    eapply Forall_impl; [exact Hnew|]. simpl. intros q' ?. lia.
  - intros i. unfold covering. rewrite filter_app, length_app.
    fold (covering new i) (covering rest i).
    destruct (decide (in_job q i)) as [Hi|Hi].
    + rewrite (Hrest i Hi). specialize (Hcover i). lia.
    + rewrite (covering_outside new (job_a q) (job_b q) i Hnew Hi).
      specialize (H5 i). unfold covering in *.
      rewrite filter_cons_False in H5 by done. lia.
  - intros i k x y Hi Hik Hk Hx Hy Hjobs.
    destruct (decide (in_job q i)) as [Hji|Hji];
      destruct (decide (in_job q k)) as [Hjk|Hjk].
    + apply (Hinner i k); try done; try (unfold in_job in *; lia).
      intros q' Hj'. apply Hjobs. apply elem_of_app. by left.
    + destruct (Hmove i x Hji Hx) as (i' & Hi' & Hx').
      rewrite Hout in Hy by (unfold in_job in *; lia).
      apply (H6 i' k); try done; try (unfold in_job in *; lia).
      intros q' [->|Hj']%elem_of_cons [Hin1 Hin2]; [done|].
      by apply (covering_zero rest i' q' (Hrest i' Hi') Hj').
    + destruct (Hmove k y Hjk Hy) as (k' & Hk' & Hy').
      rewrite Hout in Hx by (unfold in_job in *; lia).
      apply (H6 i k'); try done; try (unfold in_job in *; lia).
      intros q' [->|Hj']%elem_of_cons [Hin1 Hin2]; [done|].
      by apply (covering_zero rest k' q' (Hrest k' Hk') Hj').
    + rewrite Hout in Hx, Hy by (unfold in_job in *; lia).
      apply (H6 i k); try done.
      intros q' [->|Hj']%elem_of_cons [Hin1 Hin2]; [done|].
      apply (Hjobs q'); [|done]. apply elem_of_app. by right.
Qed.

(** Every turn ends, keeps the state of the pool and makes the work left
    smaller. *)
Lemma turn_spec arr q rest :
  pool_ok arr (q :: rest) →
  ∃ arr' new,
    turn comp min_size std_sort arr q = Ok (arr', new)
    ∧ pool_ok arr' (new ++ rest)
    ∧ sum_list_with job_size new < job_size q.
Proof.
  intros Hok. pose proof Hok as [H1 H2 H3 H4 H5 H6].
  apply Forall_cons in H4 as [(Hl & Hlr & Hr) H4].
  destruct range_ok as [Hlohi Hhi].
  destruct q as [l r]. simpl in Hl, Hlr, Hr. unfold turn. simpl.
  rewrite bool_decide_eq_true_2 by done.
  case_bool_decide as Hsize.
  - destruct (partition_spec arr l r)
      as (arr' & p & pv & -> & Hp & Hperm & Hlen & Hout & Hpiv & Hlow & Hhigh);
      [lia|lia|].
    cbn [mbind outcome_bind fst snd].
    exists arr', [mk_job l p; mk_job (p + 1) r]. split; [done|]. split.
    + apply (pool_ok_turn arr arr' (mk_job l r)); try done.
      * repeat constructor; simpl; lia.
      * intros i. unfold covering, in_job.
        rewrite !filter_cons, filter_nil. simpl.
        repeat case_decide; simpl; lia.
      * simpl. intros i k x y Hi Hik Hk Hx Hy Hjobs.
        assert (¬ (k < p)) as Hkp.
        { intros ?. apply (Hjobs (mk_job l p)).
          - apply elem_of_cons. by left.
          - unfold in_job. simpl. lia. }
        assert (¬ (p < i)) as Hpi.
        { intros ?. apply (Hjobs (mk_job (p + 1) r)).
          - apply elem_of_cons. right. apply elem_of_cons. by left.
          - unfold in_job. simpl. lia. }
        destruct (decide (k = p)) as [->|Hkne].
        { assert (y = pv) as -> by congruence. apply (Hlow i); [lia|done]. }
        destruct (decide (i = p)) as [->|Hine].
        { assert (x = pv) as -> by congruence. apply (Hhigh k); [lia|done]. }
        apply (comp_between x pv y).
        -- apply (Hlow i); [lia|done].
        -- apply (Hhigh k); [lia|done].
    + unfold job_size. simpl. lia.
  - destruct (sort_range_spec arr l r) as (Hperm & Hlen & Hout & Hsorted);
      [done|lia|].
    eexists _, []. split; [done|]. split.
    + apply (pool_ok_turn arr _ (mk_job l r)); try done.
      * intros i. unfold covering. simpl. lia.
      * simpl. intros i k x y Hi Hik Hk Hx Hy _. by apply (Hsorted i k).
    + unfold job_size. simpl. lia.
Qed.

Lemma run_jobs_step fuel schedule arr (jobs : list qsort_job) :
  jobs ≠ [] →
  run_jobs comp min_size std_sort (S fuel) schedule arr jobs
  = match jobs !! (hd 0 schedule mod length jobs) with
    | None => Undefined out_of_bounds
    | Some q =>
        r ← turn comp min_size std_sort arr q;
        run_jobs comp min_size std_sort fuel (tl schedule) r.1
          (r.2 ++ delete (hd 0 schedule mod length jobs) jobs)
    end.
Proof. by destruct jobs. Qed.

(** Whatever the schedule, the pool runs out of jobs. *)
Lemma run_jobs_spec : ∀ fuel schedule arr jobs,
  pool_ok arr jobs → sum_list_with job_size jobs ≤ fuel →
  ∃ arr',
    run_jobs comp min_size std_sort fuel schedule arr jobs = Ok arr'
    ∧ pool_ok arr' [].
Proof.
  induction fuel as [|fuel IH]; intros schedule arr jobs Hok Hfuel.
  { destruct jobs as [|q jobs]; [by exists arr|].
    simpl in Hfuel. unfold job_size in Hfuel. lia. }
  destruct (decide (jobs = [])) as [->|Hne]; [by exists arr|].
  rewrite run_jobs_step by done.
  assert (length jobs ≠ 0) as Hlen by (by destruct jobs).
  set (n := hd 0 schedule mod length jobs).
  assert (n < length jobs) as Hn by (apply Nat.mod_upper_bound; done).
  destruct (lookup_lt_is_Some_2 jobs n Hn) as [q Hq]. rewrite Hq.
  pose proof (delete_Permutation jobs n q Hq) as Hperm.
  destruct (turn_spec arr q (delete n jobs)) as (arr' & new & -> & Hok' & Hless).
  { by apply (pool_ok_Permutation arr jobs). }
  cbn [mbind outcome_bind fst snd].
  apply IH; [done|].
  rewrite Hperm in Hfuel. rewrite sum_list_with_app. simpl in Hfuel. lia.
Qed.

End Pool.

(** C1: for a comparator that is a strict weak ordering, [parallel_sort]
    on a range [a, b) of an array returns, whatever the order in which the
    pool runs the jobs, and the contents of the range are then a
    permutation of what they were and sorted (for all [i < q], not [comp]
    of the [q]-th and the [i]-th), the rest of the array being untouched.
    This covers both paths: below [min_size] the range goes to the
    sequential sort, from [min_size] on to the jobs. *)
Theorem parallel_sort_sorts schedule arr a b :
  a ≤ b → b ≤ length arr →
  ∃ arr',
    parallel_sort comp min_size std_sort schedule arr a b = Ok arr'
    ∧ range arr' a b ≡ₚ range arr a b
    ∧ sorted comp (range arr' a b)
    ∧ same_outside arr arr' a b
    ∧ (b - a < min_size → arr' = sort_range std_sort arr a b)
    ∧ (min_size ≤ b - a →
       run_jobs comp min_size std_sort (2 * (b - a) + 1) schedule arr
         [mk_job a b] = Ok arr').
Proof.
  intros Hab Hlen. unfold parallel_sort.
  assert (Hgoal : ∀ arr',
    arr' ≡ₚ arr ∧ length arr' = length arr
    ∧ same_outside arr arr' a b ∧ sorted_range arr' a b →
    range arr' a b ≡ₚ range arr a b
    ∧ sorted comp (range arr' a b) ∧ same_outside arr arr' a b).
  { intros arr' (Hperm & Hlen' & Hout & Hsort).
    split; [by apply range_Permutation|].
    split; [apply sorted_range_sorted; [lia|done]|done]. }
  case_bool_decide as Hsize.
  - eexists. split; [done|].
    destruct (Hgoal _ (sort_range_spec arr a b Hab Hlen)) as (? & ? & ?).
    repeat split; try done. lia.
  - destruct (run_jobs_spec arr a b (conj Hab Hlen) (2 * (b - a) + 1)
                schedule arr [mk_job a b]) as (arr' & Hrun & Hok).
    { split; try done.
      - repeat constructor; simpl; lia.
      - intros i. unfold covering. rewrite filter_cons, filter_nil.
        case_decide; simpl; lia.
      - intros i k x y Hi Hik Hk _ _ Hjobs. exfalso.
        apply (Hjobs (mk_job a b)); [apply elem_of_cons; by left|].
        unfold in_job. simpl. lia. }
    { simpl. unfold job_size. simpl. lia. }
    exists arr'. split; [done|].
    destruct Hok as [H1 H2 H3 _ _ H6].
    destruct (Hgoal arr') as (? & ? & ?).
    { split; [done|]. split; [done|]. split; [done|].
      intros i k x y Hi Hik Hk Hx Hy. apply (H6 i k); try done.
      intros q Hj. by apply elem_of_nil in Hj. }
    repeat split; done.
Qed.

End Jobs.

(** X13: [partition] on a non-empty range returns in bounds, whatever the
    contents: it returns a position [p] of the range and rearranges the
    range, and nothing else, so that [p] holds the pivot, no element
    before [p] is after the pivot and no element behind [p] is before
    it. *)
Theorem partition_splits_range arr a b :
  a < b → b ≤ length arr →
  ∃ arr' p pv,
    partition comp arr a b = Ok (arr', p)
    ∧ a ≤ p < b ∧ arr' !! p = Some pv
    ∧ range arr' a b ≡ₚ range arr a b
    ∧ take a arr' = take a arr ∧ drop b arr' = drop b arr
    ∧ Forall (fun x => comp pv x = false) (range arr' a p)
    ∧ Forall (fun x => comp x pv = false) (range arr' (S p) b).
Proof.
  intros Hab Hlen.
  destruct (partition_spec arr a b Hab Hlen)
    as (arr' & p & pv & Hpart & Hp & Hperm & Hlen' & Hframe & Hpv & Hlow & Hhigh).
  exists arr', p, pv. split; [done|]. split; [done|]. split; [done|].
  split; [apply range_Permutation; (done || lia)|].
  split; [by apply (same_outside_take arr arr' a b)|].
  split; [by apply (same_outside_drop arr arr' a b)|].
  unfold not_after, not_before in *. split.
  - apply (range_Forall _ arr' a p); [lia|done].
  - apply (range_Forall _ arr' (S p) b); [lia|done].
Qed.

End Order.

(** The downward scan stops only at an element the pivot is not before. *)
Lemma scan_down_runs_off arr pivot : ∀ lst,
  (∀ x y, x ∈ arr → y ∈ arr → comp x y = true) →
  pivot < length arr → lst ≤ length arr →
  scan_down comp arr pivot lst = Undefined out_of_bounds.
Proof.
  intros lst Hall Hpivot. induction lst as [|lst IH]; intros Hlst; [done|].
  destruct (lookup_lt_is_Some_2 arr pivot Hpivot) as [vp Hvp].
  destruct (lookup_lt_is_Some_2 arr lst) as [vl Hvl]; [lia|].
  cbn [scan_down]. rewrite (deref_Ok _ _ _ Hvp), (deref_Ok _ _ _ Hvl).
  cbn [mbind outcome_bind].
  rewrite Hall by (by eapply list_elem_of_lookup_2). apply IH. lia.
Qed.

(** X15: the comparator has to be strict. Where it holds between any two
    elements of the array, as [<=] does on equal keys, [partition] from
    the start of the array scans past the pivot and off the front of the
    array. *)
Theorem partition_needs_strict_comparator arr b :
  (∀ x y, x ∈ arr → y ∈ arr → comp x y = true) →
  0 < b → b ≤ length arr →
  partition comp arr 0 b = Undefined out_of_bounds.
Proof.
  intros Hall Hb Hlen. unfold partition.
  destruct (pick_pivot_range arr 0 b Hb Hlen) as (m & -> & Hm).
  cbn [mbind outcome_bind].
  destruct (lookup_lt_is_Some_2 arr m) as [pv Hpv]; [lia|].
  destruct (lookup_lt_is_Some_2 arr 0) as [xa Hxa]; [lia|].
  rewrite (iter_swap_Ok arr m 0 pv xa Hpv Hxa).
  cbn [mbind outcome_bind].
  set (arr0 := <[m := xa]> (<[0 := pv]> arr)).
  assert (Hlen0 : length arr0 = length arr).
  { unfold arr0. by rewrite !length_insert. }
  assert (Hperm : arr0 ≡ₚ arr) by (by apply swap_Permutation).
  unfold unguarded_partition. cbn [partition_loop].
  rewrite scan_down_runs_off; [done| |lia|lia].
  intros x y Hx Hy. apply Hall; by rewrite <- Hperm.
Qed.

(** X14: [pick_pivot] needs nothing of the comparator to stay in bounds:
    on a non-empty range it reads only elements of the range and returns
    one of the nine positions it samples; on a range of fewer than 8
    elements these are the first and the last only. *)
Theorem pick_pivot_in_samples arr a b :
  a < b → b ≤ length arr →
  ∃ m,
    pick_pivot comp arr a b = Ok m
    ∧ a ≤ m < b
    ∧ ((∃ n, n ≤ 7 ∧ m = a + (b - a) / 8 * n) ∨ m = b - 1)
    ∧ (b - a < 8 → m = a ∨ m = b - 1).
Proof.
  intros Hab Hlen. unfold pick_pivot.
  rewrite bool_decide_eq_false_2 by lia. rewrite bool_decide_eq_true_2 by done.
  pose proof (sample_positions a b Hab) as Hs.
  assert (b - a < 8 → (b - a) / 8 = 0) as Hsmall
    by (intros; by apply Nat.div_small).
  set (s := (b - a) / 8) in *.
  assert (Hget : ∀ i, i < b → ∃ x, arr !! i = Some x).
  { intros i Hi. apply lookup_lt_is_Some_2. lia. }
  destruct (Hget (a + 0)) as [x0 H0]; [lia|].
  destruct (Hget (a + s)) as [x1 H1]; [lia|].
  destruct (Hget (a + s * 2)) as [x2 H2]; [lia|].
  destruct (Hget (a + s * 3)) as [x3 H3]; [lia|].
  destruct (Hget (a + s * 4)) as [x4 H4]; [lia|].
  destruct (Hget (a + s * 5)) as [x5 H5]; [lia|].
  destruct (Hget (a + s * 6)) as [x6 H6]; [lia|].
  destruct (Hget (a + s * 7)) as [x7 H7]; [lia|].
  destruct (Hget (b - 1)) as [x8 H8]; [lia|].
  destruct (median_index arr _ _ _ _ _ _ H0 H1 H2) as (m1 & -> & Hm1).
  destruct (median_index arr _ _ _ _ _ _ H3 H4 H5) as (m2 & -> & Hm2).
  destruct (median_index arr _ _ _ _ _ _ H6 H7 H8) as (m3 & -> & Hm3).
  cbn [mbind outcome_bind].
  destruct (Hget m1) as [y1 Hy1]; [lia|].
  destruct (Hget m2) as [y2 Hy2]; [lia|].
  destruct (Hget m3) as [y3 Hy3]; [lia|].
  destruct (median_index arr _ _ _ _ _ _ Hy1 Hy2 Hy3) as (m & -> & Hm).
  exists m. split; [done|]. split; [lia|]. split; [|lia].
  assert (Hn : ∀ n, n ≤ 7 → m = a + s * n →
    (∃ n, n ≤ 7 ∧ m = a + s * n) ∨ m = b - 1) by (intros n ? ?; left; eauto).
  destruct Hm as [-> | [-> | ->]].
  - destruct Hm1 as [-> | [-> | ->]];
      [apply (Hn 0)|apply (Hn 1)|apply (Hn 2)]; lia.
  - destruct Hm2 as [-> | [-> | ->]];
      [apply (Hn 3)|apply (Hn 4)|apply (Hn 5)]; lia.
  - destruct Hm3 as [-> | [-> | ->]];
      [apply (Hn 6); lia|apply (Hn 7); lia|by right].
Qed.

End SortProperties.

(** *** The parallel sort run with an insertion sort on numbers *)

Section InsertionSort.

Context {T : Type}.
Variable comp : T → T → bool.
Hypothesis comp_swo : strict_weak_order comp.

Lemma insert_sorted_Permutation x (l : list T) :
  insert_sorted comp x l ≡ₚ x :: l.
Proof.
  induction l as [|y l IH]; simpl; [done|].
  destruct (comp y x); [|done]. rewrite IH. apply perm_swap.
Qed.

Lemma insertion_sort_Permutation (l : list T) : insertion_sort comp l ≡ₚ l.
Proof.
  unfold insertion_sort. induction l as [|x l IH]; simpl; [done|].
  by rewrite insert_sorted_Permutation, IH.
Qed.

Lemma sorted_cons x (l : list T) :
  sorted comp (x :: l) ↔ Forall (fun y => comp y x = false) l ∧ sorted comp l.
Proof.
  split.
  - intros H. split.
    + apply Forall_lookup. intros i y Hy. apply (H 0 (S i)); [lia|done|done].
    + intros i j y z Hij Hy Hz. apply (H (S i) (S j)); [lia|done|done].
  - intros [Hall Hl] [|i] [|j] y z Hij Hy Hz; simpl in *; try lia.
    + injection Hy as <-. rewrite Forall_lookup in Hall. by apply (Hall j).
    + apply (Hl i j); [lia|done|done].
Qed.

Lemma insert_sorted_sorted x (l : list T) :
  sorted comp l → sorted comp (insert_sorted comp x l).
Proof.
  induction l as [|y l IH]; intros Hl; simpl.
  { apply sorted_cons. split; [constructor|]. intros i j ? ? ? Hi. done. }
  apply sorted_cons in Hl as [Hall Hl].
  destruct (comp y x) eqn:Hyx.
  - apply sorted_cons. split; [|by apply IH].
    rewrite insert_sorted_Permutation. constructor; [|done].
    by apply comp_asym.
  - apply sorted_cons. split.
    + constructor; [done|]. eapply Forall_impl; [exact Hall|].
      intros z Hz. simpl in Hz. by apply (comp_between comp comp_swo x y z).
    + by apply sorted_cons.
Qed.

Lemma insertion_sort_sorted (l : list T) : sorted comp (insertion_sort comp l).
Proof.
  unfold insertion_sort. induction l as [|x l IH]; simpl.
  - intros i j ? ? ? Hi. done.
  - by apply insert_sorted_sorted.
Qed.

End InsertionSort.

Lemma ltb_strict_weak_order : strict_weak_order Nat.ltb.
Proof.
  split.
  - apply Nat.ltb_irrefl.
  - intros x y z Hxy%Nat.ltb_lt Hyz%Nat.ltb_lt. apply Nat.ltb_lt. lia.
  - intros x y z Hxy%Nat.ltb_ge Hyx%Nat.ltb_ge Hyz%Nat.ltb_ge Hzy%Nat.ltb_ge.
    split; apply Nat.ltb_ge; lia.
Qed.

Definition sample_records : list nat :=
  [5; 1; 4; 1; 5; 9; 2; 6; 5; 3; 5; 8; 9; 7; 9].

(** The third scenario of the specification, on the path through the jobs
    and on the sequential path. *)
Example parallel_sort_sample :
  parallel_sort Nat.ltb 4 (insertion_sort Nat.ltb) [] sample_records 0 15
  = Ok [1; 1; 2; 3; 4; 5; 5; 5; 5; 6; 7; 8; 9; 9; 9]
  ∧ parallel_sort Nat.ltb 4 (insertion_sort Nat.ltb) [1; 0; 2; 1; 3]
      sample_records 0 15
    = Ok [1; 1; 2; 3; 4; 5; 5; 5; 5; 6; 7; 8; 9; 9; 9]
  ∧ parallel_sort Nat.ltb 16 (insertion_sort Nat.ltb) [] sample_records 0 15
    = Ok [1; 1; 2; 3; 4; 5; 5; 5; 5; 6; 7; 8; 9; 9; 9].
Proof. repeat split; vm_compute; reflexivity. Qed.

Lemma parallel_sort_sorts_witness :
  ∃ arr',
    parallel_sort Nat.ltb 4 (insertion_sort Nat.ltb) [1; 0; 2; 1; 3]
      sample_records 0 15
    = Ok arr'
    ∧ range arr' 0 15 ≡ₚ range sample_records 0 15
    ∧ sorted Nat.ltb (range arr' 0 15).
Proof.
  destruct (parallel_sort_sorts Nat.ltb ltb_strict_weak_order 4
              (insertion_sort Nat.ltb) ltac:(lia)
              (insertion_sort_Permutation Nat.ltb)
              (insertion_sort_sorted Nat.ltb ltb_strict_weak_order)
              [1; 0; 2; 1; 3] sample_records 0 15
              ltac:(lia) ltac:(simpl; lia))
    as (arr' & Hrun & Hperm & Hsorted & _).
  exists arr'. split; [exact Hrun|]. split; [exact Hperm|exact Hsorted].
Defined.

Lemma pick_pivot_ninther_witness :
  ∃ m1 m2 m3 p,
    pick_pivot Nat.ltb sample_records 0 15 = Ok p
    ∧ is_median Nat.ltb sample_records m1 0 1 2
    ∧ is_median Nat.ltb sample_records m2 3 4 5
    ∧ is_median Nat.ltb sample_records m3 6 7 14
    ∧ is_median Nat.ltb sample_records p m1 m2 m3.
Proof.
  destruct (proj2 (pick_pivot_ninther Nat.ltb sample_records 0 15
                     (comp_asym Nat.ltb ltb_strict_weak_order)
                     ltac:(lia) ltac:(simpl; lia)) ltac:(lia))
    as (m1 & m2 & m3 & p & Hp & H1 & H2 & H3 & Hm).
  exists m1, m2, m3, p. split; [exact Hp|].
  split; [exact H1|]. split; [exact H2|]. split; [exact H3|exact Hm].
Defined.

Lemma partition_splits_range_witness :
  ∃ arr' p pv,
    partition Nat.ltb sample_records 2 12 = Ok (arr', p)
    ∧ arr' !! p = Some pv
    ∧ Forall (fun x => Nat.ltb pv x = false) (range arr' 2 p)
    ∧ Forall (fun x => Nat.ltb x pv = false) (range arr' (S p) 12).
Proof.
  destruct (partition_splits_range Nat.ltb ltb_strict_weak_order
              sample_records 2 12 ltac:(lia) ltac:(simpl; lia))
    as (arr' & p & pv & Hpart & _ & Hpv & _ & _ & _ & Hlow & Hhigh).
  exists arr', p, pv. split; [exact Hpart|]. split; [exact Hpv|].
  split; [exact Hlow|exact Hhigh].
Defined.

Lemma pick_pivot_in_samples_witness :
  ∃ m, pick_pivot (fun _ _ => true) sample_records 3 8 = Ok m
       ∧ (m = 3 ∨ m = 7).
Proof.
  destruct (pick_pivot_in_samples (fun _ _ => true) sample_records 3 8
              ltac:(lia) ltac:(simpl; lia))
    as (m & Hm & _ & _ & Hends).
  exists m. split; [exact Hm|]. apply Hends. lia.
Defined.

Lemma partition_needs_strict_comparator_witness :
  partition Nat.leb [7; 7; 7; 7] 0 4 = Undefined out_of_bounds.
Proof.
  apply (partition_needs_strict_comparator Nat.leb [7; 7; 7; 7] 4).
  - intros x y Hx Hy.
    assert (Hall : ∀ z, z ∈ [7; 7; 7; 7] → z = 7).
    { intros z Hz. repeat (apply elem_of_cons in Hz as [->|Hz]; [done|]).
      by apply elem_of_nil in Hz. }
    by rewrite (Hall x Hx), (Hall y Hy).
  - lia.
  - simpl. lia.
Defined.

End ParallelSort.

(** ** Options of the matrix test (test_ami_matrix.cpp) *)

Module TestAmiMatrix.

(** The file-scope variables [parse_app_opt] writes: where the three
    reports go, and whether they are wanted. A [char *] is the string it
    points to. *)
Record app_options : Type := mk_options {
  count_results_filename : string;
  intermediate_results_filename : string;
  final_results_filename : string;
  report_results_count : bool;
  report_results_intermediate : bool;
  report_results_final : bool
}.

Definition def_crf : string := "/var/tmp/osc.txt".
Definition def_irf : string := "/var/tmp/osi.txt".
Definition def_frf : string := "/var/tmp/osf.txt".

(** The initialisers of the six variables. *)
Definition initial_options : app_options :=
  mk_options def_crf def_irf def_frf false false false.

(** The [switch]: the cases of the capital letters have no [break] and
    run on into the cases of the small letters. *)
Definition parse_app_opt (c : ascii) (optarg : string) (s : app_options)
    : app_options :=
  if bool_decide (c = "C"%char) then
    let s := mk_options optarg (intermediate_results_filename s)
               (final_results_filename s) (report_results_count s)
               (report_results_intermediate s) (report_results_final s) in
    mk_options (count_results_filename s) (intermediate_results_filename s)
      (final_results_filename s) true
      (report_results_intermediate s) (report_results_final s)
  else if bool_decide (c = "c"%char) then
    mk_options (count_results_filename s) (intermediate_results_filename s)
      (final_results_filename s) true
      (report_results_intermediate s) (report_results_final s)
  else if bool_decide (c = "I"%char) then
    let s := mk_options (count_results_filename s) optarg
               (final_results_filename s) (report_results_count s)
               (report_results_intermediate s) (report_results_final s) in
    mk_options (count_results_filename s) (intermediate_results_filename s)
      (final_results_filename s) (report_results_count s)
      true (report_results_final s)
  else if bool_decide (c = "i"%char) then
    mk_options (count_results_filename s) (intermediate_results_filename s)
      (final_results_filename s) (report_results_count s)
      true (report_results_final s)
  else if bool_decide (c = "F"%char) then
    let s := mk_options (count_results_filename s)
               (intermediate_results_filename s) optarg
               (report_results_count s)
               (report_results_intermediate s) (report_results_final s) in
    mk_options (count_results_filename s) (intermediate_results_filename s)
      (final_results_filename s) (report_results_count s)
      (report_results_intermediate s) true
  else if bool_decide (c = "f"%char) then
    mk_options (count_results_filename s) (intermediate_results_filename s)
      (final_results_filename s) (report_results_count s)
      (report_results_intermediate s) true
  else s.

(** Successive calls, one for each option and its argument. *)
Definition parse_app_opts (opts : list (ascii * string)) (s : app_options)
    : app_options :=
  foldl (fun s o => parse_app_opt o.1 o.2 s) s opts.

(** Whether one of the options is [c1] or [c2]; the argument of the last
    option [c], or [d] when there is none. *)
Definition given (c1 c2 : ascii) (opts : list (ascii * string)) : bool :=
  existsb (fun o => bool_decide (o.1 = c1) || bool_decide (o.1 = c2)) opts.

Definition last_argument (c : ascii) (d : string)
    (opts : list (ascii * string)) : string :=
  foldl (fun d o => if bool_decide (o.1 = c) then o.2 else d) d opts.

(** X16: the options are independent of each other and of their order
    but for the last file name. After any sequence of calls a report is
    switched on exactly when it was on before or its letter was given in
    either case (a capital letter switches the report on as well, for its
    case runs on into the next), no call switches a report off, and each
    file name is the argument of the last capital letter of its report,
    or what it was. *)
Theorem parse_app_opts_result (opts : list (ascii * string)) (s : app_options) :
  parse_app_opts opts s
  = mk_options
      (last_argument "C" (count_results_filename s) opts)
      (last_argument "I" (intermediate_results_filename s) opts)
      (last_argument "F" (final_results_filename s) opts)
      (report_results_count s || given "C" "c" opts)
      (report_results_intermediate s || given "I" "i" opts)
      (report_results_final s || given "F" "f" opts).
Proof.
  unfold parse_app_opts, last_argument, given.
  revert s. induction opts as [|[c optarg] opts IH]; intros s.
  { destruct s. simpl. by rewrite !orb_false_r. }
  cbn [foldl existsb fst snd]. rewrite IH. clear IH.
  unfold parse_app_opt.
  repeat (case_bool_decide; subst; simpl);
    rewrite ?orb_true_r, ?orb_false_r; simpl; try done;
    destruct (report_results_count s), (report_results_intermediate s),
      (report_results_final s); done.
Qed.

End TestAmiMatrix.
